(** * Order execution engine: a shallow embedding and its checked properties

    The TypeScript services of the engine are rendered as Rocq functions:
    - [src/services/dexRouter.ts]         the quote sources and the route selector,
    - [src/services/orderQueue.ts]        the job queue front end,
    - [src/services/websocketManager.ts]  the registry of subscriber sockets,
    - [src/services/orderProcessor.ts]    the per-job lifecycle driver,
    - [src/routes/orders.ts]              the intake handler of the execute route.

    JavaScript numbers are IEEE-754 binary64 values, so they are modelled by
    the primitive floats of Rocq; a JavaScript [Map] keyed by strings is a
    [gmap string _]; sockets are objects shared between the registry and the
    transport, so they live in a heap and the registry holds handles; an
    exception is an explicit [Throw] outcome of a state-passing computation
    whose state survives the throw.  Log calls, timestamps and sleeps have no
    effect on the modelled state and are left out.  What the outside world
    decides (random draws, identifiers, errors of the store, of the queue and
    of a socket write) is an argument of the function it affects.  The
    libraries the code calls (ws, Prisma, BullMQ) are not part of the
    repository: each is rendered by the few operations the code uses. *)

From Stdlib Require Import ZArith List String PrimFloat Floats Lia.
From stdpp Require Import gmap strings list.

Open Scope string_scope.
#[local] Set Warnings "-inexact-float".

(** ** JavaScript values the code inspects *)

Module Js.

(** [a > b] on numbers: false as soon as one side is NaN. *)
Definition gt (a b : float) : bool := PrimFloat.ltb b a.

(** Truthiness of a number: everything but NaN, +0 and -0. *)
Definition truthy_number (x : float) : bool :=
  negb (PrimFloat.is_nan x || PrimFloat.is_zero x).

(** Truthiness of a query parameter: [undefined] (absent) and the empty
    string are falsy, every other string is truthy. *)
Definition truthy_param (p : option string) : bool :=
  match p with
  | None => false
  | Some s => negb (String.eqb s "")
  end.

(** A thrown value: an [Error] made by [new Error(message)], whose [name] is
    'Error'; an instance of a subclass of [Error] (TypeError, the ReplyError
    of the Redis client, the errors of Prisma, ...) with its [name] and its
    [message]; or anything else, with what [String] makes of it. *)
Inductive Thrown : Type :=
| ErrorObj (message : string)
| NamedError (name message : string)
| NonError (text : string).

(** [Error.prototype.toString]: the name alone when the message is empty,
    the message alone when the name is, and otherwise the two separated by
    a colon and a space. *)
Definition error_toString (name message : string) : string :=
  if String.eqb name "" then message
  else if String.eqb message "" then name
  else name ++ ": " ++ message.

(** [`${error}`]. *)
Definition to_display (e : Thrown) : string :=
  match e with
  | ErrorObj m => error_toString "Error" m
  | NamedError n m => error_toString n m
  | NonError t => t
  end.

(** [error instanceof Error ? error.message : 'Unknown error']. *)
Definition message_or_unknown (e : Thrown) : string :=
  match e with
  | ErrorObj m => m
  | NamedError _ m => m
  | NonError _ => "Unknown error"
  end.

End Js.

(** ** Types of [types/order.types.ts] *)

Inductive OrderStatus : Set :=
| PENDING | ROUTING | BUILDING | SUBMITTED | CONFIRMED | FAILED.

#[global] Instance OrderStatus_eq_dec : EqDecision OrderStatus.
Proof. solve_decision. Defined.

Module DexQuote.
Record t : Type := mk {
  dex : string;
  price : float;
  fee : float;
  estimatedOutput : float;
  impact : option float;
}.
End DexQuote.

Module Order.
(** [orderType] is the query string cast to [OrderType] without a check. *)
Record t : Type := mk {
  id : string;
  tokenIn : string;
  tokenOut : string;
  amount : float;
  orderType : string;
  status : OrderStatus;
  executedPrice : option float;
  txHash : option string;
  dex : option string;
}.

Definition with_status (s : OrderStatus) (o : t) : t :=
  mk (id o) (tokenIn o) (tokenOut o) (amount o) (orderType o) s
     (executedPrice o) (txHash o) (dex o).

Definition with_execution (s : OrderStatus) (h : string) (p : float)
    (d : string) (o : t) : t :=
  mk (id o) (tokenIn o) (tokenOut o) (amount o) (orderType o) s
     (Some p) (Some h) (Some d).
End Order.

(** ** Sockets, the job queue and the shared state of the process *)

Inductive ReadyState : Set := CONNECTING | OPEN | CLOSING | CLOSED.

#[global] Instance ReadyState_eq_dec : EqDecision ReadyState.
Proof. solve_decision. Defined.

(** The object literal spread into a status message ([additionalData]). *)
Module Extra.
Record t : Type := mk {
  txHash : option string;
  dex : option string;
  executedPrice : option float;
  error : option string;
  message : option string;
}.
Definition none : t := mk None None None None None.
End Extra.

(** What is written on a socket: a status update ([OrderUpdateMessage],
    without its timestamp) or an error payload. *)
Inductive Frame : Type :=
| StatusFrame (orderId : string) (status : OrderStatus) (extra : Extra.t)
| ErrorFrame (error : string) (message : option string).

Module Socket.
(** A [ws] socket as the code sees it: its [readyState] and, for the
    subscriber's side, the frames written so far. *)
Record t : Type := mk {
  readyState : ReadyState;
  sent : list Frame;
}.
Definition closed : t := mk CLOSED [].
End Socket.

(** How a write issued on an open socket ends: the frame goes out, or the
    completion callback receives an error. *)
Inductive SendOutcome : Set := Delivered | WriteFailed.

Inductive JobState : Set := waiting | active | delayed | completed | failed.

#[global] Instance JobState_eq_dec : EqDecision JobState.
Proof. solve_decision. Defined.

Inductive BackoffType : Set := fixed | exponential.

Module JobsOptions.
Record t : Type := mk {
  attempts : nat;
  backoff_type : BackoffType;
  backoff_delay : Z;
  removeOnComplete_count : nat;
  removeOnFail_count : nat;
}.
End JobsOptions.

(** [CreateOrderDTO & { id }], the job payload. *)
Module OrderJobData.
Record t : Type := mk {
  id : string;
  tokenIn : string;
  tokenOut : string;
  amount : float;
  orderType : string;
}.
End OrderJobData.

Module Job.
Record t : Type := mk {
  id : string;
  name : string;
  data : OrderJobData.t;
  opts : JobsOptions.t;
  state : JobState;
  attemptsMade : nat;
}.
End Job.

Module World.
(** [db]: the order table behind Prisma; [queue]: the jobs of the 'orders'
    queue; [connections]: the [Map] of [WebSocketManager]; [sockets]: the
    socket objects, by handle. *)
Record t : Type := mk {
  db : gmap string Order.t;
  queue : list Job.t;
  connections : gmap string nat;
  sockets : gmap nat Socket.t;
}.

Definition empty : t := mk ∅ [] ∅ ∅.

Definition set_db (d : gmap string Order.t) (w : t) : t :=
  mk d (queue w) (connections w) (sockets w).
Definition set_queue (q : list Job.t) (w : t) : t :=
  mk (db w) q (connections w) (sockets w).
Definition set_connections (c : gmap string nat) (w : t) : t :=
  mk (db w) (queue w) c (sockets w).
Definition set_sockets (s : gmap nat Socket.t) (w : t) : t :=
  mk (db w) (queue w) (connections w) s.

(** The socket object behind a handle. *)
Definition socketAt (w : t) (h : nat) : Socket.t :=
  default Socket.closed (sockets w !! h).
End World.

(** ** Computations: shared state and exceptions *)

Inductive Outcome (A : Type) : Type :=
| Return (a : A)
| Throw (e : Js.Thrown).
Arguments Return {A} a.
Arguments Throw {A} e.

Definition M (A : Type) : Type := World.t -> Outcome A * World.t.

Definition ret {A} (a : A) : M A := fun w => (Return a, w).
Definition throw {A} (e : Js.Thrown) : M A := fun w => (Throw e, w).
Definition bind {A B} (m : M A) (k : A -> M B) : M B :=
  fun w => match m w with
           | (Return a, w') => k a w'
           | (Throw e, w') => (Throw e, w')
           end.
(** [try { m } catch (e) { handler e }]: the handler starts from the state
    the body left behind. *)
Definition try_catch {A} (m : M A) (handler : Js.Thrown -> M A) : M A :=
  fun w => match m w with
           | (Return a, w') => (Return a, w')
           | (Throw e, w') => handler e w'
           end.
Definition modify (f : World.t -> World.t) : M unit := fun w => (Return tt, f w).
Definition gets {A} (f : World.t -> A) : M A := fun w => (Return (f w), w).

Declare Scope js_scope.
Delimit Scope js_scope with js.
Notation "x <- m ;; k" := (bind m (fun x => k))
  (at level 100, m at next level, right associativity) : js_scope.
Notation "m ;;; k" := (bind m (fun _ => k))
  (at level 100, right associativity) : js_scope.
Open Scope js_scope.

Definition outcome {A} (r : Outcome A * World.t) : Outcome A := fst r.
Definition after {A} (r : Outcome A * World.t) : World.t := snd r.

(** ** The [ws] socket operations the code calls *)

Module Ws.

(** [socket.close()] starts the closing handshake, unless the socket is
    already closed. *)
Definition close (h : nat) : M unit :=
  modify (fun w =>
    let s := World.socketAt w h in
    match Socket.readyState s with
    | CLOSED => w
    | CONNECTING | OPEN | CLOSING =>
        World.set_sockets
          (<[h := Socket.mk CLOSING (Socket.sent s)]> (World.sockets w)) w
    end).

(** [socket.send(data, cb)]: the result is the error handed to [cb], if any.
    The library runs [cb] on a later tick, once the write has completed; the
    computation below takes it to have run when the call returns, so what
    follows a call is the state once its write has completed.  A socket that
    is still connecting throws; one that is closing or closed reports the
    error through the callback. *)
Definition send (o : SendOutcome) (h : nat) (f : Frame) : M (option Js.Thrown) :=
  fun w =>
    let s := World.socketAt w h in
    match Socket.readyState s with
    | CONNECTING =>
        (Throw (Js.ErrorObj "WebSocket is not open: readyState 0 (CONNECTING)"), w)
    | OPEN =>
        match o with
        | Delivered =>
            (Return None,
             World.set_sockets
               (<[h := Socket.mk OPEN (Socket.sent s ++ [f])]> (World.sockets w)) w)
        | WriteFailed => (Return (Some (Js.ErrorObj "write failed")), w)
        end
    | CLOSING | CLOSED =>
        (Return (Some (Js.ErrorObj "WebSocket is not open")), w)
    end.

End Ws.

(** ** [WebSocketManager] *)

Module WebSocketManager.

(** [closeConnection]. *)
Definition closeConnection (orderId : string) : M unit :=
  try_catch
    (socket <- gets (fun w => World.connections w !! orderId) ;;
     match socket with
     | Some h =>
         st <- gets (fun w => Socket.readyState (World.socketAt w h)) ;;
         (if decide (st = OPEN) then Ws.close h else ret tt) ;;;
         modify (fun w =>
           World.set_connections (delete orderId (World.connections w)) w)
     | None => ret tt
     end)
    (fun _ => ret tt).

(** [registerConnection]; the two handlers it installs on the socket are
    [onSocketClose] and [onSocketError] below. *)
Definition registerConnection (orderId : string) (socket : nat) : M unit :=
  try_catch
    (has <- gets (fun w => bool_decide (is_Some (World.connections w !! orderId))) ;;
     (if has : bool then closeConnection orderId else ret tt) ;;;
     modify (fun w =>
       World.set_connections (<[orderId := socket]> (World.connections w)) w))
    (fun e => throw e).

(** The handler of the socket's 'close' event. *)
Definition onSocketClose (orderId : string) : M unit :=
  modify (fun w => World.set_connections (delete orderId (World.connections w)) w).

(** The handler of the socket's 'error' event. *)
Definition onSocketError (orderId : string) : M unit :=
  modify (fun w => World.set_connections (delete orderId (World.connections w)) w).

(** [sendStatusUpdate]; [o] is the fate of the write, should one be issued. *)
Definition sendStatusUpdate (o : SendOutcome) (orderId : string)
    (status : OrderStatus) (additionalData : Extra.t) : M unit :=
  try_catch
    (socket <- gets (fun w => World.connections w !! orderId) ;;
     match socket with
     | None => ret tt
     | Some h =>
         st <- gets (fun w => Socket.readyState (World.socketAt w h)) ;;
         if decide (st <> OPEN) then
           modify (fun w =>
             World.set_connections (delete orderId (World.connections w)) w)
         else
           error <- Ws.send o h (StatusFrame orderId status additionalData) ;;
           match error with
           | Some _ =>
               modify (fun w =>
                 World.set_connections (delete orderId (World.connections w)) w)
           | None => ret tt
           end
     end)
    (fun _ => ret tt).

(** [getConnectionCount] and [hasConnection]. *)
Definition getConnectionCount (w : World.t) : nat := size (World.connections w).
Definition hasConnection (w : World.t) (orderId : string) : bool :=
  bool_decide (is_Some (World.connections w !! orderId)).

End WebSocketManager.

(** ** [MockDexRouter]: quote sources, route selector and route execution *)

(** What the outside world contributes to one call of [executeBestRoute]:
    the results of [Math.random()], the bytes of [crypto.randomBytes] in
    hexadecimal, and the rejection of a quote promise (the sources of the
    repository never reject; the unit test makes one reject by mocking it). *)
Module RouteEnv.
Record t : Type := mk {
  raydium_fault : option Js.Thrown;
  meteora_fault : option Js.Thrown;
  raydium_price : float;
  raydium_impact : float;
  meteora_price : float;
  meteora_impact : float;
  execution_time : float;
  randomBytes_hex : string;
}.
End RouteEnv.

Module Execution.
Record t : Type := mk {
  txHash : string;
  executedPrice : float;
  dex : string;
}.
End Execution.

Module MockDexRouter.

(** [getRaydiumQuote]: [r_price] and [r_impact] are the two results of
    [Math.random()], in call order. *)
Definition getRaydiumQuote (tokenIn tokenOut : string) (amount : float)
    (r_price r_impact : float) : DexQuote.t :=
  let price := (0.98 + r_price * 0.04)%float in
  let fee := 0.003%float in
  let estimatedOutput := (amount * price * (1 - fee))%float in
  DexQuote.mk "Raydium" price fee estimatedOutput (Some (r_impact * 0.01)%float).

(** [getMeteorQuote]. *)
Definition getMeteorQuote (tokenIn tokenOut : string) (amount : float)
    (r_price r_impact : float) : DexQuote.t :=
  let price := (0.97 + r_price * 0.05)%float in
  let fee := 0.002%float in
  let estimatedOutput := (amount * price * (1 - fee))%float in
  DexQuote.mk "Meteora" price fee estimatedOutput (Some (r_impact * 0.008)%float).

(** [selectBestRoute]: the conditional expression of the source. *)
Definition selectBestRoute (raydiumQuote meteoraQuote : DexQuote.t) : DexQuote.t :=
  if Js.gt (DexQuote.estimatedOutput raydiumQuote)
           (DexQuote.estimatedOutput meteoraQuote)
  then raydiumQuote
  else meteoraQuote.

(** [Promise.all] over the two quote promises: the first rejection wins. *)
Definition bothQuotes (env : RouteEnv.t) (order : Order.t)
  : M (DexQuote.t * DexQuote.t) :=
  match RouteEnv.raydium_fault env, RouteEnv.meteora_fault env with
  | Some e, _ => throw e
  | None, Some e => throw e
  | None, None =>
      ret (getRaydiumQuote (Order.tokenIn order) (Order.tokenOut order)
             (Order.amount order) (RouteEnv.raydium_price env) (RouteEnv.raydium_impact env),
           getMeteorQuote (Order.tokenIn order) (Order.tokenOut order)
             (Order.amount order) (RouteEnv.meteora_price env) (RouteEnv.meteora_impact env))
  end.

(** [executeBestRoute]. *)
Definition executeBestRoute (env : RouteEnv.t) (order : Order.t) : M Execution.t :=
  try_catch
    (quotes <- bothQuotes env order ;;
     let bestQuote := selectBestRoute (fst quotes) (snd quotes) in
     let txHash := RouteEnv.randomBytes_hex env in
     ret (Execution.mk txHash (DexQuote.price bestQuote) (DexQuote.dex bestQuote)))
    (fun error =>
       throw (Js.ErrorObj ("Route execution failed: " ++ Js.to_display error))).

End MockDexRouter.

(** ** The order table behind the Prisma client *)

(** Each call takes the error the client raises when the store cannot be
    reached, if it does.  Besides that, [update] raises when no record has
    the id and [create] when one already has it. *)
Module Prisma.

Definition update (fault : option Js.Thrown) (id : string)
    (data : Order.t -> Order.t) : M Order.t :=
  fun w =>
    match fault with
    | Some e => (Throw e, w)
    | None =>
        match World.db w !! id with
        | None => (Throw (Js.ErrorObj "Record to update not found."), w)
        | Some o => (Return (data o), World.set_db (<[id := data o]> (World.db w)) w)
        end
    end.

Definition findUnique (fault : option Js.Thrown) (id : string) : M (option Order.t) :=
  fun w =>
    match fault with
    | Some e => (Throw e, w)
    | None => (Return (World.db w !! id), w)
    end.

Definition create (fault : option Js.Thrown) (o : Order.t) : M Order.t :=
  fun w =>
    match fault with
    | Some e => (Throw e, w)
    | None =>
        match World.db w !! Order.id o with
        | Some _ => (Throw (Js.ErrorObj "Unique constraint failed on the fields: (`id`)"), w)
        | None => (Return o, World.set_db (<[Order.id o := o]> (World.db w)) w)
        end
    end.

(** The deletion of a record by an administrative operation. *)
Definition deleted (id : string) : M unit :=
  modify (fun w => World.set_db (delete id (World.db w)) w).

End Prisma.

(** ** [OrderProcessor]: the lifecycle driver *)

(** What the outside world contributes to one run of [processOrder]: for
    each store call the error it raises, if any; for each status update the
    fate of the write; whether the record is deleted behind the driver's back
    before the lookup; and the environment of the route execution. *)
Module RunEnv.
Record t : Type := mk {
  routing_write : option Js.Thrown;
  routing_send : SendOutcome;
  vanished : bool;
  lookup : option Js.Thrown;
  building_write : option Js.Thrown;
  building_send : SendOutcome;
  route : RouteEnv.t;
  submitted_write : option Js.Thrown;
  submitted_send : SendOutcome;
  confirmed_write : option Js.Thrown;
  confirmed_send : SendOutcome;
  failed_write : option Js.Thrown;
  failed_send : SendOutcome;
}.
End RunEnv.

(** [WebSocketEmitter.emitOrderUpdate], with the fate of the write. *)
Definition Emitter : Type :=
  SendOutcome -> string -> OrderStatus -> Extra.t -> M unit.

(** The emitter handed to the constructor by the server and by the
    integration test: it forwards to [sendStatusUpdate]. *)
Definition serverEmitter : Emitter := WebSocketManager.sendStatusUpdate.

Module OrderProcessor.

(** [updateOrderStatus]. *)
Definition updateOrderStatus (fault : option Js.Thrown) (orderId : string)
    (status : OrderStatus) : M unit :=
  try_catch
    (_ <- Prisma.update fault orderId (Order.with_status status) ;; ret tt)
    (fun error => throw error).

(** [emitWebSocketUpdate]. *)
Definition emitWebSocketUpdate (wsEmitter : option Emitter) (o : SendOutcome)
    (orderId : string) (status : OrderStatus) (data : Extra.t) : M unit :=
  match wsEmitter with
  | Some emitter => emitter o orderId status data
  | None => ret tt
  end.

Definition execution_data (r : Execution.t) : Extra.t :=
  Extra.mk (Some (Execution.txHash r)) (Some (Execution.dex r))
           (Some (Execution.executedPrice r)) None None.

Definition failure_data (error : Js.Thrown) : Extra.t :=
  Extra.mk None None None (Some (Js.message_or_unknown error)) None.

(** The [try] block of [processOrder]. *)
Definition processOrder_try (wsEmitter : option Emitter) (env : RunEnv.t)
    (orderData : OrderJobData.t) : M unit :=
  let orderId := OrderJobData.id orderData in
  (* Step 1 *)
  updateOrderStatus (RunEnv.routing_write env) orderId ROUTING ;;;
  emitWebSocketUpdate wsEmitter (RunEnv.routing_send env) orderId ROUTING Extra.none ;;;
  (* Step 2; before it, the outside world may have deleted the record *)
  (if RunEnv.vanished env then Prisma.deleted orderId else ret tt) ;;;
  order <- Prisma.findUnique (RunEnv.lookup env) orderId ;;
  match order with
  | None => throw (Js.ErrorObj ("Order " ++ orderId ++ " not found in database"))
  | Some order =>
      (* Step 3 *)
      updateOrderStatus (RunEnv.building_write env) orderId BUILDING ;;;
      emitWebSocketUpdate wsEmitter (RunEnv.building_send env) orderId BUILDING Extra.none ;;;
      (* Step 4 *)
      executionResult <- MockDexRouter.executeBestRoute (RunEnv.route env) order ;;
      (* Step 5 *)
      _ <- Prisma.update (RunEnv.submitted_write env) orderId
             (Order.with_execution SUBMITTED (Execution.txHash executionResult)
                (Execution.executedPrice executionResult) (Execution.dex executionResult)) ;;
      emitWebSocketUpdate wsEmitter (RunEnv.submitted_send env) orderId SUBMITTED
        (execution_data executionResult) ;;;
      (* Step 6 is the two-second sleep; Step 7 *)
      updateOrderStatus (RunEnv.confirmed_write env) orderId CONFIRMED ;;;
      emitWebSocketUpdate wsEmitter (RunEnv.confirmed_send env) orderId CONFIRMED
        (execution_data executionResult)
  end.

(** The [catch] block of [processOrder]. *)
Definition processOrder_catch (wsEmitter : option Emitter) (env : RunEnv.t)
    (orderData : OrderJobData.t) (error : Js.Thrown) : M unit :=
  let orderId := OrderJobData.id orderData in
  updateOrderStatus (RunEnv.failed_write env) orderId FAILED ;;;
  emitWebSocketUpdate wsEmitter (RunEnv.failed_send env) orderId FAILED
    (failure_data error) ;;;
  throw error.

(** [processOrder]. *)
Definition processOrder (wsEmitter : option Emitter) (env : RunEnv.t)
    (orderData : OrderJobData.t) : M unit :=
  try_catch (processOrder_try wsEmitter env orderData)
            (processOrder_catch wsEmitter env orderData).

(** The options handed to the BullMQ [Worker] by the constructor; the
    duration is in milliseconds. *)
Definition concurrency : nat := 10.
Definition limiter_max : nat := 100.
Definition limiter_duration : Z := 60000.

(** Modelled from the spec: what the Worker Pool does with one job (BullMQ's
    [Worker], not in src/).  The driver is invoked once per attempt; a run
    that returns completes the job; a run that throws fails the attempt and
    the job is run again while attempts remain.  [envs] gives the
    environment of each attempt, [made] counts the attempts already made. *)
Fixpoint runAttempts (wsEmitter : option Emitter) (envs : nat -> RunEnv.t)
    (orderData : OrderJobData.t) (made remaining : nat) (w : World.t)
  : JobState * World.t :=
  match remaining with
  | O => (failed, w)
  | S remaining' =>
      match processOrder wsEmitter (envs made) orderData w with
      | (Return _, w') => (completed, w')
      | (Throw _, w') => runAttempts wsEmitter envs orderData (S made) remaining' w'
      end
  end.

Definition runJob (wsEmitter : option Emitter) (envs : nat -> RunEnv.t)
    (job : Job.t) (w : World.t) : JobState * World.t :=
  runAttempts wsEmitter envs (Job.data job) 0
              (JobsOptions.attempts (Job.opts job)) w.

End OrderProcessor.

(** ** The Worker Pool's admission of jobs *)

Module Pool.

(** [now]: the clock, in milliseconds; [waitingJobs], [activeJobs],
    [finishedJobs]: the keys of the jobs in each condition, oldest first;
    [starts]: the instants at which jobs were started, latest first. *)
Record t : Type := mk {
  now : Z;
  waitingJobs : list string;
  activeJobs : list string;
  finishedJobs : list string;
  starts : list Z;
}.

Definition empty : t := mk 0 [] [] [] [].

(** What happens to the pool: a job arrives from the queue, time passes, the
    pool tries to start the oldest waiting job, the run of a job ends. *)
Inductive event : Type :=
| Arrive (jobId : string)
| Elapse (ms : N)
| Fetch
| Settle (jobId : string).

(** The starts of the last [limiter_duration] milliseconds. *)
Definition recent (p : t) : list Z :=
  List.filter (fun s => (now p - OrderProcessor.limiter_duration <? s)%Z) (starts p).

(** Modelled from the spec: the two limits of the Worker Pool, checked
    before a job is started. *)
Definition may_start (p : t) : bool :=
  (length (activeJobs p) <? OrderProcessor.concurrency)%nat
  && (length (recent p) <? OrderProcessor.limiter_max)%nat.

Fixpoint remove_first (j : string) (l : list string) : list string :=
  match l with
  | [] => []
  | x :: l' => if String.eqb x j then l' else x :: remove_first j l'
  end.

(** Modelled from the spec: the admission rule of the Worker Pool (BullMQ's
    [Worker], not in src/), with the options the constructor passes.  A
    waiting job is started only while fewer than [concurrency] jobs are
    active and fewer than [limiter_max] jobs were started in the last
    [limiter_duration] milliseconds; otherwise it stays where it is. *)
Definition step (ev : event) (p : t) : t :=
  match ev with
  | Arrive j =>
      mk (now p) (waitingJobs p ++ [j]) (activeJobs p) (finishedJobs p) (starts p)
  | Elapse ms =>
      mk (now p + Z.of_N ms) (waitingJobs p) (activeJobs p) (finishedJobs p) (starts p)
  | Fetch =>
      match waitingJobs p with
      | [] => p
      | j :: rest =>
          if may_start p
          then mk (now p) rest (activeJobs p ++ [j]) (finishedJobs p) (now p :: starts p)
          else p
      end
  | Settle j =>
      if existsb (String.eqb j) (activeJobs p)
      then mk (now p) (waitingJobs p) (remove_first j (activeJobs p))
              (finishedJobs p ++ [j]) (starts p)
      else p
  end.

Definition run (evs : list event) (p : t) : t :=
  fold_left (fun p ev => step ev p) evs p.

(** The number of jobs started in the window of [limiter_duration]
    milliseconds that ends at [t]. *)
Definition starts_in_window (p : t) (t : Z) : nat :=
  length (List.filter
            (fun s => (t - OrderProcessor.limiter_duration <? s)%Z && (s <=? t)%Z)
            (starts p)).

(** The two limits hold in a state of the pool. *)
Definition within_limits (p : t) : Prop :=
  length (activeJobs p) <= OrderProcessor.concurrency /\
  forall t0 : Z, starts_in_window p t0 <= OrderProcessor.limiter_max.

(** The jobs the pool knows of, whatever their condition. *)
Definition held (p : t) : list string :=
  waitingJobs p ++ activeJobs p ++ finishedJobs p.

(** The jobs that arrived during a history. *)
Definition arrived (evs : list event) : list string :=
  omap (fun ev => match ev with Arrive j => Some j | _ => None end) evs.

End Pool.

(** ** [OrderQueueService] *)

Module OrderQueueService.

(** [defaultJobOptions] of the queue built by the constructor; the delay is
    in milliseconds. *)
Definition defaultJobOptions : JobsOptions.t :=
  JobsOptions.mk 3 exponential 1000 100 50.

(** Modelled from the spec: the queue's [add] (BullMQ's [Queue.add], which is
    not in src/).  The job is keyed by [jobId] and takes the default options
    of the queue; when a job with that key already exists the call creates
    nothing and the queue is unchanged.  [fault] is the error raised when the
    store behind the queue is unreachable. *)
Definition Queue_add (fault : option Js.Thrown) (name : string)
    (data : OrderJobData.t) (jobId : string) : M Job.t :=
  fun w =>
    match fault with
    | Some e => (Throw e, w)
    | None =>
        match find (fun j => String.eqb (Job.id j) jobId) (World.queue w) with
        | Some j => (Return j, w)
        | None =>
            let j := Job.mk jobId name data defaultJobOptions waiting 0 in
            (Return j, World.set_queue (World.queue w ++ [j]) w)
        end
    end.

(** Modelled from the spec: the delay before the retry that follows the
    [attemptsMade]-th failed attempt (BullMQ's backoff, not in src/):
    constant for [fixed], doubling from the base delay for [exponential]. *)
Definition retryDelay (opts : JobsOptions.t) (attemptsMade : nat) : Z :=
  match JobsOptions.backoff_type opts with
  | fixed => JobsOptions.backoff_delay opts
  | exponential => 2 ^ (Z.of_nat (attemptsMade - 1)) * JobsOptions.backoff_delay opts
  end.

(** [addOrder]. *)
Definition addOrder (fault : option Js.Thrown) (orderData : OrderJobData.t) : M string :=
  try_catch
    (job <- Queue_add fault "process-order" orderData (OrderJobData.id orderData) ;;
     ret (Job.id job))
    (fun error =>
       throw (Js.ErrorObj ("Failed to add order to queue: " ++ Js.to_display error))).

End OrderQueueService.

(** ** The execute route of [routes/orders.ts] *)

(** The query of the request: a parameter is absent or a string;
    [amount] is the number [parseFloat(query.amount)]. *)
Module Query.
Record t : Type := mk {
  tokenIn : option string;
  tokenOut : option string;
  amount : float;
  orderType : option string;
}.
End Query.

(** What the outside world contributes to one request: the identifier
    [uuidv4()] returns and the errors of the store and of the queue. *)
Module IntakeEnv.
Record t : Type := mk {
  uuid : string;
  create_fault : option Js.Thrown;
  enqueue_fault : option Js.Thrown;
}.
End IntakeEnv.

Module OrderRoutes.

(** [!tokenIn || !tokenOut || !amount || !orderType]. *)
Definition rejects (query : Query.t) : bool :=
  negb (Js.truthy_param (Query.tokenIn query))
  || negb (Js.truthy_param (Query.tokenOut query))
  || negb (Js.truthy_number (Query.amount query))
  || negb (Js.truthy_param (Query.orderType query)).

(** The value of a parameter once the check has passed. *)
Definition param (p : option string) : string := default "" p.

(** An [async] function called without [await]: its rejection does not
    reach the caller. *)
Definition detached (m : M unit) : M unit := try_catch m (fun _ => ret tt).

Definition missing_parameters : Frame :=
  ErrorFrame "Missing required parameters: tokenIn, tokenOut, amount, orderType" None.

Definition pending_frame (orderId : string) : Frame :=
  StatusFrame orderId PENDING
    (Extra.mk None None None None (Some "Order created and queued for processing")).

(** The handler of [GET /api/orders/execute] for the socket [socket]. *)
Definition execute (env : IntakeEnv.t) (socket : nat) (query : Query.t) : M unit :=
  try_catch
    (let tokenIn := Query.tokenIn query in
     let tokenOut := Query.tokenOut query in
     let amount := Query.amount query in
     let orderType := Query.orderType query in
     if rejects query then
       _ <- Ws.send Delivered socket missing_parameters ;;
       Ws.close socket
     else
       let orderId := IntakeEnv.uuid env in
       WebSocketManager.registerConnection orderId socket ;;;
       _ <- Ws.send Delivered socket (pending_frame orderId) ;;
       detached
         (try_catch
            (_ <- Prisma.create (IntakeEnv.create_fault env)
                    (Order.mk orderId (param tokenIn) (param tokenOut) amount
                              (param orderType) PENDING None None None) ;;
             _ <- OrderQueueService.addOrder (IntakeEnv.enqueue_fault env)
                    (OrderJobData.mk orderId (param tokenIn) (param tokenOut) amount
                                     (param orderType)) ;;
             ret tt)
            (fun error =>
               _ <- Ws.send Delivered socket
                      (ErrorFrame "Failed to create order"
                                  (Some (Js.message_or_unknown error))) ;;
               ret tt)))
    (fun error =>
       _ <- Ws.send Delivered socket
              (ErrorFrame "Failed to process order" (Some (Js.message_or_unknown error))) ;;
       Ws.close socket).

(** The handler of the socket's 'close' event installed by the route. *)
Definition onClientClose (orderId : string) : M unit :=
  WebSocketManager.closeConnection orderId.

End OrderRoutes.

(** ** What a subscriber has received *)

Definition status_of (f : Frame) : option OrderStatus :=
  match f with
  | StatusFrame _ status _ => Some status
  | ErrorFrame _ _ => None
  end.

(** The statuses of the status updates written on a socket, oldest first. *)
Definition published (w : World.t) (socket : nat) : list OrderStatus :=
  omap status_of (Socket.sent (World.socketAt w socket)).

(** The stages of the pipeline in order. *)
Definition pipeline : list OrderStatus :=
  [PENDING; ROUTING; BUILDING; SUBMITTED; CONFIRMED].

Fixpoint is_prefix (l k : list OrderStatus) : bool :=
  match l, k with
  | [], _ => true
  | x :: l', y :: k' => bool_decide (x = y) && is_prefix l' k'
  | _ :: _, [] => false
  end.

(** A prefix of the pipeline, or such a prefix followed by a final FAILED. *)
Definition in_pipeline_order (l : list OrderStatus) : bool :=
  is_prefix l pipeline
  || match reverse l with
     | FAILED :: before => is_prefix (reverse before) pipeline
     | _ => false
     end.

(** ** Histories of the queue *)

Definition terminal (s : JobState) : bool :=
  match s with
  | completed | failed => true
  | waiting | active | delayed => false
  end.

Definition set_state (s : JobState) (j : Job.t) : Job.t :=
  Job.mk (Job.id j) (Job.name j) (Job.data j) (Job.opts j) s (Job.attemptsMade j).

(** What happens to the queue: an order is enqueued through [addOrder]; the
    worker moves the job of a key to another state; retention discards the
    job of a key. *)
Inductive QueueEvent : Type :=
| Enqueue (fault : option Js.Thrown) (orderData : OrderJobData.t)
| Transition (jobId : string) (s : JobState)
| Discard (jobId : string).

Definition apply_event (ev : QueueEvent) (w : World.t) : World.t :=
  match ev with
  | Enqueue fault orderData => after (OrderQueueService.addOrder fault orderData w)
  | Transition jobId s =>
      World.set_queue
        (map (fun j => if String.eqb (Job.id j) jobId then set_state s j else j)
             (World.queue w)) w
  | Discard jobId =>
      World.set_queue
        (List.filter (fun j => negb (String.eqb (Job.id j) jobId)) (World.queue w)) w
  end.

Definition run_queue (evs : list QueueEvent) (w : World.t) : World.t :=
  fold_left (fun w ev => apply_event ev w) evs w.

(** The keys of the jobs of a queue, in queue order. *)
Definition job_ids (q : list Job.t) : list string := map Job.id q.

(** The jobs of a key that are waiting, active or delayed. *)
Definition outstanding (w : World.t) (key : string) : list Job.t :=
  List.filter (fun j => String.eqb (Job.id j) key && negb (terminal (Job.state j)))
              (World.queue w).

(** The retry and retention policy a job carries; delays in milliseconds,
    1000 of them being the unit of the specification. *)
Definition carries_policy (j : Job.t) : Prop :=
  (JobsOptions.attempts (Job.opts j) = 3%nat) /\
  (JobsOptions.backoff_type (Job.opts j) = exponential) /\
  (JobsOptions.backoff_delay (Job.opts j) = (1 * 1000)%Z) /\
  (JobsOptions.removeOnComplete_count (Job.opts j) = 100%nat) /\
  (JobsOptions.removeOnFail_count (Job.opts j) = 50%nat) /\
  (OrderQueueService.retryDelay (Job.opts j) 1 = (1 * 1000)%Z) /\
  (forall n : nat,
      OrderQueueService.retryDelay (Job.opts j) (S (S n))
      = (2 * OrderQueueService.retryDelay (Job.opts j) (S n))%Z).

(** ** Histories of the registry *)

(** The operations that touch the registry: the three entry points of the
    manager and the two socket events it subscribes to. *)
Inductive RegistryOp : Type :=
| Register (orderId : string) (socket : nat)
| Publish (o : SendOutcome) (orderId : string) (status : OrderStatus) (extra : Extra.t)
| Unregister (orderId : string)
| SocketClosed (orderId : string)
| SocketErrored (orderId : string).

Definition apply_op (op : RegistryOp) : M unit :=
  match op with
  | Register orderId socket => WebSocketManager.registerConnection orderId socket
  | Publish o orderId status extra =>
      WebSocketManager.sendStatusUpdate o orderId status extra
  | Unregister orderId => WebSocketManager.closeConnection orderId
  | SocketClosed orderId => WebSocketManager.onSocketClose orderId
  | SocketErrored orderId => WebSocketManager.onSocketError orderId
  end.

Fixpoint run_ops (ops : list RegistryOp) (w : World.t) : World.t :=
  match ops with
  | [] => w
  | op :: rest => run_ops rest (after (apply_op op w))
  end.

(** The registry entries held for one order id. *)
Definition channels_of (w : World.t) (orderId : string) : list (string * nat) :=
  filter (fun kv => kv.1 = orderId) (map_to_list (World.connections w)).

(** ** Traces of one run of the driver *)

(** The stages one run of the driver goes through, in order. *)
Definition run_stages : list OrderStatus := [ROUTING; BUILDING; SUBMITTED; CONFIRMED].

Definition same_trace (l k : list OrderStatus) : bool := bool_decide (l = k).

Definition among (l : list OrderStatus) (T : list (list OrderStatus)) : bool :=
  existsb (same_trace l) T.

Definition all_among (T T' : list (list OrderStatus)) : bool :=
  forallb (fun l => among l T') T.

(** Every trace of [R] followed by every trace of [T]. *)
Definition followed_by (R T : list (list OrderStatus)) : list (list OrderStatus) :=
  flat_map (fun l1 => map (fun l2 => l1 ++ l2)%list T) R.

(** The initial segments of a trace. *)
Fixpoint initial_segments (l : list OrderStatus) : list (list OrderStatus) :=
  match l with
  | [] => [[]]
  | x :: l' => [] :: map (cons x) (initial_segments l')
  end.

(** What one run may publish: an initial segment of the stages, or one
    followed by a final FAILED. *)
Definition in_run_order (d : list OrderStatus) : bool :=
  among d (initial_segments run_stages
           ++ map (fun p => p ++ [FAILED])%list (initial_segments run_stages)).

(** Between [w] and [w'] the statuses [l] were handed to the publisher for
    [orderId], in this order: every socket has received an initial segment
    of [l] on top of what it had, all of [l] if it is still the registered
    socket of the order, nothing if it was not registered for it. *)
Definition advances (orderId : string) (l : list OrderStatus) (w w' : World.t) : Prop :=
  forall h : nat,
    exists d : list OrderStatus,
      d `prefix_of` l /\
      published w' h = (published w h ++ d)%list /\
      (World.connections w' !! orderId = Some h ->
       d = l /\ World.connections w !! orderId = Some h) /\
      (World.connections w !! orderId <> Some h -> d = []).

(** The computation [m] hands to the publisher one of the traces of [T] when
    it throws and one of the traces of [R] when it returns. *)
Definition traced {A} (orderId : string) (m : M A)
    (T R : list (list OrderStatus)) : Prop :=
  forall w : World.t,
    exists l : list OrderStatus,
      advances orderId l w (snd (m w)) /\
      match fst (m w) with
      | Return _ => among l R = true
      | Throw _ => among l T = true
      end.

(** ** [WebSocketManager]: the operations on every connection *)

(** [Map.prototype.forEach] with a callback: the entries are visited one
    after the other.  The callbacks below remove at most the entry being
    visited, so visiting the entries present at the start is the same as
    visiting the live map. *)
Fixpoint forEach {A} (f : A -> M unit) (l : list A) : M unit :=
  match l with
  | [] => ret tt
  | x :: l' => f x ;;; forEach f l'
  end.

Module Broadcast.

(** The callback of [broadcastToAll] for one entry; [o] gives the fate of
    the write issued for each order id. *)
Definition visit (o : string -> SendOutcome) (message : Frame)
    (entry : string * nat) : M unit :=
  let orderId := fst entry in
  let socket := snd entry in
  st <- gets (fun w => Socket.readyState (World.socketAt w socket)) ;;
  if decide (st = OPEN) then
    error <- Ws.send (o orderId) socket message ;;
    match error with
    | Some _ =>
        modify (fun w =>
          World.set_connections (delete orderId (World.connections w)) w)
    | None => ret tt
    end
  else
    modify (fun w =>
      World.set_connections (delete orderId (World.connections w)) w).

(** [broadcastToAll]; the payload is whatever the caller passes, here a
    frame, and its timestamp is left out. *)
Definition broadcastToAll (o : string -> SendOutcome) (message : Frame) : M unit :=
  try_catch
    (entries <- gets (fun w => map_to_list (World.connections w)) ;;
     forEach (visit o message) entries)
    (fun _ => ret tt).

(** The callback of [closeAll] for one entry. *)
Definition shut (entry : string * nat) : M unit :=
  let socket := snd entry in
  st <- gets (fun w => Socket.readyState (World.socketAt w socket)) ;;
  if decide (st = OPEN) then Ws.close socket else ret tt.

(** [closeAll]. *)
Definition closeAll : M unit :=
  try_catch
    (entries <- gets (fun w => map_to_list (World.connections w)) ;;
     forEach shut entries ;;;
     modify (fun w => World.set_connections ∅ w))
    (fun _ => ret tt).

(** An entry whose socket is open and whose write goes out. *)
Definition reached (o : string -> SendOutcome) (w : World.t)
    (entry : string * nat) : bool :=
  bool_decide (Socket.readyState (World.socketAt w (snd entry)) = OPEN)
  && match o (fst entry) with Delivered => true | WriteFailed => false end.

(** The number of entries of the registry through which a broadcast reaches
    the socket [h]. *)
Definition reaching (o : string -> SendOutcome) (w : World.t) (h : nat) : nat :=
  length (List.filter (fun entry => reached o w entry && bool_decide (snd entry = h))
                      (map_to_list (World.connections w))).

End Broadcast.

(** The registry once the entries of [l] that are not [good] are removed. *)
Definition prune (good : string * nat -> bool) (l : list (string * nat))
    (m : gmap string nat) : gmap string nat :=
  fold_left (fun m e => if good e then m else delete (fst e) m) l m.

(** The number of [good] entries of [l] that hold the socket [h]. *)
Definition hits (good : string * nat -> bool) (h : nat) (l : list (string * nat)) : nat :=
  length (List.filter (fun e => good e && bool_decide (snd e = h)) l).

(** ** What one run of the driver may do to the store *)

(** Two versions of a record hold the same request. *)
Definition same_request (o o' : Order.t) : Prop :=
  Order.id o' = Order.id o /\
  Order.tokenIn o' = Order.tokenIn o /\
  Order.tokenOut o' = Order.tokenOut o /\
  Order.amount o' = Order.amount o /\
  Order.orderType o' = Order.orderType o.

(** The execution details of a record are all absent or all present. *)
Definition populated_together (o : Order.t) : Prop :=
  (Order.executedPrice o = None /\ Order.txHash o = None /\ Order.dex o = None) \/
  (is_Some (Order.executedPrice o) /\ is_Some (Order.txHash o) /\ is_Some (Order.dex o)).

(** A later version [o'] of the record [o] of one order: the request is the
    same; the record is untouched or its status is not PENDING; the
    execution details are untouched or all present. *)
Definition later_version (o o' : Order.t) : Prop :=
  same_request o o' /\
  (o' = o \/ Order.status o' <> PENDING) /\
  ((Order.executedPrice o' = Order.executedPrice o /\
    Order.txHash o' = Order.txHash o /\
    Order.dex o' = Order.dex o) \/
   (is_Some (Order.executedPrice o') /\ is_Some (Order.txHash o') /\
    is_Some (Order.dex o'))).

(** From [w] to [w'] nothing but the record of [orderId] has changed in the
    store and in the queue, and that record, if still there, is a later
    version of what it was. *)
Definition touches_only (orderId : string) (w w' : World.t) : Prop :=
  World.queue w' = World.queue w /\
  (forall id' : string, id' <> orderId -> World.db w' !! id' = World.db w !! id') /\
  (forall o' : Order.t,
      World.db w' !! orderId = Some o' ->
      exists o : Order.t, World.db w !! orderId = Some o /\ later_version o o').

(** Every run of [m] is related by [R] to the state it started from. *)
Definition keeps {A} (R : World.t -> World.t -> Prop) (m : M A) : Prop :=
  forall w : World.t, R w (snd (m w)).

(** The two computations give the same outcome and the same store and queue
    when started from states with the same store and queue. *)
Definition same_store (w1 w2 : World.t) : Prop :=
  World.db w1 = World.db w2 /\ World.queue w1 = World.queue w2.

Definition alike {A} (m1 m2 : M A) : Prop :=
  forall w1 w2 : World.t,
    same_store w1 w2 ->
    fst (m1 w1) = fst (m2 w2) /\ same_store (snd (m1 w1)) (snd (m2 w2)).

(** No call of a run meets an error of the store or of a quote source, and
    the record is not deleted during the run. *)
Definition fault_free (env : RunEnv.t) : Prop :=
  RunEnv.routing_write env = None /\
  RunEnv.vanished env = false /\
  RunEnv.lookup env = None /\
  RunEnv.building_write env = None /\
  RouteEnv.raydium_fault (RunEnv.route env) = None /\
  RouteEnv.meteora_fault (RunEnv.route env) = None /\
  RunEnv.submitted_write env = None /\
  RunEnv.confirmed_write env = None.

(** Every status update of a run goes out. *)
Definition all_delivered (env : RunEnv.t) : Prop :=
  RunEnv.routing_send env = Delivered /\
  RunEnv.building_send env = Delivered /\
  RunEnv.submitted_send env = Delivered /\
  RunEnv.confirmed_send env = Delivered.

(** The execution a fault-free run obtains for a record. *)
Definition execution_of (env : RunEnv.t) (o : Order.t) : Execution.t :=
  let best :=
    MockDexRouter.selectBestRoute
      (MockDexRouter.getRaydiumQuote (Order.tokenIn o) (Order.tokenOut o) (Order.amount o)
         (RouteEnv.raydium_price (RunEnv.route env))
         (RouteEnv.raydium_impact (RunEnv.route env)))
      (MockDexRouter.getMeteorQuote (Order.tokenIn o) (Order.tokenOut o) (Order.amount o)
         (RouteEnv.meteora_price (RunEnv.route env))
         (RouteEnv.meteora_impact (RunEnv.route env))) in
  Execution.mk (RouteEnv.randomBytes_hex (RunEnv.route env))
               (DexQuote.price best) (DexQuote.dex best).

(** The record a fault-free run leaves behind. *)
Definition confirmed_record (env : RunEnv.t) (o : Order.t) : Order.t :=
  let x := execution_of env o in
  Order.mk (Order.id o) (Order.tokenIn o) (Order.tokenOut o) (Order.amount o)
           (Order.orderType o) CONFIRMED
           (Some (Execution.executedPrice x)) (Some (Execution.txHash x))
           (Some (Execution.dex x)).

(** The frames a fault-free run writes for a record. *)
Definition run_frames (env : RunEnv.t) (orderId : string) (o : Order.t) : list Frame :=
  let data := OrderProcessor.execution_data (execution_of env o) in
  [StatusFrame orderId ROUTING Extra.none;
   StatusFrame orderId BUILDING Extra.none;
   StatusFrame orderId SUBMITTED data;
   StatusFrame orderId CONFIRMED data].

(** From [w] to [w'] the registry and the sockets are as they were. *)
Definition same_sockets (w w' : World.t) : Prop :=
  World.connections w' = World.connections w /\ World.sockets w' = World.sockets w.

(** ** Reading the queue: [getJob] and [getQueueMetrics] of [OrderQueueService] *)

Module QueueMetrics.
Record t : Type := mk {
  waiting : nat;
  active : nat;
  completed : nat;
  failed : nat;
  delayed : nat;
}.
End QueueMetrics.

Module OrderQueueReads.

(** Modelled from the spec: the queue's [getJob] (BullMQ's [Queue.getJob],
    not in src/): the job with that key, if the queue holds one. *)
Definition Queue_getJob (fault : option Js.Thrown) (jobId : string) : M (option Job.t) :=
  fun w =>
    match fault with
    | Some e => (Throw e, w)
    | None => (Return (find (fun j => String.eqb (Job.id j) jobId) (World.queue w)), w)
    end.

(** [getJob]; [state_fault] is the error of [job.getState()], which the
    method awaits for its log line once the job is found. *)
Definition getJob (fault state_fault : option Js.Thrown) (jobId : string)
  : M (option Job.t) :=
  try_catch
    (job <- Queue_getJob fault jobId ;;
     match job with
     | None => ret None
     | Some job =>
         match state_fault with
         | Some e => throw e
         | None => ret (Some job)
         end
     end)
    (fun error => throw (Js.ErrorObj ("Failed to get job: " ++ Js.to_display error))).

(** Modelled from the spec: the number of jobs of the queue in one state
    (BullMQ's [getWaitingCount] and the like, not in src/). *)
Definition countOf (s : JobState) (q : list Job.t) : nat :=
  length (List.filter (fun j => bool_decide (Job.state j = s)) q).

(** [getQueueMetrics]: [fault] is the first rejection among the five counts
    awaited together. *)
Definition getQueueMetrics (fault : option Js.Thrown) : M QueueMetrics.t :=
  try_catch
    (counts <- (fun w =>
                  match fault with
                  | Some e => (Throw e, w)
                  | None =>
                      let q := World.queue w in
                      (Return (countOf waiting q, countOf active q, countOf completed q,
                               countOf failed q, countOf delayed q), w)
                  end) ;;
     let '(waitingCount, activeCount, completedCount, failedCount, delayedCount) :=
       counts in
     ret (QueueMetrics.mk waitingCount activeCount completedCount failedCount
                          delayedCount))
    (fun error =>
       throw (Js.ErrorObj ("Failed to get queue metrics: " ++ Js.to_display error))).

End OrderQueueReads.

(** ** The query route and the health route of [routes/orders.ts] *)

Module Reply.
Inductive payload : Type :=
| Success (data : Order.t)
| Failure (error message : string)
| Healthy (waiting active completed failed : nat) (activeConnections : nat)
| Unhealthy (error : string).

(** [reply.send] without [reply.code] answers 200. *)
Record t : Type := mk {
  code : nat;
  body : payload;
}.
End Reply.

Module OrderReads.

(** The handler of [GET /api/orders/:orderId]; the schema of the route has
    checked before that [orderId] has the format of a UUID. *)
Definition getOrder (fault : option Js.Thrown) (orderId : string) : M Reply.t :=
  try_catch
    (order <- Prisma.findUnique fault orderId ;;
     match order with
     | None =>
         ret (Reply.mk 404
                (Reply.Failure "Not Found" ("Order with ID " ++ orderId ++ " not found")))
     | Some order => ret (Reply.mk 200 (Reply.Success order))
     end)
    (fun _ =>
       ret (Reply.mk 500
              (Reply.Failure "Internal Server Error" "Failed to fetch order details"))).

(** [prisma.$queryRaw`SELECT 1`]. *)
Definition queryRaw (fault : option Js.Thrown) : M unit :=
  fun w =>
    match fault with
    | Some e => (Throw e, w)
    | None => (Return tt, w)
    end.

(** The handler of [GET /api/health]. *)
Definition health (db_fault queue_fault : option Js.Thrown) : M Reply.t :=
  try_catch
    (queryRaw db_fault ;;;
     queueMetrics <- OrderQueueReads.getQueueMetrics queue_fault ;;
     activeConnections <- gets WebSocketManager.getConnectionCount ;;
     ret (Reply.mk 200
            (Reply.Healthy (QueueMetrics.waiting queueMetrics)
                           (QueueMetrics.active queueMetrics)
                           (QueueMetrics.completed queueMetrics)
                           (QueueMetrics.failed queueMetrics)
                           activeConnections)))
    (fun error => ret (Reply.mk 503 (Reply.Unhealthy (Js.message_or_unknown error)))).

End OrderReads.

(** Every job of the queue has its record in the store. *)
Definition jobs_have_records (w : World.t) : Prop :=
  forall j : Job.t, In j (World.queue w) -> is_Some (World.db w !! Job.id j).

(** From [w] to [w'] no record has left the store, no job has left the
    queue, and every job of the queue was there before or has its record in
    the store. *)
Definition grows_with_records (w w' : World.t) : Prop :=
  (forall id : string, is_Some (World.db w !! id) -> is_Some (World.db w' !! id)) /\
  (forall j : Job.t, In j (World.queue w) -> In j (World.queue w')) /\
  (forall j : Job.t,
      In j (World.queue w') ->
      In j (World.queue w) \/ is_Some (World.db w' !! Job.id j)).

(** ** The tolerance of the quote tests *)

(** Within a tolerance, as the unit tests of the quote sources check it with
    [toBeCloseTo]: the two numbers are the same infinity, or their distance
    is below the tolerance.  A NaN is within no tolerance of anything. *)
Definition within_tolerance (tolerance received expected : float) : bool :=
  (PrimFloat.eqb received infinity && PrimFloat.eqb expected infinity)
  || (PrimFloat.eqb received neg_infinity && PrimFloat.eqb expected neg_infinity)
  || PrimFloat.ltb (abs (expected - received)) tolerance.



(** ** What the execute route did with a request *)

(** A parameter that is absent or the empty string. *)
Definition missing (p : option string) : Prop := p = None \/ p = Some "".

(** A request that lacks [tokenIn], [tokenOut] or [orderType], or whose
    amount parses to NaN or to a zero. *)
Definition invalid (q : Query.t) : Prop :=
  missing (Query.tokenIn q) \/
  missing (Query.tokenOut q) \/
  missing (Query.orderType q) \/
  PrimFloat.is_nan (Query.amount q) = true \/
  PrimFloat.is_zero (Query.amount q) = true.

(** From [w] to [w'] the request on [socket] has been refused: the
    structured error has been written on the socket, which is closing, and
    no record, no job and no registration has been made. *)
Definition refused (socket : nat) (w w' : World.t) : Prop :=
  World.socketAt w' socket
  = Socket.mk CLOSING
      (Socket.sent (World.socketAt w socket) ++ [OrderRoutes.missing_parameters])%list /\
  World.db w' = World.db w /\
  World.queue w' = World.queue w /\
  World.connections w' = World.connections w.

(** From [w] to [w'] the request on [socket] has passed the validation: the
    socket is registered for [orderId], is still open, and the first thing
    written on it is the PENDING update of that order. *)
Definition admitted (orderId : string) (socket : nat) (w w' : World.t) : Prop :=
  World.connections w' !! orderId = Some socket /\
  Socket.readyState (World.socketAt w' socket) = OPEN /\
  exists rest : list Frame,
    Socket.sent (World.socketAt w' socket)
    = (Socket.sent (World.socketAt w socket)
       ++ OrderRoutes.pending_frame orderId :: rest)%list.

(** ** Sample data used by the statements *)

Definition quote_with (name : string) (out : float) : DexQuote.t :=
  DexQuote.mk name 1%float 0%float out None.

(** A world with two open sockets, the first registered for order "o-1". *)
Definition two_sockets : World.t :=
  World.mk ∅ []
    {["o-1" := 1%nat]}
    {[1%nat := Socket.mk OPEN []; 2%nat := Socket.mk OPEN []]}.

(** A world whose registered socket for "o-1" is already closed. *)
Definition stale_socket : World.t :=
  World.mk ∅ []
    {["o-1" := 1%nat]}
    {[1%nat := Socket.mk CLOSED []]}.

(** An order payload and a queue that already holds its job, waiting. *)
Definition sample_order : OrderJobData.t :=
  OrderJobData.mk "o-1" "SOL" "USDC" 100%float "MARKET".

Definition queued_once : World.t :=
  after (OrderQueueService.addOrder None sample_order World.empty).

(** A world with one open socket and nothing else. *)
Definition one_socket : World.t :=
  World.mk ∅ [] ∅ {[1%nat := Socket.mk OPEN []]}.

Definition quiet_intake : IntakeEnv.t := IntakeEnv.mk "o-1" None None.

(** A request whose input token is present but empty. *)
Definition empty_token_query : Query.t :=
  Query.mk (Some "") (Some "USDC") 100%float (Some "MARKET").

(** A request for a strictly negative amount. *)
Definition negative_query : Query.t :=
  Query.mk (Some "SOL") (Some "USDC") (-5)%float (Some "MARKET").

(** A request without an amount: [parseFloat(undefined)] is NaN. *)
Definition no_amount_query : Query.t :=
  Query.mk (Some "SOL") (Some "USDC") PrimFloat.nan (Some "MARKET").

(** A well-formed market order request and the state the intake leaves
    behind for it: the record is PENDING, the job is queued, the socket is
    registered and has received PENDING. *)
Definition market_query : Query.t :=
  Query.mk (Some "SOL") (Some "USDC") 100%float (Some "MARKET").

Definition accepted_order : World.t :=
  after (OrderRoutes.execute quiet_intake 1 market_query one_socket).

Definition calm_route : RouteEnv.t :=
  RouteEnv.mk None None 0.5%float 0.5%float 0.5%float 0.5%float 0.5%float
    "5f2c8a1e9b3d47c6a0e1f2d3c4b5a6978877665544332211ffeeddccbbaa0099".

(** A run during which nothing goes wrong. *)
Definition calm : RunEnv.t :=
  RunEnv.mk None Delivered false None None Delivered calm_route
            None Delivered None Delivered None Delivered.

(** A run during which the store becomes unreachable after step 1 and stays
    so while the failure is handled. *)
Definition store_outage : RunEnv.t :=
  RunEnv.mk None Delivered false None
            (Some (Js.ErrorObj "Can't reach database server")) Delivered calm_route
            None Delivered None Delivered
            (Some (Js.ErrorObj "Timed out fetching a new connection from the pool"))
            Delivered.

(** A run whose order lookup hits a transient store error; the store
    answers again when the failure is handled. *)
Definition transient_lookup_error : RunEnv.t :=
  RunEnv.mk None Delivered false
            (Some (Js.ErrorObj "Can't reach database server"))
            None Delivered calm_route
            None Delivered None Delivered None Delivered.

(** The environments of the attempts of one job: the first attempt hits the
    transient error, the later ones run undisturbed. *)
Definition first_attempt_fails (attempt : nat) : RunEnv.t :=
  match attempt with
  | O => transient_lookup_error
  | S _ => calm
  end.

(** The job the intake has queued for [market_query]. *)
Definition accepted_job : Job.t :=
  Job.mk "o-1" "process-order" sample_order
         OrderQueueService.defaultJobOptions waiting 0.


(** The record of the accepted market order, as the store holds it. *)
Definition pending_record : Order.t :=
  Order.mk "o-1" "SOL" "USDC" 100%float "MARKET" PENDING None None None.

(** The state after the intake of the market order, with the record of
    another order, already confirmed, in the store. *)
Definition other_record : Order.t :=
  Order.mk "o-0" "USDC" "SOL" 7%float "MARKET" CONFIRMED
           (Some 1%float) (Some "ab") (Some "Raydium").

Definition two_orders : World.t :=
  World.set_db (<["o-0" := other_record]> (World.db accepted_order)) accepted_order.

(** Requests during which the store, respectively the queue, cannot be
    reached. *)
Definition store_down_intake : IntakeEnv.t :=
  IntakeEnv.mk "o-1" (Some (Js.ErrorObj "Can't reach database server")) None.

Definition queue_down_intake : IntakeEnv.t :=
  IntakeEnv.mk "o-1" None
    (Some (Js.NamedError "ReplyError" "READONLY You can't write against a read only replica.")).

(** The intake state of the market order once its record has been deleted. *)
Definition record_gone : World.t :=
  World.set_db ∅ accepted_order.



(** * Properties *)

(** ** Route selection and quotes *)

(** C3. [selectBestRoute a b] is [a] when the estimated output of [a] is
    strictly greater than that of [b] (the comparison of the two doubles),
    and is [b], the second operand, in every other case, a tie included; on
    the outputs (99.7, 100.098) the second quote is returned, on
    (101.694, 99.8) the first, and on equal outputs the second. *)
Theorem selectBestRoute_strictly_greater_else_second :
  (forall a b : DexQuote.t,
      (PrimFloat.ltb (DexQuote.estimatedOutput b) (DexQuote.estimatedOutput a) = true ->
       MockDexRouter.selectBestRoute a b = a) /\
      (PrimFloat.ltb (DexQuote.estimatedOutput b) (DexQuote.estimatedOutput a) = false ->
       MockDexRouter.selectBestRoute a b = b)) /\
  MockDexRouter.selectBestRoute (quote_with "Raydium" 99.7) (quote_with "Meteora" 100.098)
    = quote_with "Meteora" 100.098 /\
  MockDexRouter.selectBestRoute (quote_with "Raydium" 101.694) (quote_with "Meteora" 99.8)
    = quote_with "Raydium" 101.694 /\
  MockDexRouter.selectBestRoute (quote_with "Raydium" 100) (quote_with "Meteora" 100)
    = quote_with "Meteora" 100.
Proof.
  split.
  - intros a b. unfold MockDexRouter.selectBestRoute, Js.gt.
    split; intros ->; reflexivity.
  - repeat split; vm_compute; reflexivity.
Qed.

Lemma selectBestRoute_strictly_greater_else_second_witness :
  MockDexRouter.selectBestRoute (quote_with "Raydium" 101.694) (quote_with "Meteora" 99.8)
    = quote_with "Raydium" 101.694 /\
  MockDexRouter.selectBestRoute (quote_with "Raydium" 7) (quote_with "Meteora" 7)
    = quote_with "Meteora" 7.
Proof.
  split.
  - apply (proj1 (proj1 selectBestRoute_strictly_greater_else_second
                    (quote_with "Raydium" 101.694) (quote_with "Meteora" 99.8))).
    vm_compute. reflexivity.
  - apply (proj2 (proj1 selectBestRoute_strictly_greater_else_second
                    (quote_with "Raydium" 7) (quote_with "Meteora" 7))).
    vm_compute. reflexivity.
Defined.

(** *** Doubles that are not NaN *)

















Lemma within_tolerance_nan (tolerance z : float) :
  Prim2SF z = S754_nan -> within_tolerance tolerance z z = false.
Proof.
  intros Hz. unfold within_tolerance.
  rewrite FloatAxioms.ltb_spec, FloatAxioms.abs_spec, FloatAxioms.sub_spec,
    !FloatAxioms.eqb_spec, Hz. reflexivity.
Qed.







(** ** Status publisher *)

Lemma filter_key_absent (l : list (string * nat)) (k : string) :
  k ∉ l.*1 -> filter (fun kv : string * nat => kv.1 = k) l = [].
Proof.
  induction l as [|[k' v] l IH]; intros Hnotin; [reflexivity|].
  rewrite fmap_cons in Hnotin. apply not_elem_of_cons in Hnotin as [Hne Hnotin].
  rewrite filter_cons. destruct (decide ((k', v).1 = k)) as [Heq|_].
  - simpl in Heq. subst k'. by destruct Hne.
  - by apply IH.
Qed.

Lemma filter_key_nodup (l : list (string * nat)) (k : string) :
  NoDup (l.*1) -> length (filter (fun kv : string * nat => kv.1 = k) l) <= 1.
Proof.
  induction l as [|[k' v] l IH]; intros Hnd; simpl; [lia|].
  rewrite fmap_cons in Hnd. apply NoDup_cons in Hnd as [Hnotin Hnd].
  rewrite filter_cons. destruct (decide ((k', v).1 = k)) as [Heq|Hne].
  - simpl in Heq. subst k'. rewrite filter_key_absent by done. simpl. lia.
  - by apply IH.
Qed.

Lemma at_most_one_per_key (m : gmap string nat) (k : string) :
  length (filter (fun kv : string * nat => kv.1 = k) (map_to_list m)) <= 1.
Proof. apply filter_key_nodup, NoDup_fst_map_to_list. Qed.

Lemma sendStatusUpdate_returns o orderId status extra w :
  outcome (WebSocketManager.sendStatusUpdate o orderId status extra w) = Return tt.
Proof.
  unfold outcome, WebSocketManager.sendStatusUpdate, try_catch, bind, gets, modify, ret.
  simpl. destruct (World.connections w !! orderId) as [h|]; [|reflexivity].
  destruct (decide (Socket.readyState (World.socketAt w h) <> OPEN)) as [Hn|Hy];
    [reflexivity|].
  unfold Ws.send.
  destruct (Socket.readyState (World.socketAt w h)); try reflexivity.
  destruct o; reflexivity.
Qed.

(** C7. [sendStatusUpdate] never raises.  For an order id with no registered
    socket it leaves the whole state as it was: the registry and every
    socket.  When the registered socket is not open it removes the entry of
    that order id from the registry and writes on no socket. *)
Theorem sendStatusUpdate_without_writable_channel :
  forall (o : SendOutcome) (orderId : string) (status : OrderStatus)
         (extra : Extra.t) (w : World.t),
    let r := WebSocketManager.sendStatusUpdate o orderId status extra w in
    outcome r = Return tt /\
    (World.connections w !! orderId = None -> after r = w) /\
    (forall h : nat,
        World.connections w !! orderId = Some h ->
        Socket.readyState (World.socketAt w h) <> OPEN ->
        World.connections (after r) = delete orderId (World.connections w) /\
        World.connections (after r) !! orderId = None /\
        World.sockets (after r) = World.sockets w /\
        World.db (after r) = World.db w /\
        World.queue (after r) = World.queue w).
Proof.
  intros o orderId status extra w r. split; [apply sendStatusUpdate_returns|].
  subst r.
  unfold after, WebSocketManager.sendStatusUpdate, try_catch, bind, gets, modify, ret.
  simpl. split.
  - intros ->. by destruct w.
  - intros h -> Hst.
    destruct (decide (Socket.readyState (World.socketAt w h) <> OPEN)) as [_|Hy];
      [|contradiction].
    simpl. repeat split. apply lookup_delete_eq.
Qed.

Lemma sendStatusUpdate_without_writable_channel_witness :
  after (WebSocketManager.sendStatusUpdate Delivered "o-2" ROUTING Extra.none two_sockets)
    = two_sockets /\
  World.connections
    (after (WebSocketManager.sendStatusUpdate Delivered "o-1" ROUTING Extra.none stale_socket))
    !! "o-1" = None.
Proof.
  split.
  - apply (proj1 (proj2 (sendStatusUpdate_without_writable_channel
                           Delivered "o-2" ROUTING Extra.none two_sockets))).
    reflexivity.
  - apply (proj2 (proj2 (sendStatusUpdate_without_writable_channel
                           Delivered "o-1" ROUTING Extra.none stale_socket)) 1%nat).
    + reflexivity.
    + vm_compute. discriminate.
Defined.

Lemma socketAt_insert_eq w h s :
  World.socketAt (World.set_sockets (<[h := s]> (World.sockets w)) w) h = s.
Proof. unfold World.socketAt. simpl. by rewrite lookup_insert_eq. Qed.

(** C8. When a socket is already registered for an order id, registering a
    second one returns normally, leaves the first socket not open (an open
    one has been closed: it is CLOSING) and makes the registry map the order
    id to the second socket, the other entries being untouched.  After any
    history of register, publish and unregister operations and of socket
    close and error events, the registry holds at most one socket per order
    id. *)
Theorem registerConnection_closes_and_replaces :
  (forall (orderId : string) (h1 h2 : nat) (w : World.t),
      World.connections w !! orderId = Some h1 ->
      let r := WebSocketManager.registerConnection orderId h2 w in
      outcome r = Return tt /\
      World.connections (after r) = <[orderId := h2]> (World.connections w) /\
      World.connections (after r) !! orderId = Some h2 /\
      Socket.readyState (World.socketAt (after r) h1) <> OPEN /\
      (Socket.readyState (World.socketAt w h1) = OPEN ->
       Socket.readyState (World.socketAt (after r) h1) = CLOSING)) /\
  (forall (ops : list RegistryOp) (w : World.t) (orderId : string),
      length (channels_of (run_ops ops w) orderId) <= 1).
Proof.
  split.
  - intros orderId h1 h2 w Hreg r. subst r.
    unfold outcome, after, WebSocketManager.registerConnection,
      WebSocketManager.closeConnection, Ws.close, try_catch, bind, gets, modify, ret.
    simpl. rewrite Hreg.
    rewrite bool_decide_eq_true_2 by (by eexists).
    rewrite Hreg.
    destruct (decide (Socket.readyState (World.socketAt w h1) = OPEN)) as [Hopen|Hnot];
      [rewrite Hopen|]; simpl; rewrite insert_delete_eq, lookup_insert_eq.
    + repeat split.
      * unfold World.socketAt. simpl. rewrite lookup_insert_eq. simpl. discriminate.
      * intros _. unfold World.socketAt. simpl. by rewrite lookup_insert_eq.
    + repeat split; [|intros Hopen; contradiction].
      unfold World.socketAt in *. simpl. exact Hnot.
  - intros ops w orderId. unfold channels_of. apply at_most_one_per_key.
Qed.

Lemma registerConnection_closes_and_replaces_witness :
  World.connections (after (WebSocketManager.registerConnection "o-1" 2%nat two_sockets))
    !! "o-1" = Some 2%nat /\
  Socket.readyState
    (World.socketAt (after (WebSocketManager.registerConnection "o-1" 2%nat two_sockets))
                    1%nat) = CLOSING.
Proof.
  pose proof (proj1 registerConnection_closes_and_replaces
                "o-1" 1%nat 2%nat two_sockets eq_refl) as (_ & _ & Hreg & _ & Hclosing).
  split; [exact Hreg|]. apply Hclosing. reflexivity.
Defined.

(** ** Job queue *)

Lemma find_key_present (q : list Job.t) (key : string) (j : Job.t) :
  In j q -> Job.id j = key ->
  exists j', find (fun j => String.eqb (Job.id j) key) q = Some j'.
Proof.
  intros Hin Hid.
  destruct (find (fun j => String.eqb (Job.id j) key) q) as [j'|] eqn:Hfind;
    [by eexists|].
  pose proof (find_none _ _ Hfind j Hin) as Hno. simpl in Hno.
  rewrite Hid, String.eqb_refl in Hno. discriminate.
Qed.

Lemma find_key_absent (q : list Job.t) (key : string) :
  find (fun j => String.eqb (Job.id j) key) q = None -> key ∉ job_ids q.
Proof.
  intros Hfind Hin. apply list_elem_of_In, in_map_iff in Hin as (j & Hid & Hin).
  pose proof (find_none _ _ Hfind j Hin) as Hno. simpl in Hno.
  rewrite Hid, String.eqb_refl in Hno. discriminate.
Qed.

Lemma apply_event_keeps_keys_distinct (ev : QueueEvent) (w : World.t) :
  NoDup (job_ids (World.queue w)) ->
  NoDup (job_ids (World.queue (apply_event ev w))).
Proof.
  intros Hnd. destruct ev as [fault orderData | jobId s | jobId]; simpl.
  - unfold after, OrderQueueService.addOrder, OrderQueueService.Queue_add,
      try_catch, bind, ret, throw.
    destruct fault as [e|]; simpl; [exact Hnd|].
    destruct (find _ (World.queue w)) as [j|] eqn:Hfind; simpl; [exact Hnd|].
    unfold job_ids. rewrite map_app. simpl.
    apply NoDup_app. split; [exact Hnd|]. split; [|apply NoDup_singleton].
    intros x Hx Hx'. apply list_elem_of_singleton in Hx'. subst x.
    by apply (find_key_absent _ _ Hfind).
  - unfold job_ids. rewrite map_map.
    erewrite map_ext; [exact Hnd|].
    intros j. simpl. by destruct (String.eqb (Job.id j) jobId).
  - unfold job_ids in *. induction (World.queue w) as [|j q IH]; simpl; [constructor|].
    simpl in Hnd. apply NoDup_cons in Hnd as [Hnotin Hnd].
    destruct (negb (String.eqb (Job.id j) jobId)); simpl; [|by apply IH].
    apply NoDup_cons. split; [|by apply IH].
    intros Hin. apply Hnotin.
    apply list_elem_of_In, in_map_iff in Hin as (j' & Hid & Hin).
    apply filter_In in Hin as [Hin _].
    apply list_elem_of_In, in_map_iff. by exists j'.
Qed.

Lemma run_queue_keeps_keys_distinct (evs : list QueueEvent) (w : World.t) :
  NoDup (job_ids (World.queue w)) ->
  NoDup (job_ids (World.queue (run_queue evs w))).
Proof.
  revert w. induction evs as [|ev evs IH]; intros w Hnd; simpl; [exact Hnd|].
  apply IH. by apply apply_event_keeps_keys_distinct.
Qed.

Lemma distinct_keys_one_job (q : list Job.t) (key : string) (p : Job.t -> bool) :
  NoDup (job_ids q) ->
  length (List.filter (fun j => String.eqb (Job.id j) key && p j) q) <= 1.
Proof.
  induction q as [|j q IH]; intros Hnd; simpl; [lia|].
  simpl in Hnd. apply NoDup_cons in Hnd as [Hnotin Hnd].
  destruct (String.eqb (Job.id j) key) eqn:Hkey; simpl; [|by apply IH].
  apply String.eqb_eq in Hkey.
  assert (List.filter (fun j => String.eqb (Job.id j) key && p j) q = []) as Hrest.
  { destruct (List.filter _ q) as [|j' rest] eqn:Hf; [reflexivity|].
    assert (In j' (List.filter (fun j => String.eqb (Job.id j) key && p j) q)) as Hin
      by (rewrite Hf; left; reflexivity).
    apply filter_In in Hin as [Hin Hj'].
    apply andb_true_iff in Hj' as [Hj' _]. apply String.eqb_eq in Hj'.
    destruct Hnotin. apply list_elem_of_In, in_map_iff. exists j'. by rewrite Hj', Hkey. }
  destruct (p j); simpl; rewrite Hrest; simpl; lia.
Qed.

(** C5. [addOrder] returns the order id as the key of the job, and a job
    with that key is in the queue afterwards; when a job with the order id
    already exists in a non-terminal state the queue is left exactly as it
    was, so nothing is duplicated; and after any history of enqueues, state
    changes and discards, at most one waiting, active or delayed job exists
    for any order id. *)
Theorem addOrder_keyed_by_order_id_without_duplicates :
  (forall (orderData : OrderJobData.t) (w : World.t),
      let r := OrderQueueService.addOrder None orderData w in
      outcome r = Return (OrderJobData.id orderData) /\
      exists j : Job.t,
        In j (World.queue (after r)) /\ Job.id j = OrderJobData.id orderData) /\
  (forall (orderData : OrderJobData.t) (w : World.t) (j : Job.t),
      In j (World.queue w) ->
      Job.id j = OrderJobData.id orderData ->
      terminal (Job.state j) = false ->
      after (OrderQueueService.addOrder None orderData w) = w) /\
  (forall (evs : list QueueEvent) (key : string),
      length (outstanding (run_queue evs World.empty) key) <= 1).
Proof.
  split; [|split].
  - intros orderData w r. subst r.
    unfold outcome, after, OrderQueueService.addOrder, OrderQueueService.Queue_add,
      try_catch, bind, ret, throw. simpl.
    destruct (find _ (World.queue w)) as [j|] eqn:Hfind; simpl.
    + apply find_some in Hfind as [Hin Hid]. apply String.eqb_eq in Hid.
      split; [by rewrite Hid|]. by exists j.
    + split; [reflexivity|]. eexists. split; [apply in_or_app; right; left; reflexivity|].
      reflexivity.
  - intros orderData w j Hin Hid _.
    destruct (find_key_present _ _ _ Hin Hid) as [j' Hfind].
    unfold after, OrderQueueService.addOrder, OrderQueueService.Queue_add,
      try_catch, bind, ret, throw. simpl. by rewrite Hfind.
  - intros evs key. unfold outstanding.
    apply distinct_keys_one_job, run_queue_keeps_keys_distinct.
    simpl. constructor.
Qed.

Lemma addOrder_keyed_by_order_id_without_duplicates_witness :
  after (OrderQueueService.addOrder None sample_order queued_once) = queued_once.
Proof.
  apply (proj1 (proj2 addOrder_keyed_by_order_id_without_duplicates)
           sample_order queued_once
           (Job.mk "o-1" "process-order" sample_order
                   OrderQueueService.defaultJobOptions waiting 0)).
  - left. reflexivity.
  - reflexivity.
  - reflexivity.
Defined.

Lemma apply_event_keeps_policy (ev : QueueEvent) (w : World.t) :
  Forall carries_policy (World.queue w) ->
  Forall carries_policy (World.queue (apply_event ev w)).
Proof.
  intros Hall. destruct ev as [fault orderData | jobId s | jobId]; simpl.
  - unfold after, OrderQueueService.addOrder, OrderQueueService.Queue_add,
      try_catch, bind, ret, throw.
    destruct fault as [e|]; simpl; [exact Hall|].
    destruct (find _ (World.queue w)) as [j|]; simpl; [exact Hall|].
    apply Forall_app. split; [exact Hall|]. apply Forall_singleton.
    unfold carries_policy, OrderQueueService.retryDelay. simpl.
    repeat split. intros n.
    rewrite Nat.sub_0_r, Nat2Z.inj_succ, Z.pow_succ_r by lia. lia.
  - apply Forall_forall. intros j' Hin. apply list_elem_of_In, in_map_iff in Hin as (j & <- & Hin).
    rewrite Forall_forall in Hall. apply list_elem_of_In in Hin. specialize (Hall j Hin).
    by destruct (String.eqb (Job.id j) jobId).
  - apply Forall_forall. intros j Hin. apply list_elem_of_In, filter_In in Hin as [Hin _].
    rewrite Forall_forall in Hall. by apply Hall, list_elem_of_In.
Qed.

(** C6. Every job in the queue, after any history of enqueues, state changes
    and discards, carries the policy of the queue: 3 attempts, exponential
    backoff from a base delay of 1000 ms (1 unit) that doubles from one
    retry to the next, the last 100 completed jobs kept and the last 50
    failed jobs kept. *)
Theorem every_job_carries_the_queue_policy :
  forall evs : list QueueEvent,
    Forall carries_policy (World.queue (run_queue evs World.empty)).
Proof.
  intros evs.
  assert (forall w, Forall carries_policy (World.queue w) ->
                    Forall carries_policy (World.queue (run_queue evs w))) as Hgen.
  { induction evs as [|ev evs IH]; intros w Hall; simpl; [exact Hall|].
    apply IH. by apply apply_event_keeps_policy. }
  apply Hgen. simpl. constructor.
Qed.

(** ** Intake validation *)

Lemma truthy_param_false (p : option string) :
  Js.truthy_param p = false <-> p = None \/ p = Some "".
Proof.
  destruct p as [[|c s]|]; simpl; split; intros H; try discriminate; auto.
  destruct H as [H|H]; discriminate.
Qed.

Lemma truthy_param_true (p : option string) (s : string) :
  p = Some s -> s <> "" -> Js.truthy_param p = true.
Proof. intros -> Hne. destruct s; [contradiction|reflexivity]. Qed.

Lemma negative_number_is_truthy (x : float) :
  PrimFloat.ltb x 0 = true -> Js.truthy_number x = true.
Proof.
  intros H. unfold Js.truthy_number, is_nan, is_zero.
  rewrite FloatAxioms.ltb_spec in H. rewrite !FloatAxioms.eqb_spec.
  replace (Prim2SF 0) with (S754_zero false) in H by reflexivity.
  replace (Prim2SF zero) with (S754_zero false) by reflexivity.
  destruct (Prim2SF x) as [s | s | | s m e]; try destruct s;
    try (vm_compute in H |- *; try discriminate; reflexivity).
  unfold SFeqb, SFcompare. rewrite Z.compare_refl, Pos.compare_cont_refl. reflexivity.
Qed.

Lemma rejects_iff (q : Query.t) :
  OrderRoutes.rejects q = true <->
  (Query.tokenIn q = None \/ Query.tokenIn q = Some "") \/
  (Query.tokenOut q = None \/ Query.tokenOut q = Some "") \/
  (Query.orderType q = None \/ Query.orderType q = Some "") \/
  (PrimFloat.is_nan (Query.amount q) = true \/ PrimFloat.is_zero (Query.amount q) = true).
Proof.
  unfold OrderRoutes.rejects, Js.truthy_number.
  rewrite !orb_true_iff, !negb_true_iff, negb_false_iff, orb_true_iff.
  rewrite !truthy_param_false. tauto.
Qed.

Lemma execute_rejected (env : IntakeEnv.t) (h : nat) (q : Query.t) (w : World.t) :
  OrderRoutes.rejects q = true ->
  let r := OrderRoutes.execute env h q w in
  World.db (after r) = World.db w /\
  World.queue (after r) = World.queue w /\
  World.connections (after r) = World.connections w /\
  (Socket.readyState (World.socketAt w h) = OPEN ->
   outcome r = Return tt /\
   World.socketAt (after r) h
   = Socket.mk CLOSING (Socket.sent (World.socketAt w h) ++ [OrderRoutes.missing_parameters])).
Proof.
  intros Hrej r. subst r.
  unfold outcome, after, OrderRoutes.execute, try_catch, bind. rewrite Hrej.
  unfold Ws.send, Ws.close, modify.
  destruct (Socket.readyState (World.socketAt w h)) eqn:Hst; simpl;
    rewrite ?Hst, ?socketAt_insert_eq; simpl; rewrite ?socketAt_insert_eq;
    (split; [|split; [|split]]); try reflexivity; intros Hopen; try discriminate Hopen.
  split; [reflexivity|]. apply socketAt_insert_eq.
Qed.

Lemma find_key_fresh (q : list Job.t) (key : string) :
  ~ In key (job_ids q) -> find (fun j => String.eqb (Job.id j) key) q = None.
Proof.
  intros Hfresh.
  destruct (find (fun j => String.eqb (Job.id j) key) q) as [j|] eqn:Hfind; [|reflexivity].
  apply find_some in Hfind as [Hin Hid]. apply String.eqb_eq in Hid.
  destruct Hfresh. apply in_map_iff. by exists j.
Qed.

Lemma execute_accepted (env : IntakeEnv.t) (h : nat) (q : Query.t) (w : World.t) :
  OrderRoutes.rejects q = false ->
  Socket.readyState (World.socketAt w h) = OPEN ->
  IntakeEnv.create_fault env = None ->
  IntakeEnv.enqueue_fault env = None ->
  World.db w !! IntakeEnv.uuid env = None ->
  World.connections w !! IntakeEnv.uuid env = None ->
  ~ In (IntakeEnv.uuid env) (job_ids (World.queue w)) ->
  let r := OrderRoutes.execute env h q w in
  let orderId := IntakeEnv.uuid env in
  outcome r = Return tt /\
  World.db (after r)
  = <[orderId := Order.mk orderId (OrderRoutes.param (Query.tokenIn q))
                   (OrderRoutes.param (Query.tokenOut q)) (Query.amount q)
                   (OrderRoutes.param (Query.orderType q)) PENDING None None None]>
      (World.db w) /\
  World.queue (after r)
  = (World.queue w ++
     [Job.mk orderId "process-order"
        (OrderJobData.mk orderId (OrderRoutes.param (Query.tokenIn q))
           (OrderRoutes.param (Query.tokenOut q)) (Query.amount q)
           (OrderRoutes.param (Query.orderType q)))
        OrderQueueService.defaultJobOptions waiting 0])%list /\
  World.connections (after r) = <[orderId := h]> (World.connections w) /\
  World.socketAt (after r) h
  = Socket.mk OPEN (Socket.sent (World.socketAt w h) ++ [OrderRoutes.pending_frame orderId])%list.
Proof.
  intros Hrej Hopen Hcreate Henq Hdb Hconn Hfresh r orderId. subst r orderId.
  apply find_key_fresh in Hfresh.
  unfold outcome, after, OrderRoutes.execute, OrderRoutes.detached,
    WebSocketManager.registerConnection, OrderQueueService.addOrder,
    OrderQueueService.Queue_add, Prisma.create, Ws.send,
    try_catch, bind, gets, modify, ret, throw.
  rewrite Hrej, Hcreate, Henq. simpl. rewrite Hconn.
  rewrite bool_decide_eq_false_2 by (intros [? ?]; discriminate).
  simpl.
  unfold World.socketAt in *. simpl. rewrite Hopen. simpl. rewrite Hdb. simpl.
  rewrite Hfresh. simpl. rewrite lookup_insert_eq. repeat split.
Qed.

Lemma rejects_invalid (q : Query.t) :
  OrderRoutes.rejects q = true <-> invalid q.
Proof. unfold invalid, missing. rewrite rejects_iff. tauto. Qed.

Lemma passes_valid (q : Query.t) :
  OrderRoutes.rejects q = false <-> ~ invalid q.
Proof.
  rewrite <- rejects_invalid. by destruct (OrderRoutes.rejects q).
Qed.

Lemma execute_admitted (env : IntakeEnv.t) (h : nat) (q : Query.t) (w : World.t) :
  OrderRoutes.rejects q = false ->
  Socket.readyState (World.socketAt w h) = OPEN ->
  World.connections w !! IntakeEnv.uuid env = None ->
  let r := OrderRoutes.execute env h q w in
  outcome r = Return tt /\ admitted (IntakeEnv.uuid env) h w (after r).
Proof.
  intros Hrej Hopen Hconn r. subst r.
  unfold admitted, outcome, after, OrderRoutes.execute, OrderRoutes.detached,
    WebSocketManager.registerConnection, OrderQueueService.addOrder,
    OrderQueueService.Queue_add, Prisma.create, Ws.send,
    try_catch, bind, gets, modify, ret, throw.
  rewrite Hrej. simpl. rewrite Hconn.
  rewrite bool_decide_eq_false_2 by (intros [? ?]; discriminate).
  simpl. unfold World.socketAt in *. simpl. rewrite Hopen. simpl.
  destruct (IntakeEnv.create_fault env) as [e|]; simpl.
  { rewrite !lookup_insert_eq. simpl. rewrite !lookup_insert_eq. simpl.
    repeat split. eexists. by rewrite <- app_assoc. }
  destruct (World.db w !! IntakeEnv.uuid env); simpl.
  { rewrite !lookup_insert_eq. simpl. rewrite !lookup_insert_eq. simpl.
    repeat split. eexists. by rewrite <- app_assoc. }
  destruct (IntakeEnv.enqueue_fault env) as [e|]; simpl.
  { rewrite !lookup_insert_eq. simpl. rewrite !lookup_insert_eq. simpl.
    repeat split. eexists. by rewrite <- app_assoc. }
  destruct (find _ (World.queue w)); simpl; rewrite !lookup_insert_eq; simpl;
    repeat split; by exists [].
Qed.

(** C10, as stated, fails: a request whose [tokenIn] is present but empty,
    with the other parameters present and an amount that parses to 100, is
    rejected (on an open socket the handler writes the structured error,
    closes the socket, stores, queues and registers nothing) although no
    parameter is absent and the amount is neither NaN nor 0. *)
Lemma empty_parameter_is_rejected_too :
  OrderRoutes.rejects empty_token_query = true /\
  refused 1 one_socket
    (after (OrderRoutes.execute quiet_intake 1 empty_token_query one_socket)) /\
  Query.tokenIn empty_token_query <> None /\
  Query.tokenOut empty_token_query <> None /\
  Query.orderType empty_token_query <> None /\
  PrimFloat.is_nan (Query.amount empty_token_query) = false /\
  PrimFloat.is_zero (Query.amount empty_token_query) = false.
Proof.
  split; [vm_compute; reflexivity|]. split.
  - destruct (execute_rejected quiet_intake 1 empty_token_query one_socket eq_refl)
      as (Hdb & Hq & Hconn & Hsock).
    destruct (Hsock eq_refl) as (_ & Hsent).
    by repeat split.
  - repeat split; try discriminate; vm_compute; reflexivity.
Qed.

(** C10, amended.  For a request on an open socket, with an order id that
    the registry does not hold yet, the handler of the execute route never
    raises, and it refuses the request (it writes the structured error and
    closes the socket, and stores, queues and registers nothing) exactly
    when [tokenIn], [tokenOut] or [orderType] is absent or empty, or the
    amount parses to NaN or to a zero.  Every other request passes the
    validation: the socket is registered for the new order id, stays open,
    and is sent the PENDING update first.  In particular a request with
    non-empty parameters and a strictly negative amount passes; with an
    identifier that is fresh in the store and in the queue and no store or
    queue error, an order record with that negative amount and status
    PENDING is created and a job carrying the same amount is enqueued under
    the order id. *)
Theorem execute_validates_presence_and_nonzero_amount :
  forall (env : IntakeEnv.t) (h : nat) (q : Query.t) (w : World.t),
    Socket.readyState (World.socketAt w h) = OPEN ->
    World.connections w !! IntakeEnv.uuid env = None ->
    let r := OrderRoutes.execute env h q w in
    outcome r = Return tt /\
    (refused h w (after r) <-> invalid q) /\
    (admitted (IntakeEnv.uuid env) h w (after r) <-> ~ invalid q) /\
    (forall tin tout ty : string,
        Query.tokenIn q = Some tin -> tin <> "" ->
        Query.tokenOut q = Some tout -> tout <> "" ->
        Query.orderType q = Some ty -> ty <> "" ->
        PrimFloat.ltb (Query.amount q) 0 = true ->
        ~ invalid q /\
        (IntakeEnv.create_fault env = None ->
         IntakeEnv.enqueue_fault env = None ->
         World.db w !! IntakeEnv.uuid env = None ->
         ~ In (IntakeEnv.uuid env) (job_ids (World.queue w)) ->
         World.db (after r) !! IntakeEnv.uuid env
         = Some (Order.mk (IntakeEnv.uuid env) tin tout (Query.amount q) ty
                          PENDING None None None) /\
         In (Job.mk (IntakeEnv.uuid env) "process-order"
               (OrderJobData.mk (IntakeEnv.uuid env) tin tout (Query.amount q) ty)
               OrderQueueService.defaultJobOptions waiting 0)
            (World.queue (after r)))).
Proof.
  intros env h q w Hopen Hconn r. subst r.
  assert (refused h w (after (OrderRoutes.execute env h q w)) ->
          admitted (IntakeEnv.uuid env) h w (after (OrderRoutes.execute env h q w)) ->
          False) as Hexclusive.
  { intros (_ & _ & _ & Hsame) (Hreg & _). rewrite Hsame, Hconn in Hreg. discriminate. }
  destruct (OrderRoutes.rejects q) eqn:Hrej.
  - (* the request fails the check *)
    pose proof (proj1 (rejects_invalid q) Hrej) as Hinvalid.
    destruct (execute_rejected env h q w Hrej) as (Hdb & Hq & Hreg & Hsock).
    destruct (Hsock Hopen) as (Hret & Hsent).
    assert (refused h w (after (OrderRoutes.execute env h q w))) as Hrefused
      by (by repeat split).
    split; [exact Hret|]. split; [by split|]. split.
    + split; [intros Hadm; destruct (Hexclusive Hrefused Hadm)|by intros Hvalid].
    + intros tin tout ty Hin Hin' Hout Hout' Hty Hty' Hneg. exfalso.
      unfold OrderRoutes.rejects in Hrej.
      rewrite (truthy_param_true _ _ Hin Hin'), (truthy_param_true _ _ Hout Hout'),
        (truthy_param_true _ _ Hty Hty'), (negative_number_is_truthy _ Hneg) in Hrej.
      discriminate.
  - (* the request passes the check *)
    pose proof (proj1 (passes_valid q) Hrej) as Hvalid.
    destruct (execute_admitted env h q w Hrej Hopen Hconn) as (Hret & Hadm).
    split; [exact Hret|]. split; [|split].
    + split; [intros Hrefused; destruct (Hexclusive Hrefused Hadm)|by intros Hinvalid].
    + by split.
    + intros tin tout ty Hin _ Hout _ Hty _ _. split; [exact Hvalid|].
      intros Hcreate Henq Hdb Hfresh.
      destruct (execute_accepted env h q w Hrej Hopen Hcreate Henq Hdb Hconn Hfresh)
        as (_ & Hdb' & Hqueue' & _).
      rewrite Hdb', Hqueue', Hin, Hout, Hty. simpl. split.
      * apply lookup_insert_eq.
      * apply in_or_app. right. left. reflexivity.
Qed.

Lemma execute_validates_presence_and_nonzero_amount_witness :
  refused 1 one_socket
    (after (OrderRoutes.execute quiet_intake 1 no_amount_query one_socket)) /\
  admitted "o-1" 1 one_socket
    (after (OrderRoutes.execute quiet_intake 1 market_query one_socket)) /\
  World.db (after (OrderRoutes.execute quiet_intake 1 negative_query one_socket)) !! "o-1"
  = Some (Order.mk "o-1" "SOL" "USDC" (-5)%float "MARKET" PENDING None None None).
Proof.
  split; [|split].
  - destruct (execute_validates_presence_and_nonzero_amount
                quiet_intake 1 no_amount_query one_socket eq_refl eq_refl)
      as (_ & Hrefused & _).
    apply Hrefused. right. right. right. left. reflexivity.
  - destruct (execute_validates_presence_and_nonzero_amount
                quiet_intake 1 market_query one_socket eq_refl eq_refl)
      as (_ & _ & Hadmitted & _).
    apply Hadmitted. apply passes_valid. vm_compute. reflexivity.
  - destruct (execute_validates_presence_and_nonzero_amount
                quiet_intake 1 negative_query one_socket eq_refl eq_refl)
      as (_ & _ & _ & Hneg).
    assert ("SOL" <> "") as Hsol by discriminate.
    assert ("USDC" <> "") as Husdc by discriminate.
    assert ("MARKET" <> "") as Hmarket by discriminate.
    destruct (Hneg "SOL" "USDC" "MARKET" eq_refl Hsol eq_refl Husdc eq_refl Hmarket
                eq_refl) as [_ Hmade].
    apply Hmade; [reflexivity | reflexivity | reflexivity |].
    simpl. tauto.
Defined.

(** ** Lifecycle driver: failures *)

(** C2, as stated, fails: the store becomes unreachable at the BUILDING
    write and is still unreachable in the handler.  The run raises, yet the
    order is not FAILED in the store (it stays ROUTING), the subscriber has
    received no FAILED update, and the error that reaches the Worker Pool is
    the one of the handler's write, not the failure being handled. *)
Lemma store_outage_leaves_no_terminal_signal :
  let attempt := OrderProcessor.processOrder_try (Some serverEmitter) store_outage
                   sample_order accepted_order in
  let r := OrderProcessor.processOrder (Some serverEmitter) store_outage
             sample_order accepted_order in
  outcome attempt = Throw (Js.ErrorObj "Can't reach database server") /\
  outcome r = Throw (Js.ErrorObj "Timed out fetching a new connection from the pool") /\
  Order.status <$> (World.db (after r) !! "o-1") = Some ROUTING /\
  published (after r) 1 = [PENDING; ROUTING] /\
  ~ In FAILED (published (after r) 1).
Proof.
  vm_compute. repeat split. intros [H|[H|[]]]; discriminate.
Qed.

Lemma sendStatusUpdate_delivered (orderId : string) (status : OrderStatus)
    (extra : Extra.t) (w : World.t) (h : nat) :
  World.connections w !! orderId = Some h ->
  Socket.readyState (World.socketAt w h) = OPEN ->
  let r := WebSocketManager.sendStatusUpdate Delivered orderId status extra w in
  Socket.sent (World.socketAt (after r) h)
  = (Socket.sent (World.socketAt w h) ++ [StatusFrame orderId status extra])%list /\
  World.db (after r) = World.db w /\
  World.connections (after r) = World.connections w.
Proof.
  intros Hreg Hopen r. subst r.
  unfold after, WebSocketManager.sendStatusUpdate, Ws.send, try_catch, bind, gets,
    modify, ret. simpl. rewrite Hreg, Hopen. simpl. rewrite Hopen. simpl.
  rewrite socketAt_insert_eq. repeat split.
Qed.

Lemma processOrder_runs_handler (env : RunEnv.t) (orderData : OrderJobData.t)
    (w w1 : World.t) (err : Js.Thrown) :
  OrderProcessor.processOrder_try (Some serverEmitter) env orderData w = (Throw err, w1) ->
  OrderProcessor.processOrder (Some serverEmitter) env orderData w
  = OrderProcessor.processOrder_catch (Some serverEmitter) env orderData err w1.
Proof.
  intros Htry. unfold OrderProcessor.processOrder, try_catch. by rewrite Htry.
Qed.

(** X23.  When the handler's own write of FAILED fails, because the store
    raises or the record is gone, nothing is written or published and the
    error of that write is what reaches the Worker Pool. *)
Lemma processOrder_handler_write_fails (env : RunEnv.t) (orderData : OrderJobData.t)
    (w w1 : World.t) (err : Js.Thrown) :
  OrderProcessor.processOrder_try (Some serverEmitter) env orderData w = (Throw err, w1) ->
  let r := OrderProcessor.processOrder (Some serverEmitter) env orderData w in
  (forall e : Js.Thrown, RunEnv.failed_write env = Some e -> r = (Throw e, w1)) /\
  (RunEnv.failed_write env = None ->
   World.db w1 !! OrderJobData.id orderData = None ->
   r = (Throw (Js.ErrorObj "Record to update not found."), w1)).
Proof.
  intros Htry r. subst r. rewrite (processOrder_runs_handler _ _ _ _ _ Htry).
  unfold OrderProcessor.processOrder_catch, OrderProcessor.updateOrderStatus,
    OrderProcessor.emitWebSocketUpdate, Prisma.update, serverEmitter,
    try_catch, bind, ret, throw.
  split.
  - intros e Hwrite. by rewrite Hwrite.
  - intros Hwrite Hdb. by rewrite Hwrite, Hdb.
Qed.

(** C2, amended.  Whenever the [try] block of [processOrder] raises [err]
    (at any of the steps) and the handler's write of FAILED to the store
    succeeds, the order is FAILED in the store, the FAILED update carrying
    the message of [err] (or 'Unknown error') is handed to the publisher
    before anything is raised, and [err] itself is raised to the Worker
    Pool.  A subscriber whose socket is registered and open has received the
    update when the write on its socket goes out, and has received nothing
    when that write fails. *)
Theorem processOrder_failure_is_recorded_published_and_reraised :
  forall (env : RunEnv.t) (orderData : OrderJobData.t) (w w1 : World.t)
         (err : Js.Thrown) (ord : Order.t),
    OrderProcessor.processOrder_try (Some serverEmitter) env orderData w
    = (Throw err, w1) ->
    RunEnv.failed_write env = None ->
    World.db w1 !! OrderJobData.id orderData = Some ord ->
    let r := OrderProcessor.processOrder (Some serverEmitter) env orderData w in
    let orderId := OrderJobData.id orderData in
    let recorded :=
      World.set_db (<[orderId := Order.with_status FAILED ord]> (World.db w1)) w1 in
    outcome r = Throw err /\
    after r = after (WebSocketManager.sendStatusUpdate (RunEnv.failed_send env)
                       orderId FAILED (OrderProcessor.failure_data err) recorded) /\
    Order.status <$> (World.db (after r) !! orderId) = Some FAILED /\
    (forall h : nat,
        World.connections w1 !! orderId = Some h ->
        Socket.readyState (World.socketAt w1 h) = OPEN ->
        RunEnv.failed_send env = Delivered ->
        Socket.sent (World.socketAt (after r) h)
        = (Socket.sent (World.socketAt w1 h)
           ++ [StatusFrame orderId FAILED
                 (Extra.mk None None None (Some (Js.message_or_unknown err)) None)])%list) /\
    (forall h : nat,
        World.connections w1 !! orderId = Some h ->
        Socket.readyState (World.socketAt w1 h) = OPEN ->
        RunEnv.failed_send env = WriteFailed ->
        Socket.sent (World.socketAt (after r) h) = Socket.sent (World.socketAt w1 h)).
Proof.
  intros env orderData w w1 err ord Htry Hwrite Hdb r orderId recorded.
  subst r orderId recorded.
  rewrite (processOrder_runs_handler _ _ _ _ _ Htry). clear Htry.
  unfold OrderProcessor.processOrder_catch, OrderProcessor.updateOrderStatus,
    OrderProcessor.emitWebSocketUpdate, Prisma.update, serverEmitter.
  unfold outcome, after, try_catch, bind, ret, throw. rewrite Hwrite, Hdb. simpl.
  pose proof (sendStatusUpdate_returns (RunEnv.failed_send env)
                (OrderJobData.id orderData) FAILED (OrderProcessor.failure_data err)
                (World.set_db
                   (<[OrderJobData.id orderData := Order.with_status FAILED ord]>
                      (World.db w1)) w1)) as Hret.
  unfold outcome in Hret.
  destruct (WebSocketManager.sendStatusUpdate _ _ _ _ _) as [o w2] eqn:Hsend.
  simpl in Hret. subst o. simpl.
  split; [reflexivity|]. split; [reflexivity|].
  assert (w2 = after (WebSocketManager.sendStatusUpdate (RunEnv.failed_send env)
                        (OrderJobData.id orderData) FAILED
                        (OrderProcessor.failure_data err)
                        (World.set_db
                           (<[OrderJobData.id orderData := Order.with_status FAILED ord]>
                              (World.db w1)) w1))) as Hw2
    by (unfold after; rewrite Hsend; reflexivity).
  split; [|split].
  - destruct (World.connections w1 !! OrderJobData.id orderData) as [h|] eqn:Hreg.
    + rewrite Hw2.
      unfold after, WebSocketManager.sendStatusUpdate, Ws.send, try_catch, bind,
        gets, modify, ret. simpl. rewrite Hreg.
      destruct (decide _) as [?|?]; simpl; [by rewrite lookup_insert_eq|].
      unfold World.socketAt. simpl.
      destruct (Socket.readyState (default Socket.closed (World.sockets w1 !! h)));
        simpl; try (by rewrite lookup_insert_eq).
      destruct (RunEnv.failed_send env); simpl; by rewrite lookup_insert_eq.
    + rewrite Hw2.
      unfold after, WebSocketManager.sendStatusUpdate, try_catch, bind, gets, ret.
      simpl. rewrite Hreg. simpl. by rewrite lookup_insert_eq.
  - intros h Hreg Hopen Hdelivered. rewrite Hw2, Hdelivered.
    apply (sendStatusUpdate_delivered _ _ _
             (World.set_db
                (<[OrderJobData.id orderData := Order.with_status FAILED ord]>
                   (World.db w1)) w1) h); assumption.
  - intros h Hreg Hopen Hfailed. rewrite Hw2, Hfailed.
    unfold after, WebSocketManager.sendStatusUpdate, Ws.send, try_catch, bind, gets,
      modify, ret. simpl. rewrite Hreg.
    unfold World.socketAt in *. simpl. rewrite Hopen. simpl. rewrite Hopen. reflexivity.
Qed.

Lemma processOrder_failure_is_recorded_published_and_reraised_witness :
  let r := OrderProcessor.processOrder (Some serverEmitter) transient_lookup_error
             sample_order accepted_order in
  outcome r = Throw (Js.ErrorObj "Can't reach database server") /\
  Order.status <$> (World.db (after r) !! "o-1") = Some FAILED.
Proof.
  pose (w1 := after (OrderProcessor.processOrder_try (Some serverEmitter)
                       transient_lookup_error sample_order accepted_order)).
  assert (OrderProcessor.processOrder_try (Some serverEmitter) transient_lookup_error
            sample_order accepted_order
          = (Throw (Js.ErrorObj "Can't reach database server"), w1)) as Htry
    by (vm_compute; reflexivity).
  assert (World.db w1 !! OrderJobData.id sample_order
          = Some (Order.mk "o-1" "SOL" "USDC" 100%float "MARKET" ROUTING None None None))
    as Hdb by (vm_compute; reflexivity).
  destruct (processOrder_failure_is_recorded_published_and_reraised
              transient_lookup_error sample_order accepted_order w1
              (Js.ErrorObj "Can't reach database server") _ Htry eq_refl Hdb)
    as (Hout & _ & Hstatus & _).
  split; [exact Hout | exact Hstatus].
Defined.

(** ** Lifecycle driver: order of the published statuses *)

(** C1 at the failing input.  An accepted market order whose first attempt
    hits a transient store error at the order lookup: the handler records
    and publishes FAILED and re-raises, the queue policy (3 attempts) runs
    the job again, and the second attempt publishes ROUTING, BUILDING,
    SUBMITTED and CONFIRMED after the FAILED that was meant to be final.
    What the subscriber has received is not in pipeline order, and the order
    ends CONFIRMED in the store after having been FAILED.  A job whose only
    attempt runs undisturbed publishes the five stages in order. *)
Theorem retry_publishes_stages_after_failed :
  let '(state, w) := OrderProcessor.runJob (Some serverEmitter) first_attempt_fails
                       accepted_job accepted_order in
  World.queue accepted_order = [accepted_job] /\
  JobsOptions.attempts (Job.opts accepted_job) = 3 /\
  state = completed /\
  published accepted_order 1 = [PENDING] /\
  published
    (after (OrderProcessor.processOrder (Some serverEmitter) transient_lookup_error
              sample_order accepted_order)) 1
  = [PENDING; ROUTING; FAILED] /\
  published w 1
  = [PENDING; ROUTING; FAILED; ROUTING; BUILDING; SUBMITTED; CONFIRMED] /\
  in_pipeline_order (published w 1) = false /\
  Order.status <$> (World.db w !! "o-1") = Some CONFIRMED /\
  in_pipeline_order
    (published
       (snd (OrderProcessor.runJob (Some serverEmitter) (fun _ => calm)
               accepted_job accepted_order)) 1) = true.
Proof. vm_compute. repeat split. Qed.

(** ** Worker pool *)

Section PoolInvariants.
Import Pool.

Lemma filter_length_le {A} (f g : A -> bool) (l : list A) :
  (forall x, f x = true -> g x = true) ->
  length (List.filter f l) <= length (List.filter g l).
Proof.
  intros Himp. induction l as [|x l IH]; simpl; [lia|].
  destruct (f x) eqn:Hf.
  - rewrite (Himp x Hf). simpl. lia.
  - destruct (g x); simpl; lia.
Qed.

Lemma remove_first_length (j : string) (l : list string) :
  length (remove_first j l) <= length l.
Proof.
  induction l as [|x l IH]; simpl; [lia|].
  destruct (String.eqb x j); simpl; lia.
Qed.

Lemma remove_first_perm (j : string) (l : list string) :
  existsb (String.eqb j) l = true -> Permutation l (j :: remove_first j l).
Proof.
  induction l as [|x l IH]; simpl; [discriminate|].
  rewrite (String.eqb_sym j x).
  destruct (String.eqb x j) eqn:Hx; simpl.
  - intros _. apply String.eqb_eq in Hx. by subst x.
  - intros Hrest. rewrite (IH Hrest) at 1. apply perm_swap.
Qed.

Lemma step_within_limits (ev : event) (p : t) :
  within_limits p -> within_limits (step ev p).
Proof.
  intros [Hactive Hwindow]. destruct ev as [j | ms | | j]; simpl.
  - split; assumption.
  - split; assumption.
  - destruct (waitingJobs p) as [|j rest]; [split; assumption|].
    destruct (may_start p) eqn:Hok; [|split; assumption].
    unfold may_start in Hok. apply andb_true_iff in Hok as [Hroom Hrate].
    apply Nat.ltb_lt in Hroom, Hrate.
    split; simpl.
    + rewrite length_app. simpl. lia.
    + intros t0. unfold starts_in_window. simpl.
      destruct ((t0 - OrderProcessor.limiter_duration <? now p)%Z
                && (now p <=? t0)%Z) eqn:Hin; simpl.
      * apply andb_true_iff in Hin as [_ Hle]. apply Z.leb_le in Hle.
        apply Nat.le_lt_trans with (m := length (recent p)); [|lia].
        unfold recent.
        apply filter_length_le. intros s Hs.
        apply andb_true_iff in Hs as [Hlow _].
        apply Z.ltb_lt in Hlow. apply Z.ltb_lt. lia.
      * apply Hwindow.
  - destruct (existsb (String.eqb j) (activeJobs p)); [|split; assumption].
    split; simpl; [|exact Hwindow].
    pose proof (remove_first_length j (activeJobs p)). lia.
Qed.

Lemma run_within_limits (evs : list event) (p : t) :
  within_limits p -> within_limits (run evs p).
Proof.
  revert p. induction evs as [|ev evs IH]; intros p Hp; simpl; [exact Hp|].
  apply IH. by apply step_within_limits.
Qed.

Lemma step_holds_every_job (ev : event) (p : t) :
  Permutation (held (step ev p)) (held p ++ arrived [ev]).
Proof.
  destruct ev as [j | ms | | j]; simpl; rewrite ?app_nil_r.
  - unfold held. simpl. rewrite <- !app_assoc. apply Permutation_app_head. simpl.
    rewrite (app_assoc (activeJobs p)). apply Permutation_cons_append.
  - reflexivity.
  - destruct (waitingJobs p) as [|j rest] eqn:Hw; [reflexivity|].
    destruct (may_start p); [|reflexivity].
    unfold held. simpl. rewrite Hw. simpl.
    rewrite <- app_assoc. simpl. rewrite !app_assoc. symmetry. apply Permutation_middle.
  - destruct (existsb (String.eqb j) (activeJobs p)) eqn:Hin; [|reflexivity].
    unfold held. simpl. apply Permutation_app_head.
    rewrite (remove_first_perm j (activeJobs p) Hin) at 2. simpl.
    rewrite app_assoc. symmetry. apply Permutation_cons_append.
Qed.

Lemma run_holds_every_job (evs : list event) (p : t) :
  Permutation (held (run evs p)) (held p ++ arrived evs).
Proof.
  revert p. induction evs as [|ev evs IH]; intros p; simpl.
  - by rewrite app_nil_r.
  - rewrite IH, step_holds_every_job.
    rewrite <- app_assoc. apply Permutation_app_head.
    destruct ev; simpl; reflexivity.
Qed.

End PoolInvariants.

(** C9.  After any history of arrivals, passing time, start attempts and
    ends of runs, the pool has at most 10 active jobs; in every window of
    60000 ms (60 units) at most 100 jobs were started; and every job that
    arrived is still held by the pool, waiting, active or finished: a job
    that cannot be started stays in the waiting list, none is dropped. *)
Theorem pool_respects_concurrency_and_rate_and_keeps_jobs :
  forall evs : list Pool.event,
    let p := Pool.run evs Pool.empty in
    length (Pool.activeJobs p) <= 10 /\
    (forall t0 : Z,
        length (List.filter (fun s => (t0 - 60000 <? s)%Z && (s <=? t0)%Z) (Pool.starts p))
        <= 100) /\
    Permutation (Pool.arrived evs)
                (Pool.waitingJobs p ++ Pool.activeJobs p ++ Pool.finishedJobs p) /\
    (forall p0 : Pool.t,
        Pool.may_start p0 = false -> Pool.step Pool.Fetch p0 = p0).
Proof.
  intros evs p. subst p.
  destruct (run_within_limits evs Pool.empty) as [Hactive Hwindow].
  { split; simpl; [lia|]. intros t0. unfold Pool.starts_in_window. simpl. lia. }
  split; [exact Hactive|]. split; [exact Hwindow|]. split.
  - symmetry. apply (run_holds_every_job evs Pool.empty).
  - intros p0 Hno. simpl. rewrite Hno. by destruct (Pool.waitingJobs p0).
Qed.

Lemma pool_respects_concurrency_and_rate_and_keeps_jobs_witness :
  Pool.step Pool.Fetch (Pool.mk 0 ["o-1"] [] [] (repeat 0%Z 100))
  = Pool.mk 0 ["o-1"] [] [] (repeat 0%Z 100).
Proof.
  apply (proj2 (proj2 (proj2 (pool_respects_concurrency_and_rate_and_keeps_jobs [])))).
  vm_compute. reflexivity.
Defined.

(** ** One run of the driver publishes in pipeline order *)

Lemma among_elem (l : list OrderStatus) (T : list (list OrderStatus)) :
  among l T = true <-> In l T.
Proof.
  unfold among, same_trace. rewrite existsb_exists. split.
  - intros (k & Hin & Heq). apply bool_decide_eq_true in Heq. by subst k.
  - intros Hin. exists l. split; [exact Hin|]. by apply bool_decide_eq_true.
Qed.

Lemma among_followed_by (l1 l2 : list OrderStatus) (R T : list (list OrderStatus)) :
  among l1 R = true -> among l2 T = true -> among (l1 ++ l2) (followed_by R T) = true.
Proof.
  rewrite !among_elem. intros H1 H2. unfold followed_by.
  apply in_flat_map. exists l1. split; [exact H1|].
  apply in_map_iff. by exists l2.
Qed.

Lemma among_app_l (l : list OrderStatus) (T T' : list (list OrderStatus)) :
  among l T = true -> among l (T ++ T') = true.
Proof. rewrite !among_elem. intros H. apply in_or_app. by left. Qed.

Lemma among_app_r (l : list OrderStatus) (T T' : list (list OrderStatus)) :
  among l T' = true -> among l (T ++ T') = true.
Proof. rewrite !among_elem. intros H. apply in_or_app. by right. Qed.

Lemma among_all_among (l : list OrderStatus) (T T' : list (list OrderStatus)) :
  all_among T T' = true -> among l T = true -> among l T' = true.
Proof.
  unfold all_among. rewrite forallb_forall. intros Hall Hl.
  apply Hall. by apply among_elem.
Qed.

Lemma among_initial_segments (d l : list OrderStatus) :
  d `prefix_of` l -> among d (initial_segments l) = true.
Proof.
  rewrite among_elem. revert d. induction l as [|x l IH]; intros d [k Hk].
  - symmetry in Hk. apply app_eq_nil in Hk as [-> _]. by left.
  - destruct d as [|y d]; [by left|].
    simpl in Hk. injection Hk as <- Hk. right.
    apply in_map_iff. exists d. split; [reflexivity|]. apply IH. by exists k.
Qed.

Lemma published_same_sockets (w w' : World.t) (h : nat) :
  World.sockets w' = World.sockets w -> published w' h = published w h.
Proof. intros Heq. unfold published, World.socketAt. by rewrite Heq. Qed.

Lemma advances_silent (orderId : string) (w w' : World.t) :
  World.connections w' = World.connections w ->
  World.sockets w' = World.sockets w ->
  advances orderId [] w w'.
Proof.
  intros Hconn Hsock h. exists []. rewrite app_nil_r, Hconn.
  split; [reflexivity|]. split; [by apply published_same_sockets|].
  split; [intros Hreg; by split | reflexivity].
Qed.

Lemma advances_trans (orderId : string) (l1 l2 : list OrderStatus)
    (w w' w'' : World.t) :
  advances orderId l1 w w' -> advances orderId l2 w' w'' ->
  advances orderId (l1 ++ l2) w w''.
Proof.
  intros H1 H2 h.
  destruct (H1 h) as (d1 & Hpre1 & Hpub1 & Hreg1 & Hnot1).
  destruct (H2 h) as (d2 & Hpre2 & Hpub2 & Hreg2 & Hnot2).
  exists (d1 ++ d2)%list. repeat split.
  - destruct (decide (World.connections w' !! orderId = Some h)) as [Hyes|Hno].
    + destruct (Hreg1 Hyes) as [-> _]. by apply prefix_app.
    + rewrite (Hnot2 Hno), app_nil_r. by apply prefix_app_r.
  - by rewrite Hpub2, Hpub1, app_assoc.
  - destruct (Hreg2 H) as [-> Hmid]. by destruct (Hreg1 Hmid) as [-> _].
  - destruct (Hreg2 H) as [_ Hmid]. by destruct (Hreg1 Hmid) as [_ ?].
  - intros Hno. rewrite (Hnot1 Hno). simpl. apply Hnot2.
    intros Hmid. by destruct (Hreg1 Hmid) as [_ ?].
Qed.

Lemma published_insert_eq (w : World.t) (h : nat) (st : ReadyState) (f : Frame) :
  published
    (World.set_sockets
       (<[h := Socket.mk st (Socket.sent (World.socketAt w h) ++ [f])]> (World.sockets w)) w) h
  = (published w h ++ from_option (fun s => [s]) [] (status_of f))%list.
Proof.
  unfold published. rewrite socketAt_insert_eq. simpl.
  rewrite omap_app. simpl. by destruct (status_of f).
Qed.

Lemma published_insert_ne (w : World.t) (h h' : nat) (s : Socket.t) :
  h <> h' ->
  published (World.set_sockets (<[h := s]> (World.sockets w)) w) h' = published w h'.
Proof.
  intros Hne. unfold published, World.socketAt. simpl. by rewrite lookup_insert_ne.
Qed.

Lemma advances_emit (o : SendOutcome) (orderId : string) (status : OrderStatus)
    (extra : Extra.t) (w : World.t) :
  advances orderId [status] w
           (snd (WebSocketManager.sendStatusUpdate o orderId status extra w)).
Proof.
  unfold WebSocketManager.sendStatusUpdate, Ws.send, try_catch, bind, gets, modify, ret.
  simpl. destruct (World.connections w !! orderId) as [h0|] eqn:Hreg; simpl.
  - destruct (decide (Socket.readyState (World.socketAt w h0) <> OPEN)) as [Hnot|Hopen];
      simpl.
    + intros h. exists []. simpl. rewrite app_nil_r, lookup_delete_eq.
      split; [apply prefix_nil|]. repeat split; discriminate.
    + apply dec_stable in Hopen. rewrite Hopen. destruct o; simpl.
      * intros h. destruct (decide (h0 = h)) as [<-|Hne].
        -- exists [status]. rewrite published_insert_eq. simpl.
           split; [reflexivity|]. split; [reflexivity|]. rewrite Hreg.
           split; [intros _; by split | intros Hno; by destruct Hno].
        -- exists []. rewrite app_nil_r, published_insert_ne by done.
           split; [apply prefix_nil|]. split; [reflexivity|]. simpl. rewrite Hreg.
           split; [intros [= ?]; contradiction | reflexivity].
      * intros h. exists []. simpl. rewrite app_nil_r, lookup_delete_eq.
        split; [apply prefix_nil|]. repeat split; discriminate.
  - intros h. exists []. rewrite app_nil_r, Hreg.
    split; [apply prefix_nil|]. repeat split; discriminate.
Qed.

Lemma traced_silent {A} (orderId : string) (m : M A) :
  (forall w, World.connections (snd (m w)) = World.connections w /\
             World.sockets (snd (m w)) = World.sockets w) ->
  traced orderId m [[]] [[]].
Proof.
  intros Hsame w. exists []. destruct (Hsame w) as [Hconn Hsock].
  split; [by apply advances_silent|]. by destruct (fst (m w)).
Qed.

Lemma traced_throw {A} (orderId : string) (e : Js.Thrown) :
  traced orderId (@throw A e) [[]] [].
Proof. intros w. exists []. split; [by apply advances_silent|reflexivity]. Qed.

Lemma traced_emit (orderId : string) (o : SendOutcome) (status : OrderStatus)
    (extra : Extra.t) :
  traced orderId (WebSocketManager.sendStatusUpdate o orderId status extra)
         [] [[status]].
Proof.
  intros w. exists [status]. split; [apply advances_emit|].
  pose proof (sendStatusUpdate_returns o orderId status extra w) as Hret.
  unfold outcome in Hret. rewrite Hret. unfold among, same_trace. simpl.
  by rewrite bool_decide_eq_true_2.
Qed.

Lemma traced_bind {A B} (orderId : string) (m : M A) (k : A -> M B)
    (T1 R1 T2 R2 : list (list OrderStatus)) :
  traced orderId m T1 R1 ->
  (forall a, traced orderId (k a) T2 R2) ->
  traced orderId (bind m k) (T1 ++ followed_by R1 T2) (followed_by R1 R2).
Proof.
  intros Hm Hk w. destruct (Hm w) as (l1 & Hadv1 & Hout1). unfold bind.
  destruct (m w) as [[a|e] w1]; simpl in *.
  - destruct (Hk a w1) as (l2 & Hadv2 & Hout2). exists (l1 ++ l2)%list.
    split; [by eapply advances_trans|].
    destruct (fst (k a w1)).
    + by apply among_followed_by.
    + by apply among_app_r, among_followed_by.
  - exists l1. split; [exact Hadv1|]. by apply among_app_l.
Qed.

Lemma traced_try_catch {A} (orderId : string) (m : M A) (handler : Js.Thrown -> M A)
    (T1 R1 T2 R2 : list (list OrderStatus)) :
  traced orderId m T1 R1 ->
  (forall e, traced orderId (handler e) T2 R2) ->
  traced orderId (try_catch m handler) (followed_by T1 T2) (R1 ++ followed_by T1 R2).
Proof.
  intros Hm Hh w. destruct (Hm w) as (l1 & Hadv1 & Hout1). unfold try_catch.
  destruct (m w) as [[a|e] w1]; simpl in *.
  - exists l1. split; [exact Hadv1|]. by apply among_app_l.
  - destruct (Hh e w1) as (l2 & Hadv2 & Hout2). exists (l1 ++ l2)%list.
    split; [by eapply advances_trans|].
    destruct (fst (handler e w1)).
    + by apply among_app_r, among_followed_by.
    + by apply among_followed_by.
Qed.

Lemma traced_mono {A} (orderId : string) (m : M A)
    (T R T' R' : list (list OrderStatus)) :
  traced orderId m T R ->
  all_among T T' = true -> all_among R R' = true ->
  traced orderId m T' R'.
Proof.
  intros Hm HT HR w. destruct (Hm w) as (l & Hadv & Hout). exists l.
  split; [exact Hadv|]. destruct (fst (m w)).
  - by apply (among_all_among _ _ _ HR).
  - by apply (among_all_among _ _ _ HT).
Qed.

Lemma updateOrderStatus_silent (orderId : string) (fault : option Js.Thrown)
    (id : string) (status : OrderStatus) :
  traced orderId (OrderProcessor.updateOrderStatus fault id status) [[]] [[]].
Proof.
  apply traced_silent. intros w.
  unfold OrderProcessor.updateOrderStatus, Prisma.update, try_catch, bind, ret, throw.
  destruct fault; simpl; [by split|]. by destruct (World.db w !! id).
Qed.

Lemma update_silent (orderId : string) (fault : option Js.Thrown) (id : string)
    (data : Order.t -> Order.t) :
  traced orderId (Prisma.update fault id data) [[]] [[]].
Proof.
  apply traced_silent. intros w. unfold Prisma.update.
  destruct fault; simpl; [by split|]. by destruct (World.db w !! id).
Qed.

Lemma vanish_silent (orderId : string) (gone : bool) (id : string) :
  traced orderId (if gone then Prisma.deleted id else ret tt) [[]] [[]].
Proof. apply traced_silent. intros w. by destruct gone. Qed.

Lemma findUnique_silent (orderId : string) (fault : option Js.Thrown) (id : string) :
  traced orderId (Prisma.findUnique fault id) [[]] [[]].
Proof. apply traced_silent. intros w. unfold Prisma.findUnique. by destruct fault. Qed.

Lemma executeBestRoute_silent (orderId : string) (env : RouteEnv.t) (order : Order.t) :
  traced orderId (MockDexRouter.executeBestRoute env order) [[]] [[]].
Proof.
  apply traced_silent. intros w.
  unfold MockDexRouter.executeBestRoute, MockDexRouter.bothQuotes, try_catch, bind, ret, throw.
  by destruct (RouteEnv.raydium_fault env), (RouteEnv.meteora_fault env).
Qed.

Lemma processOrder_try_traced (env : RunEnv.t) (orderData : OrderJobData.t) :
  traced (OrderJobData.id orderData)
         (OrderProcessor.processOrder_try (Some serverEmitter) env orderData)
         (initial_segments [ROUTING; BUILDING; SUBMITTED])
         [run_stages].
Proof.
  unfold OrderProcessor.processOrder_try, OrderProcessor.emitWebSocketUpdate,
    serverEmitter.
  eapply traced_mono.
  - eapply traced_bind; [apply updateOrderStatus_silent | intros _].
    eapply traced_bind; [apply traced_emit | intros _].
    eapply traced_bind; [apply vanish_silent | intros _].
    eapply traced_bind; [apply findUnique_silent | intros [order|]].
    + eapply traced_bind; [apply updateOrderStatus_silent | intros _].
      eapply traced_bind; [apply traced_emit | intros _].
      eapply traced_bind; [apply executeBestRoute_silent | intros executionResult].
      eapply traced_bind; [apply update_silent | intros _].
      eapply traced_bind; [apply traced_emit | intros _].
      eapply traced_bind; [apply updateOrderStatus_silent | intros _].
      apply traced_emit.
    + eapply traced_mono; [apply traced_throw | vm_compute; reflexivity | reflexivity].
  - vm_compute. reflexivity.
  - vm_compute. reflexivity.
Qed.

Lemma processOrder_catch_traced (env : RunEnv.t) (orderData : OrderJobData.t)
    (error : Js.Thrown) :
  traced (OrderJobData.id orderData)
         (OrderProcessor.processOrder_catch (Some serverEmitter) env orderData error)
         [[]; [FAILED]] [].
Proof.
  unfold OrderProcessor.processOrder_catch, OrderProcessor.emitWebSocketUpdate,
    serverEmitter.
  eapply traced_mono.
  - eapply traced_bind; [apply updateOrderStatus_silent | intros _].
    eapply traced_bind; [apply traced_emit | intros _].
    apply traced_throw.
  - vm_compute. reflexivity.
  - vm_compute. reflexivity.
Qed.

Lemma processOrder_traced (env : RunEnv.t) (orderData : OrderJobData.t) :
  traced (OrderJobData.id orderData)
         (OrderProcessor.processOrder (Some serverEmitter) env orderData)
         (followed_by (initial_segments [ROUTING; BUILDING; SUBMITTED]) [[]; [FAILED]])
         [run_stages].
Proof.
  unfold OrderProcessor.processOrder.
  eapply traced_mono.
  - eapply traced_try_catch;
      [apply processOrder_try_traced | intros e; apply processOrder_catch_traced].
  - vm_compute. reflexivity.
  - vm_compute. reflexivity.
Qed.

Lemma run_order_closed (l d : list OrderStatus) :
  among l (followed_by (initial_segments [ROUTING; BUILDING; SUBMITTED]) [[]; [FAILED]]
           ++ [run_stages]) = true ->
  d `prefix_of` l ->
  in_run_order d = true.
Proof.
  intros Hl Hpre. apply among_elem in Hl. apply among_initial_segments in Hpre.
  unfold in_run_order.
  simpl in Hl.
  repeat (destruct Hl as [<-|Hl];
          [eapply among_all_among; [|exact Hpre]; vm_compute; reflexivity|]).
  destruct Hl.
Qed.

(** X22.  Within one run of the driver, whatever fails in the store, in the
    route execution or on the socket, every socket receives, on top of what
    it had received, an initial segment of ROUTING, BUILDING, SUBMITTED,
    CONFIRMED, possibly followed by a final FAILED.  A subscriber who had
    received PENDING alone therefore holds a sequence in pipeline order. *)
Lemma one_run_publishes_in_order (env : RunEnv.t) (orderData : OrderJobData.t)
    (w : World.t) (h : nat) :
  let r := OrderProcessor.processOrder (Some serverEmitter) env orderData w in
  (exists d : list OrderStatus,
      published (after r) h = (published w h ++ d)%list /\ in_run_order d = true) /\
  (published w h = [PENDING] -> in_pipeline_order (published (after r) h) = true).
Proof.
  intros r. subst r.
  destruct (processOrder_traced env orderData w) as (l & Hadv & Hout).
  destruct (Hadv h) as (d & Hpre & Hpub & _).
  assert (in_run_order d = true) as Hd.
  { apply (run_order_closed l d); [|exact Hpre].
    destruct (fst _); [by apply among_app_r | by apply among_app_l]. }
  split; [by exists d|].
  intros Hpending. unfold after. rewrite Hpub, Hpending.
  clear -Hd. unfold in_run_order in Hd. apply among_elem in Hd. simpl in Hd.
  repeat (destruct Hd as [<-|Hd]; [vm_compute; reflexivity|]).
  destruct Hd.
Qed.

(** * Further properties of the code *)

(** ** Registry: broadcast and shutdown *)

Lemma socketAt_insert_ne (w : World.t) (h h' : nat) (s : Socket.t) :
  h <> h' ->
  World.socketAt (World.set_sockets (<[h := s]> (World.sockets w)) w) h'
  = World.socketAt w h'.
Proof. intros Hne. unfold World.socketAt. simpl. by rewrite lookup_insert_ne. Qed.

Lemma visit_cases (o : string -> SendOutcome) (message : Frame)
    (entry : string * nat) (w : World.t) :
  Broadcast.visit o message entry w
  = (Return tt,
     if Broadcast.reached o w entry
     then World.set_sockets
            (<[snd entry := Socket.mk OPEN
                 (Socket.sent (World.socketAt w (snd entry)) ++ [message])]>
               (World.sockets w)) w
     else World.set_connections (delete (fst entry) (World.connections w)) w).
Proof.
  unfold Broadcast.visit, Broadcast.reached, bind, gets, modify, ret, Ws.send. simpl.
  destruct (decide (Socket.readyState (World.socketAt w (snd entry)) = OPEN))
    as [Hopen|Hnot].
  - rewrite Hopen, bool_decide_eq_true_2 by done. simpl.
    by destruct (o (fst entry)).
  - by rewrite bool_decide_eq_false_2 by done.
Qed.

Lemma forEach_visit (o : string -> SendOutcome) (message : Frame)
    (good : string * nat -> bool) (l : list (string * nat)) :
  forall w1 : World.t,
    (forall e, Broadcast.reached o w1 e = good e) ->
    let r := forEach (Broadcast.visit o message) l w1 in
    fst r = Return tt /\
    World.db (snd r) = World.db w1 /\
    World.queue (snd r) = World.queue w1 /\
    World.connections (snd r) = prune good l (World.connections w1) /\
    (forall h, Socket.readyState (World.socketAt (snd r) h)
               = Socket.readyState (World.socketAt w1 h)) /\
    (forall h, Socket.sent (World.socketAt (snd r) h)
               = (Socket.sent (World.socketAt w1 h)
                  ++ replicate (hits good h l) message)%list).
Proof.
  induction l as [|[orderId socket] l IH]; intros w1 Hgood; cbv zeta.
  - simpl. repeat split. intros h. by rewrite app_nil_r.
  - assert (forEach (Broadcast.visit o message) ((orderId, socket) :: l) w1
            = forEach (Broadcast.visit o message) l
                (if good (orderId, socket)
                 then World.set_sockets
                        (<[socket := Socket.mk OPEN
                             (Socket.sent (World.socketAt w1 socket) ++ [message])]>
                           (World.sockets w1)) w1
                 else World.set_connections (delete orderId (World.connections w1)) w1))
      as -> by (simpl; unfold bind; by rewrite visit_cases, (Hgood (orderId, socket))).
    pose proof (Hgood (orderId, socket)) as Hx.
    unfold Broadcast.reached in Hx. simpl in Hx.
    unfold hits. simpl.
    destruct (good (orderId, socket)) eqn:Hg; simpl.
    + apply andb_true_iff in Hx as [Hopen _]. apply bool_decide_eq_true in Hopen.
      set (w2 := World.set_sockets
                   (<[socket := Socket.mk OPEN
                        (Socket.sent (World.socketAt w1 socket) ++ [message])]>
                      (World.sockets w1)) w1).
      assert (forall h, Socket.readyState (World.socketAt w2 h)
                        = Socket.readyState (World.socketAt w1 h)) as Hsame.
      { intros h. subst w2. destruct (decide (socket = h)) as [<-|Hne].
        - by rewrite socketAt_insert_eq.
        - by rewrite socketAt_insert_ne. }
      destruct (IH w2) as (Hret & Hdb & Hq & Hconn & Hst & Hsent).
      { intros e. rewrite <- Hgood. unfold Broadcast.reached. by rewrite Hsame. }
      split; [exact Hret|]. split; [exact Hdb|]. split; [exact Hq|].
      split; [exact Hconn|]. split.
      * intros h. by rewrite Hst, Hsame.
      * intros h. rewrite Hsent. subst w2. unfold hits.
        destruct (decide (socket = h)) as [<-|Hne].
        -- rewrite socketAt_insert_eq, bool_decide_eq_true_2 by done. simpl.
           by rewrite <- app_assoc.
        -- rewrite socketAt_insert_ne, bool_decide_eq_false_2 by done. reflexivity.
    + destruct (IH (World.set_connections (delete orderId (World.connections w1)) w1))
        as (Hret & Hdb & Hq & Hconn & Hst & Hsent); [exact Hgood|].
      split; [exact Hret|]. split; [exact Hdb|]. split; [exact Hq|].
      split; [exact Hconn|]. split; [exact Hst|].
      intros h. by rewrite Hsent.
Qed.

Lemma prune_lookup (good : string * nat -> bool) (l : list (string * nat))
    (m : gmap string nat) (id : string) :
  prune good l m !! id
  = if existsb (fun e => String.eqb (fst e) id && negb (good e)) l
    then None else m !! id.
Proof.
  revert m. induction l as [|[k h] l IH]; intros m; simpl; [reflexivity|].
  unfold prune in *. simpl. rewrite IH.
  destruct (existsb _ l); [by rewrite orb_true_r|]. rewrite orb_false_r.
  destruct (good (k, h)); simpl; [by rewrite andb_false_r|]. rewrite andb_true_r.
  destruct (String.eqb k id) eqn:Hk.
  - apply String.eqb_eq in Hk. subst k. apply lookup_delete_eq.
  - apply String.eqb_neq in Hk. by apply lookup_delete_ne.
Qed.

Lemma prune_map_to_list (good : string * nat -> bool) (m : gmap string nat)
    (id : string) :
  prune good (map_to_list m) m !! id
  = match m !! id with
    | Some h => if good (id, h) then Some h else None
    | None => None
    end.
Proof.
  rewrite prune_lookup.
  destruct (m !! id) as [h|] eqn:Hm.
  - destruct (good (id, h)) eqn:Hg.
    + destruct (existsb _ _) eqn:Hex; [|reflexivity].
      apply existsb_exists in Hex as ([k h'] & Hin & Hbad). simpl in Hbad.
      apply andb_true_iff in Hbad as [Hk Hbad]. apply String.eqb_eq in Hk. subst k.
      apply list_elem_of_In, elem_of_map_to_list in Hin.
      assert (h' = h) as -> by congruence. by rewrite Hg in Hbad.
    + assert (existsb (fun e => String.eqb (fst e) id && negb (good e)) (map_to_list m)
              = true) as ->; [|reflexivity].
      apply existsb_exists. exists (id, h). split.
      * by apply list_elem_of_In, elem_of_map_to_list.
      * simpl. by rewrite String.eqb_refl, Hg.
  - by destruct (existsb _ _).
Qed.

(** X1.  [broadcastToAll] never raises and touches neither the order table
    nor the queue.  Afterwards an order id is still registered exactly when
    its socket was open and its write went out; no socket changes its
    [readyState]; and every socket has received, on top of what it had, one
    copy of the message for each registry entry through which it was
    reached, and nothing else. *)
Theorem broadcastToAll_reaches_open_sockets_and_prunes_the_rest :
  forall (o : string -> SendOutcome) (message : Frame) (w : World.t),
    let r := Broadcast.broadcastToAll o message w in
    outcome r = Return tt /\
    World.db (after r) = World.db w /\
    World.queue (after r) = World.queue w /\
    (forall id : string,
        World.connections (after r) !! id
        = match World.connections w !! id with
          | Some h => if Broadcast.reached o w (id, h) then Some h else None
          | None => None
          end) /\
    (forall h : nat,
        Socket.readyState (World.socketAt (after r) h)
        = Socket.readyState (World.socketAt w h)) /\
    (forall h : nat,
        Socket.sent (World.socketAt (after r) h)
        = (Socket.sent (World.socketAt w h)
           ++ replicate (Broadcast.reaching o w h) message)%list).
Proof.
  intros o message w r. subst r.
  destruct (forEach_visit o message (Broadcast.reached o w)
              (map_to_list (World.connections w)) w (fun e => eq_refl))
    as (Hret & Hdb & Hq & Hconn & Hst & Hsent).
  unfold outcome, after, Broadcast.broadcastToAll, try_catch, bind, gets. simpl.
  destruct (forEach _ _ w) as [out w'] eqn:Hrun. simpl in *. subst out. simpl.
  split; [reflexivity|]. split; [exact Hdb|]. split; [exact Hq|].
  split; [|split; [exact Hst | exact Hsent]].
  intros id. rewrite Hconn. apply prune_map_to_list.
Qed.

Lemma shut_cases (entry : string * nat) (w : World.t) :
  Broadcast.shut entry w
  = (Return tt,
     if bool_decide (Socket.readyState (World.socketAt w (snd entry)) = OPEN)
     then World.set_sockets
            (<[snd entry := Socket.mk CLOSING (Socket.sent (World.socketAt w (snd entry)))]>
               (World.sockets w)) w
     else w).
Proof.
  unfold Broadcast.shut, bind, gets, ret, Ws.close, modify. simpl.
  destruct (decide (Socket.readyState (World.socketAt w (snd entry)) = OPEN))
    as [Hopen|Hnot].
  - by rewrite Hopen, bool_decide_eq_true_2.
  - by rewrite bool_decide_eq_false_2.
Qed.

Lemma bool_decide_elem_cons_ne (h s : nat) (l : list nat) :
  s <> h -> bool_decide (h ∈ s :: l) = bool_decide (h ∈ l).
Proof.
  intros Hne. apply bool_decide_ext. rewrite elem_of_cons.
  split; [intros [?|?]; [congruence|done] | by right].
Qed.

Lemma forEach_shut (l : list (string * nat)) :
  forall w1 : World.t,
    let r := forEach Broadcast.shut l w1 in
    fst r = Return tt /\
    World.db (snd r) = World.db w1 /\
    World.queue (snd r) = World.queue w1 /\
    World.connections (snd r) = World.connections w1 /\
    (forall h, Socket.sent (World.socketAt (snd r) h) = Socket.sent (World.socketAt w1 h)) /\
    (forall h, Socket.readyState (World.socketAt (snd r) h)
               = if bool_decide (Socket.readyState (World.socketAt w1 h) = OPEN)
                    && bool_decide (h ∈ l.*2)
                 then CLOSING
                 else Socket.readyState (World.socketAt w1 h)).
Proof.
  induction l as [|[orderId socket] l IH]; intros w1; cbv zeta.
  - simpl. repeat split. intros h.
    by rewrite andb_false_r.
  - assert (forEach Broadcast.shut ((orderId, socket) :: l) w1
            = forEach Broadcast.shut l
                (if bool_decide (Socket.readyState (World.socketAt w1 socket) = OPEN)
                 then World.set_sockets
                        (<[socket := Socket.mk CLOSING
                             (Socket.sent (World.socketAt w1 socket))]>
                           (World.sockets w1)) w1
                 else w1))
      as -> by (simpl; unfold bind; by rewrite shut_cases).
    destruct (bool_decide (Socket.readyState (World.socketAt w1 socket) = OPEN))
      eqn:Hopen.
    + apply bool_decide_eq_true in Hopen.
      destruct (IH (World.set_sockets
                      (<[socket := Socket.mk CLOSING
                           (Socket.sent (World.socketAt w1 socket))]>
                         (World.sockets w1)) w1))
        as (Hret & Hdb & Hq & Hconn & Hsent & Hst).
      split; [exact Hret|]. split; [exact Hdb|]. split; [exact Hq|].
      split; [exact Hconn|]. split.
      * intros h. rewrite Hsent. destruct (decide (socket = h)) as [<-|Hne].
        -- by rewrite socketAt_insert_eq.
        -- by rewrite socketAt_insert_ne.
      * intros h. rewrite Hst. simpl. destruct (decide (socket = h)) as [<-|Hne].
        -- rewrite socketAt_insert_eq. simpl.
           rewrite (bool_decide_eq_true_2 _ Hopen).
           by rewrite bool_decide_eq_true_2 by apply list_elem_of_here.
        -- rewrite socketAt_insert_ne by done.
           by rewrite bool_decide_elem_cons_ne by done.
    + apply bool_decide_eq_false in Hopen.
      destruct (IH w1) as (Hret & Hdb & Hq & Hconn & Hsent & Hst).
      split; [exact Hret|]. split; [exact Hdb|]. split; [exact Hq|].
      split; [exact Hconn|]. split; [exact Hsent|].
      intros h. rewrite Hst. simpl. destruct (decide (socket = h)) as [<-|Hne].
      * by rewrite !(bool_decide_eq_false_2 _ Hopen).
      * by rewrite bool_decide_elem_cons_ne by done.
Qed.

(** X2.  [closeAll] never raises, empties the registry and touches neither
    the order table, the queue nor the frames of any socket.  Every socket
    that was registered is left not open, an open one being CLOSING; a socket
    that was registered for no order id is exactly as it was. *)
Theorem closeAll_closes_registered_sockets_and_clears_registry :
  forall w : World.t,
    let r := Broadcast.closeAll w in
    outcome r = Return tt /\
    World.connections (after r) = ∅ /\
    World.db (after r) = World.db w /\
    World.queue (after r) = World.queue w /\
    (forall h : nat,
        Socket.sent (World.socketAt (after r) h) = Socket.sent (World.socketAt w h)) /\
    (forall (id : string) (h : nat),
        World.connections w !! id = Some h ->
        Socket.readyState (World.socketAt (after r) h) <> OPEN /\
        (Socket.readyState (World.socketAt w h) = OPEN ->
         Socket.readyState (World.socketAt (after r) h) = CLOSING)) /\
    (forall h : nat,
        (forall id : string, World.connections w !! id <> Some h) ->
        World.socketAt (after r) h = World.socketAt w h).
Proof.
  intros w r. subst r.
  destruct (forEach_shut (map_to_list (World.connections w)) w)
    as (Hret & Hdb & Hq & Hconn & Hsent & Hst).
  unfold outcome, after, Broadcast.closeAll, try_catch, bind, gets, modify. simpl.
  destruct (forEach _ _ w) as [out w'] eqn:Hrun. simpl in *. subst out. simpl.
  split; [reflexivity|]. split; [reflexivity|]. split; [exact Hdb|].
  split; [exact Hq|]. split; [exact Hsent|]. split.
  - intros id h Hreg.
    assert (h ∈ (map_to_list (World.connections w)).*2) as Hin.
    { apply list_elem_of_fmap. exists (id, h). split; [reflexivity|].
      by apply elem_of_map_to_list. }
    unfold World.socketAt in Hst |- *. simpl. rewrite Hst.
    rewrite (bool_decide_eq_true_2 _ Hin), andb_true_r.
    destruct (decide (Socket.readyState (default Socket.closed (World.sockets w !! h))
                      = OPEN)) as [Hopen|Hnot].
    + rewrite (bool_decide_eq_true_2 _ Hopen). split; [discriminate|reflexivity].
    + rewrite (bool_decide_eq_false_2 _ Hnot). split; [exact Hnot|contradiction].
  - intros h Hfree.
    assert (h ∉ (map_to_list (World.connections w)).*2) as Hout.
    { intros Hin. apply list_elem_of_fmap in Hin as ([id h'] & -> & Hin).
      apply elem_of_map_to_list in Hin. by apply (Hfree id). }
    specialize (Hst h). specialize (Hsent h).
    rewrite (bool_decide_eq_false_2 _ Hout), andb_false_r in Hst.
    unfold World.socketAt in *. simpl in *.
    destruct (default Socket.closed (World.sockets w' !! h)),
      (default Socket.closed (World.sockets w !! h)). simpl in *. by subst.
Qed.

Lemma closeAll_closes_registered_sockets_and_clears_registry_witness :
  Socket.readyState (World.socketAt (after (Broadcast.closeAll two_sockets)) 1) = CLOSING /\
  World.socketAt (after (Broadcast.closeAll two_sockets)) 2 = World.socketAt two_sockets 2.
Proof.
  pose proof (closeAll_closes_registered_sockets_and_clears_registry two_sockets)
    as (_ & _ & _ & _ & _ & Hreg & Hfree).
  split.
  - apply (proj2 (Hreg "o-1" 1%nat eq_refl)). reflexivity.
  - apply Hfree. intros id. unfold two_sockets. simpl.
    destruct (decide ("o-1" = id)) as [<-|Hne].
    + rewrite lookup_singleton_eq. discriminate.
    + rewrite lookup_singleton_ne by done. discriminate.
Defined.

(** ** Registry: unregistering, counting and publishing *)

Lemma closeConnection_cases (orderId : string) (w : World.t) :
  WebSocketManager.closeConnection orderId w
  = (Return tt,
     match World.connections w !! orderId with
     | None => w
     | Some h =>
         let w1 :=
           if bool_decide (Socket.readyState (World.socketAt w h) = OPEN)
           then World.set_sockets
                  (<[h := Socket.mk CLOSING (Socket.sent (World.socketAt w h))]>
                     (World.sockets w)) w
           else w in
         World.set_connections (delete orderId (World.connections w1)) w1
     end).
Proof.
  unfold WebSocketManager.closeConnection, Ws.close, try_catch, bind, gets, modify, ret.
  simpl. destruct (World.connections w !! orderId) as [h|]; [|reflexivity].
  destruct (decide (Socket.readyState (World.socketAt w h) = OPEN)) as [Hopen|Hnot].
  - by rewrite Hopen, bool_decide_eq_true_2.
  - by rewrite bool_decide_eq_false_2.
Qed.

(** X3.  [closeConnection] never raises and touches neither the order table
    nor the queue.  It removes the entry of the order id and no other; the
    socket that was registered is closed if it was open (it becomes CLOSING
    and keeps its frames) and is left alone otherwise; every other socket is
    as it was; with no entry for the order id nothing changes at all. *)
Theorem closeConnection_removes_the_entry_and_closes_an_open_socket :
  forall (orderId : string) (w : World.t),
    let r := WebSocketManager.closeConnection orderId w in
    outcome r = Return tt /\
    World.connections (after r) = delete orderId (World.connections w) /\
    World.db (after r) = World.db w /\
    World.queue (after r) = World.queue w /\
    (World.connections w !! orderId = None -> after r = w) /\
    (forall h : nat,
        World.connections w !! orderId = Some h ->
        World.socketAt (after r) h
        = if bool_decide (Socket.readyState (World.socketAt w h) = OPEN)
          then Socket.mk CLOSING (Socket.sent (World.socketAt w h))
          else World.socketAt w h) /\
    (forall h : nat,
        World.connections w !! orderId <> Some h ->
        World.socketAt (after r) h = World.socketAt w h).
Proof.
  intros orderId w r. subst r. unfold outcome, after.
  rewrite closeConnection_cases. simpl.
  destruct (World.connections w !! orderId) as [h0|] eqn:Hreg.
  - destruct (bool_decide (Socket.readyState (World.socketAt w h0) = OPEN)) eqn:Hopen;
      simpl.
    + repeat split; try discriminate.
      * intros h [= <-]. rewrite Hopen. unfold World.socketAt. simpl.
        by rewrite lookup_insert_eq.
      * intros h Hne. unfold World.socketAt. simpl.
        rewrite lookup_insert_ne; [reflexivity|congruence].
    + repeat split; try discriminate.
      intros h [= <-]. by rewrite Hopen.
  - split; [reflexivity|]. split; [by rewrite delete_id|].
    repeat split; discriminate.
Qed.

Lemma closeConnection_removes_the_entry_and_closes_an_open_socket_witness :
  after (WebSocketManager.closeConnection "o-2" two_sockets) = two_sockets /\
  World.socketAt (after (WebSocketManager.closeConnection "o-1" two_sockets)) 1
  = Socket.mk CLOSING [] /\
  World.socketAt (after (WebSocketManager.closeConnection "o-1" two_sockets)) 2
  = Socket.mk OPEN [].
Proof.
  split; [|split].
  - apply (closeConnection_removes_the_entry_and_closes_an_open_socket "o-2" two_sockets).
    reflexivity.
  - apply (closeConnection_removes_the_entry_and_closes_an_open_socket "o-1" two_sockets).
    reflexivity.
  - apply (closeConnection_removes_the_entry_and_closes_an_open_socket "o-1" two_sockets).
    discriminate.
Defined.

(** X4.  Once an order id is unregistered, whether by [closeConnection] or
    by the handlers of the socket's 'close' and 'error' events, unregistering
    it again and publishing a status for it change nothing: the order can
    keep executing without a listener. *)
Theorem nothing_happens_for_an_unregistered_order :
  forall (orderId : string) (w : World.t) (o : SendOutcome) (status : OrderStatus)
         (extra : Extra.t),
    let gone :=
      [after (WebSocketManager.closeConnection orderId w);
       after (WebSocketManager.onSocketClose orderId w);
       after (WebSocketManager.onSocketError orderId w);
       after (OrderRoutes.onClientClose orderId w)] in
    Forall (fun w' =>
              WebSocketManager.closeConnection orderId w' = (Return tt, w') /\
              WebSocketManager.sendStatusUpdate o orderId status extra w'
              = (Return tt, w') /\
              WebSocketManager.hasConnection w' orderId = false) gone.
Proof.
  intros orderId w o status extra gone. subst gone.
  assert (forall w', World.connections w' !! orderId = None ->
            WebSocketManager.closeConnection orderId w' = (Return tt, w') /\
            WebSocketManager.sendStatusUpdate o orderId status extra w' = (Return tt, w') /\
            WebSocketManager.hasConnection w' orderId = false) as Hquiet.
  { intros w' Hnone. split; [|split].
    - rewrite closeConnection_cases. by rewrite Hnone.
    - unfold WebSocketManager.sendStatusUpdate, try_catch, bind, gets, ret. simpl.
      by rewrite Hnone.
    - unfold WebSocketManager.hasConnection. rewrite Hnone.
      apply bool_decide_eq_false_2. by intros [? ?]. }
  assert (World.connections (after (WebSocketManager.closeConnection orderId w))
          !! orderId = None) as Hclosed.
  { unfold after. rewrite closeConnection_cases. simpl.
    destruct (World.connections w !! orderId) eqn:Hreg; [|exact Hreg].
    simpl. destruct (bool_decide _); simpl; apply lookup_delete_eq. }
  repeat constructor; apply Hquiet; try exact Hclosed;
    try (simpl; apply lookup_delete_eq).
Qed.

Lemma registerConnection_cases (orderId : string) (socket : nat) (w : World.t) :
  WebSocketManager.registerConnection orderId socket w
  = (Return tt,
     let w1 := after (WebSocketManager.closeConnection orderId w) in
     World.set_connections (<[orderId := socket]> (World.connections w1)) w1).
Proof.
  unfold WebSocketManager.registerConnection, try_catch, bind, gets, modify, ret, after.
  simpl. rewrite closeConnection_cases.
  destruct (World.connections w !! orderId) as [h|] eqn:Hreg.
  - rewrite bool_decide_eq_true_2 by (by eexists). by rewrite closeConnection_cases, Hreg.
  - rewrite bool_decide_eq_false_2 by (by intros [? ?]). reflexivity.
Qed.

Lemma sendStatusUpdate_no_entry (o : SendOutcome) (orderId : string)
    (status : OrderStatus) (extra : Extra.t) (w : World.t) :
  World.connections w !! orderId = None ->
  WebSocketManager.sendStatusUpdate o orderId status extra w = (Return tt, w).
Proof.
  intros Hnone.
  unfold WebSocketManager.sendStatusUpdate, try_catch, bind, gets, ret. simpl.
  by rewrite Hnone.
Qed.

Lemma closeConnection_connections (orderId : string) (w : World.t) :
  World.connections (after (WebSocketManager.closeConnection orderId w))
  = delete orderId (World.connections w).
Proof.
  unfold after. rewrite closeConnection_cases. simpl.
  destruct (World.connections w !! orderId) eqn:Hreg; [|by rewrite delete_id].
  simpl. by destruct (bool_decide _).
Qed.

Lemma closeConnection_other_socket (orderId : string) (w : World.t) (h : nat) :
  World.connections w !! orderId <> Some h ->
  World.socketAt (after (WebSocketManager.closeConnection orderId w)) h
  = World.socketAt w h.
Proof.
  intros Hv. unfold after. rewrite closeConnection_cases. simpl.
  destruct (World.connections w !! orderId) as [h0|] eqn:Hreg; [|reflexivity].
  simpl. destruct (bool_decide _); [|reflexivity].
  unfold World.socketAt. simpl. rewrite lookup_insert_ne; [reflexivity|congruence].
Qed.

Lemma registerConnection_connections (orderId : string) (socket : nat) (w : World.t) :
  World.connections (after (WebSocketManager.registerConnection orderId socket w))
  = <[orderId := socket]> (World.connections w).
Proof.
  unfold after at 1. rewrite registerConnection_cases. simpl.
  rewrite closeConnection_connections. apply insert_delete_eq.
Qed.

Lemma registerConnection_other_socket (orderId : string) (socket : nat)
    (w : World.t) (h : nat) :
  World.connections w !! orderId <> Some h ->
  World.socketAt (after (WebSocketManager.registerConnection orderId socket w)) h
  = World.socketAt w h.
Proof.
  intros Hv. unfold after at 1. rewrite registerConnection_cases. simpl.
  by apply (closeConnection_other_socket orderId w h).
Qed.

(** X5.  [getConnectionCount] and [hasConnection] follow the registry:
    registering makes [hasConnection] true, and raises the count by one for
    an order id that had no entry while it keeps the count for one that had;
    [closeConnection] makes [hasConnection] false, and lowers the count by
    one for an order id that had an entry while it keeps the count for one
    that had none. *)
Theorem connection_count_follows_register_and_close :
  forall (orderId : string) (socket : nat) (w : World.t),
    let registered := after (WebSocketManager.registerConnection orderId socket w) in
    let closed := after (WebSocketManager.closeConnection orderId w) in
    WebSocketManager.hasConnection registered orderId = true /\
    WebSocketManager.hasConnection closed orderId = false /\
    (WebSocketManager.hasConnection w orderId = false ->
     WebSocketManager.getConnectionCount registered
     = S (WebSocketManager.getConnectionCount w) /\
     WebSocketManager.getConnectionCount closed = WebSocketManager.getConnectionCount w) /\
    (WebSocketManager.hasConnection w orderId = true ->
     WebSocketManager.getConnectionCount registered = WebSocketManager.getConnectionCount w /\
     S (WebSocketManager.getConnectionCount closed) = WebSocketManager.getConnectionCount w).
Proof.
  intros orderId socket w registered closed.
  pose proof (closeConnection_connections orderId w) as Hclosed.
  pose proof (registerConnection_connections orderId socket w) as Hregistered.
  fold closed in Hclosed. fold registered in Hregistered.
  unfold WebSocketManager.hasConnection, WebSocketManager.getConnectionCount.
  rewrite Hclosed, Hregistered, lookup_insert_eq, lookup_delete_eq.
  split; [by apply bool_decide_eq_true_2|].
  split; [apply bool_decide_eq_false_2; by intros [? ?]|].
  split.
  - intros Hno. apply bool_decide_eq_false in Hno.
    assert (World.connections w !! orderId = None) as Hnone.
    { destruct (World.connections w !! orderId) eqn:E; [|reflexivity].
      destruct Hno. by eexists. }
    split; [by apply map_size_insert_None | by rewrite delete_id].
  - intros Hyes. apply bool_decide_eq_true in Hyes as [h Hsome].
    split; [apply map_size_insert_Some; by eexists|].
    rewrite map_size_delete_Some by (by eexists).
    assert (size (World.connections w) <> 0) as Hpos.
    { intros Hzero. apply map_size_empty_iff in Hzero. rewrite Hzero in Hsome.
      by rewrite lookup_empty in Hsome. }
    lia.
Qed.

Lemma connection_count_follows_register_and_close_witness :
  WebSocketManager.getConnectionCount
    (after (WebSocketManager.registerConnection "o-2" 2 two_sockets)) = 2 /\
  WebSocketManager.getConnectionCount
    (after (WebSocketManager.registerConnection "o-1" 2 two_sockets)) = 1.
Proof.
  split.
  - apply (proj1 (proj1 (proj2 (proj2 (connection_count_follows_register_and_close
                                         "o-2" 2%nat two_sockets))) eq_refl)).
  - apply (proj1 (proj2 (proj2 (proj2 (connection_count_follows_register_and_close
                                         "o-1" 2%nat two_sockets))) eq_refl)).
Defined.

(** X6.  The handler that [registerConnection] installs for the 'close'
    event of a socket removes the entry of the order id whichever socket holds
    it.  So when a second socket has replaced the first for an order id and
    the 'close' event of the first one then fires, the second socket, still
    open, is no longer registered: [hasConnection] is false and a status
    update for the order id is written on no socket. *)
Theorem close_event_of_replaced_socket_unregisters_the_replacement :
  forall (orderId : string) (h1 h2 : nat) (w : World.t) (o : SendOutcome)
         (status : OrderStatus) (extra : Extra.t),
    h1 <> h2 ->
    World.connections w !! orderId = None ->
    Socket.readyState (World.socketAt w h2) = OPEN ->
    let replaced :=
      after (WebSocketManager.registerConnection orderId h2
               (after (WebSocketManager.registerConnection orderId h1 w))) in
    let w' := after (WebSocketManager.onSocketClose orderId replaced) in
    World.connections replaced !! orderId = Some h2 /\
    Socket.readyState (World.socketAt w' h2) = OPEN /\
    WebSocketManager.hasConnection w' orderId = false /\
    WebSocketManager.sendStatusUpdate o orderId status extra w' = (Return tt, w').
Proof.
  intros orderId h1 h2 w o status extra Hne Hfresh Hopen replaced w'.
  set (w1 := after (WebSocketManager.registerConnection orderId h1 w)) in *.
  assert (World.connections w1 !! orderId = Some h1) as Hreg1.
  { subst w1. rewrite registerConnection_connections. apply lookup_insert_eq. }
  assert (World.socketAt w1 h2 = World.socketAt w h2) as Hs1.
  { subst w1. apply registerConnection_other_socket. by rewrite Hfresh. }
  assert (World.socketAt replaced h2 = World.socketAt w1 h2) as Hs2.
  { subst replaced. apply registerConnection_other_socket. rewrite Hreg1. congruence. }
  assert (World.connections w' !! orderId = None) as Hgone.
  { subst w'. simpl. apply lookup_delete_eq. }
  split; [subst replaced; rewrite registerConnection_connections; apply lookup_insert_eq|].
  split.
  { assert (World.socketAt w' h2 = World.socketAt replaced h2) as -> by reflexivity.
    by rewrite Hs2, Hs1. }
  split.
  - unfold WebSocketManager.hasConnection. rewrite Hgone.
    apply bool_decide_eq_false_2. by intros [? ?].
  - by apply sendStatusUpdate_no_entry.
Qed.

Lemma close_event_of_replaced_socket_unregisters_the_replacement_witness :
  let replaced :=
    after (WebSocketManager.registerConnection "o-2" 2
             (after (WebSocketManager.registerConnection "o-2" 1 two_sockets))) in
  WebSocketManager.hasConnection
    (after (WebSocketManager.onSocketClose "o-2" replaced)) "o-2" = false.
Proof.
  assert (1%nat <> 2%nat) as Hne by discriminate.
  apply (close_event_of_replaced_socket_unregisters_the_replacement
           "o-2" 1%nat 2%nat two_sockets Delivered ROUTING Extra.none Hne);
    reflexivity.
Defined.

(** X7.  Registering an open socket for an order id and then publishing a
    status for that id: when the write goes out, the socket receives exactly
    one more frame, the status update of that order with the data passed
    along, and stays registered; when the write fails, the socket receives
    nothing and the order id is unregistered.  (The socket must not already
    be the one registered for the id, see the next property.) *)
Theorem register_then_publish_reaches_the_socket :
  forall (orderId : string) (h : nat) (w : World.t) (status : OrderStatus)
         (extra : Extra.t),
    Socket.readyState (World.socketAt w h) = OPEN ->
    World.connections w !! orderId <> Some h ->
    let w1 := after (WebSocketManager.registerConnection orderId h w) in
    let sent := WebSocketManager.sendStatusUpdate Delivered orderId status extra w1 in
    let lost := WebSocketManager.sendStatusUpdate WriteFailed orderId status extra w1 in
    outcome sent = Return tt /\
    World.socketAt (after sent) h
    = Socket.mk OPEN (Socket.sent (World.socketAt w h)
                      ++ [StatusFrame orderId status extra]) /\
    World.connections (after sent) !! orderId = Some h /\
    outcome lost = Return tt /\
    World.socketAt (after lost) h = World.socketAt w h /\
    World.connections (after lost) !! orderId = None.
Proof.
  intros orderId h w status extra Hopen Hother w1 sent lost.
  assert (World.connections w1 !! orderId = Some h) as Hreg.
  { subst w1. rewrite registerConnection_connections. apply lookup_insert_eq. }
  assert (World.socketAt w1 h = World.socketAt w h) as Hsock.
  { subst w1. by apply registerConnection_other_socket. }
  assert (Socket.readyState (World.socketAt w1 h) = OPEN) as Hopen1
    by (by rewrite Hsock).
  subst sent lost. unfold outcome, after.
  unfold WebSocketManager.sendStatusUpdate, Ws.send, try_catch, bind, gets, modify, ret.
  simpl. rewrite Hreg, Hopen1. simpl. rewrite Hopen1. simpl.
  rewrite socketAt_insert_eq, Hreg, lookup_delete_eq, <- Hsock.
  repeat split.
Qed.

Lemma register_then_publish_reaches_the_socket_witness :
  World.socketAt
    (after (WebSocketManager.sendStatusUpdate Delivered "o-2" ROUTING Extra.none
              (after (WebSocketManager.registerConnection "o-2" 2 two_sockets)))) 2
  = Socket.mk OPEN [StatusFrame "o-2" ROUTING Extra.none].
Proof.
  assert (World.connections two_sockets !! "o-2" <> Some 2%nat) as Hother
    by (vm_compute; discriminate).
  apply (register_then_publish_reaches_the_socket "o-2" 2%nat two_sockets ROUTING
           Extra.none eq_refl Hother).
Defined.

(** X8.  [registerConnection] closes whatever socket holds the order id
    before it registers the new one, the new one included: registering again
    the open socket that is already registered for the id leaves it CLOSING
    in the registry, and the next status update for the id finds it not
    open, removes the entry and writes nothing. *)
Theorem registering_the_same_socket_again_closes_it :
  forall (orderId : string) (h : nat) (w : World.t) (o : SendOutcome)
         (status : OrderStatus) (extra : Extra.t),
    World.connections w !! orderId = Some h ->
    Socket.readyState (World.socketAt w h) = OPEN ->
    let w1 := after (WebSocketManager.registerConnection orderId h w) in
    let r := WebSocketManager.sendStatusUpdate o orderId status extra w1 in
    World.connections w1 !! orderId = Some h /\
    World.socketAt w1 h = Socket.mk CLOSING (Socket.sent (World.socketAt w h)) /\
    World.connections (after r) !! orderId = None /\
    World.sockets (after r) = World.sockets w1.
Proof.
  intros orderId h w o status extra Hreg Hopen w1 r.
  assert (World.connections w1 !! orderId = Some h) as Hreg1.
  { subst w1. rewrite registerConnection_connections. apply lookup_insert_eq. }
  assert (World.socketAt w1 h = Socket.mk CLOSING (Socket.sent (World.socketAt w h)))
    as Hsock.
  { subst w1. unfold after at 1. rewrite registerConnection_cases. simpl.
    unfold after. rewrite closeConnection_cases, Hreg. simpl.
    rewrite (bool_decide_eq_true_2 _ Hopen). unfold World.socketAt. simpl.
    by rewrite lookup_insert_eq. }
  split; [exact Hreg1|]. split; [exact Hsock|].
  subst r. unfold after.
  unfold WebSocketManager.sendStatusUpdate, try_catch, bind, gets, modify, ret.
  simpl. rewrite Hreg1, Hsock. simpl. split; [apply lookup_delete_eq|reflexivity].
Qed.

Lemma registering_the_same_socket_again_closes_it_witness :
  World.socketAt (after (WebSocketManager.registerConnection "o-1" 1 two_sockets)) 1
  = Socket.mk CLOSING [].
Proof.
  apply (registering_the_same_socket_again_closes_it "o-1" 1%nat two_sockets
           Delivered ROUTING Extra.none eq_refl eq_refl).
Defined.

(** ** Route selection and execution *)

Lemma SFcompare_antisym (x y : spec_float) :
  SFcompare x y = option_map CompOpp (SFcompare y x).
Proof.
  destruct x as [sx|sx| |sx mx ex], y as [sy|sy| |sy my ey]; simpl;
    try reflexivity; try (destruct sx; reflexivity); try (destruct sy; reflexivity);
    try (destruct sx, sy; reflexivity).
  destruct sx, sy; simpl; try reflexivity;
    rewrite (Z.compare_antisym ex ey); destruct (ex ?= ey)%Z; simpl; try reflexivity;
    rewrite (Pos.compare_cont_antisym my mx Eq); reflexivity.
Qed.

Lemma SFcompare_refl (x : spec_float) :
  x <> S754_nan -> SFcompare x x = Some Eq.
Proof.
  destruct x as [s|s| |s m e]; simpl; intros Hx; try reflexivity.
  - by destruct s.
  - contradiction.
  - destruct s; rewrite Z.compare_refl, Pos.compare_cont_refl; reflexivity.
Qed.

Lemma is_nan_false (x : float) :
  PrimFloat.is_nan x = false -> Prim2SF x <> S754_nan.
Proof.
  unfold is_nan. rewrite FloatAxioms.eqb_spec. intros H Hnan.
  rewrite Hnan in H. discriminate.
Qed.

Lemma leb_refl_not_nan (x : float) :
  PrimFloat.is_nan x = false -> PrimFloat.leb x x = true.
Proof.
  intros Hx. rewrite FloatAxioms.leb_spec. unfold SFleb.
  by rewrite SFcompare_refl by (by apply is_nan_false).
Qed.

Lemma ltb_leb (x y : float) :
  PrimFloat.ltb x y = true -> PrimFloat.leb x y = true.
Proof.
  rewrite FloatAxioms.ltb_spec, FloatAxioms.leb_spec. unfold SFltb, SFleb.
  by destruct (SFcompare _ _) as [[]|].
Qed.

Lemma not_ltb_leb (x y : float) :
  PrimFloat.is_nan x = false -> PrimFloat.is_nan y = false ->
  PrimFloat.ltb y x = false -> PrimFloat.leb x y = true.
Proof.
  intros Hx Hy. apply is_nan_false in Hx, Hy.
  rewrite FloatAxioms.ltb_spec, FloatAxioms.leb_spec. unfold SFltb, SFleb.
  rewrite (SFcompare_antisym (Prim2SF x) (Prim2SF y)).
  destruct (SFcompare (Prim2SF y) (Prim2SF x)) as [[]|] eqn:Hc; simpl;
    try reflexivity; try discriminate.
  intros _. exfalso.
  destruct (Prim2SF x) as [?|?| |[] ? ?], (Prim2SF y) as [?|?| |[] ? ?];
    simpl in Hc; try discriminate; try contradiction;
    try (by destruct b); try (by destruct b, b0).
Qed.

(** X9.  [selectBestRoute] always returns one of its two operands, and when
    neither estimated output is NaN the operand it returns has an estimated
    output at least as large as that of each operand: the route with the
    best output after fees is the one selected.  When the first output is
    NaN the second operand is returned. *)
Theorem selectBestRoute_returns_an_operand_of_greatest_output :
  forall a b : DexQuote.t,
    let best := MockDexRouter.selectBestRoute a b in
    (best = a \/ best = b) /\
    (PrimFloat.is_nan (DexQuote.estimatedOutput a) = false ->
     PrimFloat.is_nan (DexQuote.estimatedOutput b) = false ->
     PrimFloat.leb (DexQuote.estimatedOutput a) (DexQuote.estimatedOutput best) = true /\
     PrimFloat.leb (DexQuote.estimatedOutput b) (DexQuote.estimatedOutput best) = true) /\
    (PrimFloat.is_nan (DexQuote.estimatedOutput a) = true -> best = b).
Proof.
  intros a b best. subst best. unfold MockDexRouter.selectBestRoute, Js.gt.
  destruct (PrimFloat.ltb (DexQuote.estimatedOutput b) (DexQuote.estimatedOutput a))
    eqn:Hlt.
  - split; [by left|]. split.
    + intros Ha Hb. split; [by apply leb_refl_not_nan | by apply ltb_leb].
    + intros Hnan. exfalso. unfold is_nan in Hnan.
      rewrite FloatAxioms.eqb_spec in Hnan. rewrite FloatAxioms.ltb_spec in Hlt.
      unfold SFltb in Hlt. unfold SFeqb in Hnan.
      destruct (Prim2SF (DexQuote.estimatedOutput a)) as [?|?| |? ? ?] eqn:Ea.
      * simpl in Hnan. discriminate.
      * rewrite SFcompare_refl in Hnan by discriminate. discriminate.
      * by destruct (Prim2SF (DexQuote.estimatedOutput b)).
      * rewrite SFcompare_refl in Hnan by discriminate. discriminate.
  - split; [by right|]. split.
    + intros Ha Hb. split; [by apply not_ltb_leb | by apply leb_refl_not_nan].
    + reflexivity.
Qed.

Lemma selectBestRoute_returns_an_operand_of_greatest_output_witness :
  PrimFloat.leb 99.7 (DexQuote.estimatedOutput
    (MockDexRouter.selectBestRoute (quote_with "Raydium" 99.7)
                                   (quote_with "Meteora" 100.098))) = true.
Proof.
  apply (proj1 (proj2 (selectBestRoute_returns_an_operand_of_greatest_output
                         (quote_with "Raydium" 99.7) (quote_with "Meteora" 100.098))));
    reflexivity.
Defined.



(** ** The store during one run of the driver *)

Lemma sendStatusUpdate_store (o : SendOutcome) (orderId : string)
    (status : OrderStatus) (extra : Extra.t) (w : World.t) :
  exists w' : World.t,
    WebSocketManager.sendStatusUpdate o orderId status extra w = (Return tt, w') /\
    World.db w' = World.db w /\ World.queue w' = World.queue w.
Proof.
  unfold WebSocketManager.sendStatusUpdate, try_catch, bind, gets, modify, ret.
  simpl. destruct (World.connections w !! orderId) as [h|]; [|by eexists].
  destruct (decide (Socket.readyState (World.socketAt w h) <> OPEN)) as [Hn|Hy];
    [by eexists|].
  unfold Ws.send.
  destruct (Socket.readyState (World.socketAt w h)); try by eexists.
  destruct o; by eexists.
Qed.

Lemma same_request_refl (o : Order.t) : same_request o o.
Proof. by repeat split. Qed.

Lemma same_request_trans (a b c : Order.t) :
  same_request a b -> same_request b c -> same_request a c.
Proof.
  intros (H1 & H2 & H3 & H4 & H5) (G1 & G2 & G3 & G4 & G5).
  repeat split; congruence.
Qed.

Lemma later_version_refl (o : Order.t) : later_version o o.
Proof. split; [apply same_request_refl|]. split; [by left|]. by left. Qed.

Lemma later_version_trans (a b c : Order.t) :
  later_version a b -> later_version b c -> later_version a c.
Proof.
  intros (Hr1 & Hs1 & Hx1) (Hr2 & Hs2 & Hx2).
  split; [by eapply same_request_trans|]. split.
  - destruct Hs2 as [->|Hs2]; [exact Hs1|by right].
  - destruct Hx2 as [(E1 & E2 & E3)|Hx2]; [|by right].
    destruct Hx1 as [(F1 & F2 & F3)|(F1 & F2 & F3)].
    + left. repeat split; congruence.
    + right. rewrite E1, E2, E3. done.
Qed.

Lemma later_version_with_status (s : OrderStatus) (o : Order.t) :
  s <> PENDING -> later_version o (Order.with_status s o).
Proof.
  intros Hs. split; [by repeat split|]. split; [by right|]. by left.
Qed.

Lemma later_version_with_execution (s : OrderStatus) (h : string) (p : float)
    (d : string) (o : Order.t) :
  s <> PENDING -> later_version o (Order.with_execution s h p d o).
Proof.
  intros Hs. split; [by repeat split|]. split; [by right|].
  right. simpl. repeat split; by eexists.
Qed.

Lemma touches_only_refl (orderId : string) (w : World.t) : touches_only orderId w w.
Proof.
  split; [done|]. split; [done|].
  intros o' Ho'. exists o'. split; [done|apply later_version_refl].
Qed.

Lemma touches_only_trans (orderId : string) (a b c : World.t) :
  touches_only orderId a b -> touches_only orderId b c -> touches_only orderId a c.
Proof.
  intros (Hq1 & Ho1 & Hr1) (Hq2 & Ho2 & Hr2).
  split; [congruence|]. split.
  - intros id' Hne. rewrite (Ho2 id' Hne). by apply Ho1.
  - intros o'' Ho''. destruct (Hr2 o'' Ho'') as (o' & Ho' & Hl2).
    destruct (Hr1 o' Ho') as (o & Ho & Hl1).
    exists o. split; [done|]. by eapply later_version_trans.
Qed.

Lemma touches_only_same_store (orderId : string) (w w' : World.t) :
  World.db w' = World.db w -> World.queue w' = World.queue w ->
  touches_only orderId w w'.
Proof.
  intros Hdb Hq. split; [done|]. split; [by rewrite Hdb|].
  intros o' Ho'. rewrite Hdb in Ho'. exists o'. split; [done|apply later_version_refl].
Qed.

Section Keeps.
Context (R : World.t -> World.t -> Prop).
Hypothesis R_refl : forall w, R w w.
Hypothesis R_trans : forall a b c, R a b -> R b c -> R a c.

Lemma keeps_ret {A} (a : A) : keeps R (ret a).
Proof. intros w. apply R_refl. Qed.

Lemma keeps_throw {A} (e : Js.Thrown) : keeps R (throw (A := A) e).
Proof. intros w. apply R_refl. Qed.

Lemma keeps_bind {A B} (m : M A) (k : A -> M B) :
  keeps R m -> (forall a, keeps R (k a)) -> keeps R (bind m k).
Proof.
  intros Hm Hk w. unfold bind. specialize (Hm w).
  destruct (m w) as [[a|e] w1]; simpl in *; [|done].
  eapply R_trans; [exact Hm|apply Hk].
Qed.

Lemma keeps_try_catch {A} (m : M A) (handler : Js.Thrown -> M A) :
  keeps R m -> (forall e, keeps R (handler e)) -> keeps R (try_catch m handler).
Proof.
  intros Hm Hk w. unfold try_catch. specialize (Hm w).
  destruct (m w) as [[a|e] w1]; simpl in *; [done|].
  eapply R_trans; [exact Hm|apply Hk].
Qed.
End Keeps.

Lemma update_touches_only (fault : option Js.Thrown) (orderId : string)
    (data : Order.t -> Order.t) :
  (forall o, later_version o (data o)) ->
  keeps (touches_only orderId) (Prisma.update fault orderId data).
Proof.
  intros Hdata w. unfold Prisma.update.
  destruct fault; [apply touches_only_refl|].
  destruct (World.db w !! orderId) as [o|] eqn:Ho; [|apply touches_only_refl].
  simpl. split; [done|]. split.
  - intros id' Hne. simpl. by rewrite lookup_insert_ne.
  - intros o'. simpl. rewrite lookup_insert_eq. intros [= <-].
    exists o. split; [done|apply Hdata].
Qed.

Lemma updateOrderStatus_touches_only (fault : option Js.Thrown) (orderId : string)
    (status : OrderStatus) :
  status <> PENDING ->
  keeps (touches_only orderId) (OrderProcessor.updateOrderStatus fault orderId status).
Proof.
  intros Hs. unfold OrderProcessor.updateOrderStatus.
  apply keeps_try_catch;
    [apply touches_only_trans| |intros e; apply keeps_throw, touches_only_refl].
  apply keeps_bind; [apply touches_only_trans| |intros a; apply keeps_ret, touches_only_refl].
  apply update_touches_only. intros o. by apply later_version_with_status.
Qed.

Lemma emit_touches_only (emitter : option Emitter) (o : SendOutcome) (orderId : string)
    (status : OrderStatus) (extra : Extra.t) :
  emitter = None \/ emitter = Some serverEmitter ->
  keeps (touches_only orderId)
        (OrderProcessor.emitWebSocketUpdate emitter o orderId status extra).
Proof.
  intros [->| ->] w; simpl; [apply touches_only_refl|].
  unfold serverEmitter.
  destruct (sendStatusUpdate_store o orderId status extra w) as (w' & -> & Hdb & Hq).
  by apply touches_only_same_store.
Qed.

Lemma deleted_touches_only (orderId : string) :
  keeps (touches_only orderId) (Prisma.deleted orderId).
Proof.
  intros w. unfold Prisma.deleted, modify. simpl.
  split; [done|]. split.
  - intros id' Hne. simpl. by rewrite lookup_delete_ne.
  - intros o'. simpl. by rewrite lookup_delete_eq.
Qed.

Lemma findUnique_same_state (fault : option Js.Thrown) (id : string) (w : World.t) :
  snd (Prisma.findUnique fault id w) = w.
Proof. unfold Prisma.findUnique. by destruct fault. Qed.

Lemma executeBestRoute_same_state (env : RouteEnv.t) (order : Order.t) (w : World.t) :
  snd (MockDexRouter.executeBestRoute env order w) = w.
Proof.
  unfold MockDexRouter.executeBestRoute, MockDexRouter.bothQuotes, try_catch, bind,
    ret, throw.
  by destruct (RouteEnv.raydium_fault env), (RouteEnv.meteora_fault env).
Qed.

Lemma processOrder_touches_only (emitter : option Emitter) (env : RunEnv.t)
    (orderData : OrderJobData.t) :
  emitter = None \/ emitter = Some serverEmitter ->
  keeps (touches_only (OrderJobData.id orderData))
        (OrderProcessor.processOrder emitter env orderData).
Proof.
  intros Hem.
  pose proof (touches_only_trans (OrderJobData.id orderData)) as Ht.
  pose proof (touches_only_refl (OrderJobData.id orderData)) as Hr.
  unfold OrderProcessor.processOrder.
  apply keeps_try_catch; [exact Ht| |].
  - unfold OrderProcessor.processOrder_try. cbv zeta.
    apply keeps_bind; [exact Ht|by apply updateOrderStatus_touches_only|intros _].
    apply keeps_bind; [exact Ht|by apply emit_touches_only|intros _].
    apply keeps_bind; [exact Ht| |intros _].
    { destruct (RunEnv.vanished env);
        [apply deleted_touches_only|by apply keeps_ret]. }
    apply keeps_bind; [exact Ht| |intros [order|]; [|by apply keeps_throw]].
    { intros w. rewrite findUnique_same_state. apply Hr. }
    apply keeps_bind; [exact Ht|by apply updateOrderStatus_touches_only|intros _].
    apply keeps_bind; [exact Ht|by apply emit_touches_only|intros _].
    apply keeps_bind; [exact Ht| |intros x].
    { intros w. rewrite executeBestRoute_same_state. apply Hr. }
    apply keeps_bind; [exact Ht| |intros _].
    { apply update_touches_only. intros o. by apply later_version_with_execution. }
    apply keeps_bind; [exact Ht|by apply emit_touches_only|intros _].
    apply keeps_bind; [exact Ht|by apply updateOrderStatus_touches_only|intros _].
    by apply emit_touches_only.
  - intros e. unfold OrderProcessor.processOrder_catch. cbv zeta.
    apply keeps_bind; [exact Ht|by apply updateOrderStatus_touches_only|intros _].
    apply keeps_bind; [exact Ht|by apply emit_touches_only|intros _].
    by apply keeps_throw.
Qed.

Lemma bind_return_inv {A B} (m : M A) (k : A -> M B) (w w' : World.t) (b : B) :
  bind m k w = (Return b, w') ->
  exists (a : A) (w1 : World.t), m w = (Return a, w1) /\ k a w1 = (Return b, w').
Proof.
  unfold bind. destruct (m w) as [[a|e] w1]; [|done].
  intros Hk. by exists a, w1.
Qed.

Lemma update_return_inv (fault : option Js.Thrown) (id : string)
    (data : Order.t -> Order.t) (w w' : World.t) (r : Order.t) :
  Prisma.update fault id data w = (Return r, w') ->
  fault = None /\
  exists o : Order.t,
    World.db w !! id = Some o /\ r = data o /\
    w' = World.set_db (<[id := data o]> (World.db w)) w.
Proof.
  unfold Prisma.update. destruct fault; [done|].
  destruct (World.db w !! id) as [o|]; [|done].
  intros [= <- <-]. split; [done|]. by exists o.
Qed.

Lemma updateOrderStatus_return_inv (fault : option Js.Thrown) (id : string)
    (status : OrderStatus) (w w' : World.t) (u : unit) :
  OrderProcessor.updateOrderStatus fault id status w = (Return u, w') ->
  fault = None /\
  exists o : Order.t,
    World.db w !! id = Some o /\
    w' = World.set_db (<[id := Order.with_status status o]> (World.db w)) w.
Proof.
  unfold OrderProcessor.updateOrderStatus, try_catch, bind, ret, throw.
  destruct (Prisma.update fault id (Order.with_status status) w) as [[r|e] w1] eqn:Hu;
    [|done].
  intros [= _ <-]. apply update_return_inv in Hu as (Hf & o & Ho & _ & Hw).
  split; [done|]. by exists o.
Qed.

Lemma updateOrderStatus_run (id : string) (status : OrderStatus) (w : World.t)
    (o : Order.t) :
  World.db w !! id = Some o ->
  OrderProcessor.updateOrderStatus None id status w
  = (Return tt, World.set_db (<[id := Order.with_status status o]> (World.db w)) w).
Proof.
  intros Ho.
  unfold OrderProcessor.updateOrderStatus, try_catch, bind, ret, Prisma.update.
  by rewrite Ho.
Qed.

Lemma emit_store (emitter : option Emitter) (o : SendOutcome) (orderId : string)
    (status : OrderStatus) (extra : Extra.t) (w : World.t) :
  emitter = None \/ emitter = Some serverEmitter ->
  exists w' : World.t,
    OrderProcessor.emitWebSocketUpdate emitter o orderId status extra w = (Return tt, w') /\
    World.db w' = World.db w /\ World.queue w' = World.queue w.
Proof.
  intros [->| ->]; simpl; [by exists w|].
  apply sendStatusUpdate_store.
Qed.

Lemma executeBestRoute_return_inv (env : RouteEnv.t) (order : Order.t)
    (w w' : World.t) (x : Execution.t) :
  MockDexRouter.executeBestRoute env order w = (Return x, w') ->
  RouteEnv.raydium_fault env = None /\ RouteEnv.meteora_fault env = None /\
  w' = w /\
  x = Execution.mk (RouteEnv.randomBytes_hex env)
        (DexQuote.price
           (MockDexRouter.selectBestRoute
              (MockDexRouter.getRaydiumQuote (Order.tokenIn order) (Order.tokenOut order)
                 (Order.amount order) (RouteEnv.raydium_price env)
                 (RouteEnv.raydium_impact env))
              (MockDexRouter.getMeteorQuote (Order.tokenIn order) (Order.tokenOut order)
                 (Order.amount order) (RouteEnv.meteora_price env)
                 (RouteEnv.meteora_impact env))))
        (DexQuote.dex
           (MockDexRouter.selectBestRoute
              (MockDexRouter.getRaydiumQuote (Order.tokenIn order) (Order.tokenOut order)
                 (Order.amount order) (RouteEnv.raydium_price env)
                 (RouteEnv.raydium_impact env))
              (MockDexRouter.getMeteorQuote (Order.tokenIn order) (Order.tokenOut order)
                 (Order.amount order) (RouteEnv.meteora_price env)
                 (RouteEnv.meteora_impact env)))).
Proof.
  unfold MockDexRouter.executeBestRoute, MockDexRouter.bothQuotes, try_catch, bind,
    ret, throw.
  destruct (RouteEnv.raydium_fault env), (RouteEnv.meteora_fault env); try done.
  simpl. by intros [= <- <-].
Qed.

Lemma processOrder_catch_throws (emitter : option Emitter) (env : RunEnv.t)
    (orderData : OrderJobData.t) (error : Js.Thrown) (w : World.t) :
  emitter = None \/ emitter = Some serverEmitter ->
  exists e : Js.Thrown,
    fst (OrderProcessor.processOrder_catch emitter env orderData error w) = Throw e.
Proof.
  intros Hem. unfold OrderProcessor.processOrder_catch. cbv zeta. unfold bind at 1.
  destruct (OrderProcessor.updateOrderStatus (RunEnv.failed_write env)
              (OrderJobData.id orderData) FAILED w) as [[u|e] w1]; [|by exists e].
  unfold bind.
  destruct (emit_store emitter (RunEnv.failed_send env) (OrderJobData.id orderData)
              FAILED (OrderProcessor.failure_data error) w1 Hem) as (w2 & -> & _).
  by exists error.
Qed.

(** What a run that returns has met and done: no fault, the record in the
    store, and the store afterwards. *)
Lemma processOrder_return_inv (emitter : option Emitter) (env : RunEnv.t)
    (orderData : OrderJobData.t) (w : World.t) :
  emitter = None \/ emitter = Some serverEmitter ->
  fst (OrderProcessor.processOrder emitter env orderData w) = Return tt ->
  fault_free env /\
  exists o : Order.t,
    World.db w !! OrderJobData.id orderData = Some o /\
    World.db (snd (OrderProcessor.processOrder emitter env orderData w))
    = <[OrderJobData.id orderData := confirmed_record env o]> (World.db w).
Proof.
  intros Hem. unfold OrderProcessor.processOrder, try_catch.
  destruct (OrderProcessor.processOrder_try emitter env orderData w)
    as [[u|e] wz] eqn:Htry.
  2:{ destruct (processOrder_catch_throws emitter env orderData e wz Hem) as (e' & He').
      rewrite He'. done. }
  intros _. simpl.
  unfold OrderProcessor.processOrder_try in Htry. cbv zeta in Htry.
  set (id := OrderJobData.id orderData) in *.
  apply bind_return_inv in Htry as (u1 & w1 & H1 & Htry).
  apply updateOrderStatus_return_inv in H1 as (F1 & o & Ho & ->).
  apply bind_return_inv in Htry as (u2 & w2 & H2 & Htry).
  destruct (emit_store emitter (RunEnv.routing_send env) id ROUTING Extra.none
              (World.set_db (<[id:=Order.with_status ROUTING o]> (World.db w)) w) Hem)
    as (w2' & E2 & D2 & _).
  rewrite E2 in H2. injection H2 as _ <-. simpl in D2.
  apply bind_return_inv in Htry as (u3 & w3 & H3 & Htry).
  apply bind_return_inv in Htry as (order & w4 & H4 & Htry).
  unfold Prisma.findUnique in H4.
  destruct (RunEnv.lookup env) eqn:F4; [done|]. injection H4 as <- <-.
  destruct (RunEnv.vanished env) eqn:F3.
  { unfold Prisma.deleted, modify in H3. injection H3 as _ <-. simpl in Htry.
    rewrite lookup_delete_eq in Htry. done. }
  unfold ret in H3. injection H3 as _ <-.
  rewrite D2, lookup_insert_eq in Htry.
  apply bind_return_inv in Htry as (u5 & w5 & H5 & Htry).
  apply updateOrderStatus_return_inv in H5 as (F5 & o5 & Ho5 & ->).
  rewrite D2, lookup_insert_eq in Ho5. injection Ho5 as <-.
  apply bind_return_inv in Htry as (u6 & w6 & H6 & Htry).
  destruct (emit_store emitter (RunEnv.building_send env) id BUILDING Extra.none
              (World.set_db
                 (<[id:=Order.with_status BUILDING (Order.with_status ROUTING o)]>
                    (World.db w2')) w2') Hem)
    as (w6' & E6 & D6 & _).
  rewrite E6 in H6. injection H6 as _ <-. simpl in D6.
  apply bind_return_inv in Htry as (x & w7 & H7 & Htry).
  apply executeBestRoute_return_inv in H7 as (F7a & F7b & -> & Hx).
  apply bind_return_inv in Htry as (r8 & w8 & H8 & Htry).
  apply update_return_inv in H8 as (F8 & o8 & Ho8 & _ & ->).
  rewrite D6, lookup_insert_eq in Ho8. injection Ho8 as <-.
  apply bind_return_inv in Htry as (u9 & w9 & H9 & Htry).
  match type of H9 with
  | OrderProcessor.emitWebSocketUpdate _ ?s _ ?st ?x ?w0 = _ =>
      destruct (emit_store emitter s id st x w0 Hem) as (w9' & E9 & D9 & _)
  end.
  rewrite E9 in H9. injection H9 as _ <-. simpl in D9.
  apply bind_return_inv in Htry as (u10 & w10 & H10 & Htry).
  apply updateOrderStatus_return_inv in H10 as (F10 & o10 & Ho10 & ->).
  rewrite D9, lookup_insert_eq in Ho10. injection Ho10 as <-.
  match type of Htry with
  | OrderProcessor.emitWebSocketUpdate _ ?s _ ?st ?x ?w0 = _ =>
      destruct (emit_store emitter s id st x w0 Hem) as (w11 & E11 & D11 & _)
  end.
  rewrite E11 in Htry. injection Htry as _ <-. simpl in D11.
  split; [by repeat split|].
  exists o. split; [done|].
  rewrite D11, D9, D6, D2, !insert_insert_eq.
  f_equal. rewrite Hx. reflexivity.
Qed.

Lemma bind_run {A B} (m : M A) (k : A -> M B) (w : World.t) (a : A) (w1 : World.t) :
  m w = (Return a, w1) -> bind m k w = k a w1.
Proof. intros Hm. unfold bind. by rewrite Hm. Qed.

(** A run that meets no fault, for a record in the store: it returns and
    leaves the record confirmed; a socket registered for the order, open and
    writable throughout, has received the four updates of the run. *)
Lemma processOrder_fault_free_run (env : RunEnv.t) (orderData : OrderJobData.t)
    (w : World.t) (o : Order.t) :
  fault_free env ->
  World.db w !! OrderJobData.id orderData = Some o ->
  let orderId := OrderJobData.id orderData in
  let r := OrderProcessor.processOrder (Some serverEmitter) env orderData w in
  fst r = Return tt /\
  World.db (snd r) = <[orderId := confirmed_record env o]> (World.db w) /\
  (forall h : nat,
      World.connections w !! orderId = Some h ->
      Socket.readyState (World.socketAt w h) = OPEN ->
      all_delivered env ->
      World.connections (snd r) = World.connections w /\
      World.socketAt (snd r) h
      = Socket.mk OPEN (Socket.sent (World.socketAt w h) ++ run_frames env orderId o)%list).
Proof.
  intros (F1 & F2 & F3 & F4 & F5 & F6 & F7 & F8) Ho orderId r. subst r.
  assert (fst (OrderProcessor.processOrder (Some serverEmitter) env orderData w)
          = Return tt) as Hret.
  { unfold OrderProcessor.processOrder, try_catch, OrderProcessor.processOrder_try.
    cbv zeta. fold orderId. rewrite F1, F2, F3, F4, F7, F8.
    pose proof (or_intror eq_refl : Some serverEmitter = None \/
                                    Some serverEmitter = Some serverEmitter) as Hem.
    rewrite (bind_run _ _ _ _ _ (updateOrderStatus_run orderId ROUTING w o Ho)).
    destruct (emit_store (Some serverEmitter) (RunEnv.routing_send env) orderId ROUTING
                Extra.none
                (World.set_db (<[orderId:=Order.with_status ROUTING o]> (World.db w)) w)
                Hem) as (w2 & E2 & D2 & _).
    rewrite (bind_run _ _ _ _ _ E2). simpl in D2.
    rewrite (bind_run (ret tt) _ w2 tt w2 eq_refl).
    assert (World.db w2 !! orderId = Some (Order.with_status ROUTING o)) as Ho2
      by (by rewrite D2, lookup_insert_eq).
    rewrite (bind_run (Prisma.findUnique None orderId) _ w2
               (Some (Order.with_status ROUTING o)) w2)
      by (unfold Prisma.findUnique; by rewrite Ho2).
    rewrite (bind_run _ _ _ _ _ (updateOrderStatus_run orderId BUILDING w2 _ Ho2)).
    match goal with
    | |- context [OrderProcessor.emitWebSocketUpdate ?e ?s ?i BUILDING ?x] =>
        match goal with
        | |- context [bind (OrderProcessor.emitWebSocketUpdate e s i BUILDING x) ?k ?w0] =>
            destruct (emit_store e s i BUILDING x w0 Hem) as (w3 & E3 & D3 & _)
        end
    end.
    rewrite (bind_run _ _ _ _ _ E3). simpl in D3.
    set (x := execution_of env o).
    rewrite (bind_run (MockDexRouter.executeBestRoute (RunEnv.route env)
                         (Order.with_status ROUTING o)) _ w3 x w3)
      by (unfold MockDexRouter.executeBestRoute, MockDexRouter.bothQuotes, try_catch,
            bind, ret; by rewrite F5, F6).
    assert (World.db w3 !! orderId
            = Some (Order.with_status BUILDING (Order.with_status ROUTING o))) as Ho3
      by (by rewrite D3, lookup_insert_eq).
    rewrite (bind_run (Prisma.update None orderId _) _ w3 _ _
               ltac:(unfold Prisma.update; rewrite Ho3; reflexivity)).
    match goal with
    | |- context [bind (OrderProcessor.emitWebSocketUpdate ?e ?s ?i SUBMITTED ?d) ?k ?w0] =>
        destruct (emit_store e s i SUBMITTED d w0 Hem) as (w4 & E4 & D4 & _)
    end.
    rewrite (bind_run _ _ _ _ _ E4). simpl in D4.
    assert (exists o4, World.db w4 !! orderId = Some o4) as (o4 & Ho4)
      by (rewrite D4, lookup_insert_eq; by eexists).
    rewrite (bind_run _ _ _ _ _ (updateOrderStatus_run orderId CONFIRMED w4 _ Ho4)).
    match goal with
    | |- context [OrderProcessor.emitWebSocketUpdate ?e ?s ?i CONFIRMED ?d ?w0] =>
        destruct (emit_store e s i CONFIRMED d w0 Hem) as (w5 & E5 & _)
    end.
    rewrite E5. reflexivity. }
  split; [exact Hret|]. split.
  - destruct (processOrder_return_inv (Some serverEmitter) env orderData w
                (or_intror eq_refl) Hret) as (_ & o' & Ho' & Hdb).
    subst orderId. rewrite Ho in Ho'. injection Ho' as <-. exact Hdb.
  - intros h Hreg Hopen (S1 & S2 & S3 & S4). clear Hret.
    unfold OrderProcessor.processOrder, OrderProcessor.processOrder_try,
      OrderProcessor.updateOrderStatus, OrderProcessor.emitWebSocketUpdate,
      serverEmitter, WebSocketManager.sendStatusUpdate, Ws.send, Prisma.update,
      Prisma.findUnique, MockDexRouter.executeBestRoute, MockDexRouter.bothQuotes,
      try_catch, bind, gets, modify, ret, throw.
    subst orderId.
    rewrite F1, F2, F3, F4, F5, F6, F7, F8, S1, S2, S3, S4. simpl.
    unfold World.socketAt in *. simpl.
    repeat (progress (simpl; rewrite ?Ho, ?Hreg, ?Hopen, ?lookup_insert_eq)).
    split; [reflexivity|].
    rewrite <- !app_assoc. reflexivity.
Qed.

(** X11.  One run of [processOrder], whatever goes wrong during it and
    whether or not an emitter is installed, leaves the queue and the records
    of all other orders as they were, creates no record, and leaves the
    request of its own record (id, tokens, amount, order type) as it was. *)
Theorem processOrder_changes_only_the_record_of_its_order :
  forall (emitter : option Emitter) (env : RunEnv.t) (orderData : OrderJobData.t)
         (w : World.t),
    emitter = None \/ emitter = Some serverEmitter ->
    let r := OrderProcessor.processOrder emitter env orderData w in
    World.queue (after r) = World.queue w /\
    (forall id' : string,
        id' <> OrderJobData.id orderData ->
        World.db (after r) !! id' = World.db w !! id') /\
    (World.db w !! OrderJobData.id orderData = None ->
     World.db (after r) !! OrderJobData.id orderData = None) /\
    (forall o o' : Order.t,
        World.db w !! OrderJobData.id orderData = Some o ->
        World.db (after r) !! OrderJobData.id orderData = Some o' ->
        same_request o o').
Proof.
  intros emitter env orderData w Hem r. subst r. unfold after.
  destruct (processOrder_touches_only emitter env orderData Hem w) as (Hq & Hother & Hown).
  split; [exact Hq|]. split; [exact Hother|]. split.
  - intros Hnone.
    destruct (World.db (snd _) !! OrderJobData.id orderData) as [o'|] eqn:Ho'; [|done].
    destruct (Hown o' eq_refl) as (o & Ho & _). congruence.
  - intros o o' Ho Ho'. destruct (Hown o' Ho') as (o0 & Ho0 & Hreq & _).
    congruence.
Qed.

Lemma processOrder_changes_only_the_record_of_its_order_witness :
  World.db (after (OrderProcessor.processOrder (Some serverEmitter) store_outage
                     sample_order two_orders)) !! "o-0"
  = Some other_record.
Proof.
  pose proof (processOrder_changes_only_the_record_of_its_order
                (Some serverEmitter) store_outage sample_order two_orders
                (or_intror eq_refl)) as (_ & Hother & _).
  rewrite (Hother "o-0"); [reflexivity|discriminate].
Defined.

(** X12.  One run of [processOrder] never writes PENDING: a record that is
    PENDING after the run is the record as it was before, untouched.  And it
    fills the execution details together: if the executed price, the
    transaction hash and the venue were all absent or all present before the
    run, so they are after it. *)
Theorem processOrder_never_writes_pending_and_fills_execution_details_together :
  forall (emitter : option Emitter) (env : RunEnv.t) (orderData : OrderJobData.t)
         (w : World.t) (o o' : Order.t),
    emitter = None \/ emitter = Some serverEmitter ->
    let r := OrderProcessor.processOrder emitter env orderData w in
    World.db w !! OrderJobData.id orderData = Some o ->
    World.db (after r) !! OrderJobData.id orderData = Some o' ->
    (Order.status o' = PENDING -> o' = o) /\
    (populated_together o -> populated_together o').
Proof.
  intros emitter env orderData w o o' Hem r Ho Ho'. subst r. unfold after in Ho'.
  destruct (processOrder_touches_only emitter env orderData Hem w) as (_ & _ & Hown).
  destruct (Hown o' Ho') as (o0 & Ho0 & _ & Hst & Hx).
  assert (o0 = o) as -> by congruence. split.
  - intros Hp. by destruct Hst as [->|Hne].
  - intros Hpop. destruct Hx as [(E1 & E2 & E3)|Hall]; [|by right].
    unfold populated_together. by rewrite E1, E2, E3.
Qed.

Lemma processOrder_never_writes_pending_and_fills_execution_details_together_witness :
  populated_together (confirmed_record calm pending_record).
Proof.
  apply (processOrder_never_writes_pending_and_fills_execution_details_together
           (Some serverEmitter) calm sample_order accepted_order pending_record
           (confirmed_record calm pending_record) (or_intror eq_refl)).
  - reflexivity.
  - vm_compute. reflexivity.
  - left. repeat split.
Defined.

(** X13.  [processOrder] returns exactly when no call of the run meets a
    fault and the record of the order is in the store; the record is then
    CONFIRMED and carries the hash, the price and the venue of the execution,
    the rest of the store being as before.  In every other case it raises. *)
Theorem processOrder_returns_exactly_when_nothing_fails :
  forall (env : RunEnv.t) (orderData : OrderJobData.t) (w : World.t),
    let orderId := OrderJobData.id orderData in
    let r := OrderProcessor.processOrder (Some serverEmitter) env orderData w in
    (outcome r = Return tt <-> fault_free env /\ is_Some (World.db w !! orderId)) /\
    (forall o : Order.t,
        World.db w !! orderId = Some o ->
        outcome r = Return tt ->
        World.db (after r) = <[orderId := confirmed_record env o]> (World.db w) /\
        Execution.dex (execution_of env o) ∈ ["Raydium"; "Meteora"]).
Proof.
  intros env orderData w orderId r. subst r orderId. unfold outcome, after.
  split; [split|].
  - intros Hret.
    destruct (processOrder_return_inv (Some serverEmitter) env orderData w
                (or_intror eq_refl) Hret) as (Hfree & o & Ho & _).
    split; [exact Hfree|by exists o].
  - intros (Hfree & o & Ho).
    by destruct (processOrder_fault_free_run env orderData w o Hfree Ho) as (Hret & _).
  - intros o Ho Hret.
    destruct (processOrder_return_inv (Some serverEmitter) env orderData w
                (or_intror eq_refl) Hret) as (_ & o' & Ho' & Hdb).
    assert (o' = o) as -> by congruence.
    split; [exact Hdb|].
    unfold execution_of, MockDexRouter.selectBestRoute. cbv zeta.
    destruct (Js.gt _ _); simpl; set_solver.
Qed.

Lemma processOrder_returns_exactly_when_nothing_fails_witness :
  outcome (OrderProcessor.processOrder (Some serverEmitter) calm sample_order
             accepted_order) = Return tt /\
  World.db (after (OrderProcessor.processOrder (Some serverEmitter) calm sample_order
                     accepted_order)) !! "o-1"
  = Some (confirmed_record calm pending_record).
Proof.
  pose proof (processOrder_returns_exactly_when_nothing_fails calm sample_order
                accepted_order) as (Hiff & Hrec).
  assert (outcome (OrderProcessor.processOrder (Some serverEmitter) calm sample_order
                     accepted_order) = Return tt) as Hret.
  { apply Hiff. split; [by repeat split|by exists pending_record]. }
  split; [exact Hret|].
  destruct (Hrec pending_record eq_refl Hret) as (-> & _).
  apply lookup_insert_eq.
Defined.

(** X14.  During a run that meets no fault, a socket that is registered for
    the order and open, and on which every write goes out, receives the four
    updates ROUTING, BUILDING, SUBMITTED and CONFIRMED, in this order and
    nothing else; the last two carry the hash, the venue and the price that
    the store holds for the order afterwards; the socket stays registered. *)
Theorem fault_free_run_delivers_the_four_updates_matching_the_store :
  forall (env : RunEnv.t) (orderData : OrderJobData.t) (w : World.t) (o : Order.t)
         (h : nat),
    let orderId := OrderJobData.id orderData in
    let r := OrderProcessor.processOrder (Some serverEmitter) env orderData w in
    fault_free env ->
    all_delivered env ->
    World.db w !! orderId = Some o ->
    World.connections w !! orderId = Some h ->
    Socket.readyState (World.socketAt w h) = OPEN ->
    exists (txHash dex : string) (price : float),
      World.socketAt (after r) h
      = Socket.mk OPEN
          (Socket.sent (World.socketAt w h) ++
           [StatusFrame orderId ROUTING Extra.none;
            StatusFrame orderId BUILDING Extra.none;
            StatusFrame orderId SUBMITTED
              (Extra.mk (Some txHash) (Some dex) (Some price) None None);
            StatusFrame orderId CONFIRMED
              (Extra.mk (Some txHash) (Some dex) (Some price) None None)])%list /\
      (exists rec : Order.t,
          World.db (after r) !! orderId = Some rec /\
          Order.status rec = CONFIRMED /\
          Order.txHash rec = Some txHash /\
          Order.dex rec = Some dex /\
          Order.executedPrice rec = Some price) /\
      World.connections (after r) !! orderId = Some h.
Proof.
  intros env orderData w o h orderId r Hfree Hsend Ho Hreg Hopen. subst r orderId.
  destruct (processOrder_fault_free_run env orderData w o Hfree Ho)
    as (_ & Hdb & Hsock).
  destruct (Hsock h Hreg Hopen Hsend) as (Hconn & Hsent).
  exists (Execution.txHash (execution_of env o)),
         (Execution.dex (execution_of env o)),
         (Execution.executedPrice (execution_of env o)).
  unfold after. split; [exact Hsent|]. split.
  - exists (confirmed_record env o). rewrite Hdb, lookup_insert_eq. by repeat split.
  - by rewrite Hconn.
Qed.

Lemma fault_free_run_delivers_the_four_updates_matching_the_store_witness :
  published (after (OrderProcessor.processOrder (Some serverEmitter) calm sample_order
                      accepted_order)) 1
  = [PENDING; ROUTING; BUILDING; SUBMITTED; CONFIRMED].
Proof.
  destruct (fault_free_run_delivers_the_four_updates_matching_the_store
              calm sample_order accepted_order pending_record 1)
    as (txHash & dex & price & Hsent & _).
  - by repeat split.
  - by repeat split.
  - reflexivity.
  - reflexivity.
  - reflexivity.
  - unfold published. rewrite Hsent. reflexivity.
Defined.

(** ** The emitter and the store *)

Section Alike.

Lemma same_store_refl (w : World.t) : same_store w w.
Proof. by split. Qed.

Lemma alike_ret {A} (a : A) : alike (ret a) (ret a).
Proof. intros w1 w2 Hs. by split. Qed.

Lemma alike_throw {A} (e : Js.Thrown) : alike (throw (A := A) e) (throw e).
Proof. intros w1 w2 Hs. by split. Qed.

Lemma alike_bind {A B} (m1 m2 : M A) (k1 k2 : A -> M B) :
  alike m1 m2 -> (forall a, alike (k1 a) (k2 a)) -> alike (bind m1 k1) (bind m2 k2).
Proof.
  intros Hm Hk w1 w2 Hs. unfold bind. destruct (Hm w1 w2 Hs) as (Ho & Hs').
  destruct (m1 w1) as [[a1|e1] v1], (m2 w2) as [[a2|e2] v2]; simpl in *; try done.
  - injection Ho as <-. by apply Hk.
  - by injection Ho as <-.
Qed.

Lemma alike_try_catch {A} (m1 m2 : M A) (h1 h2 : Js.Thrown -> M A) :
  alike m1 m2 -> (forall e, alike (h1 e) (h2 e)) ->
  alike (try_catch m1 h1) (try_catch m2 h2).
Proof.
  intros Hm Hk w1 w2 Hs. unfold try_catch. destruct (Hm w1 w2 Hs) as (Ho & Hs').
  destruct (m1 w1) as [[a1|e1] v1], (m2 w2) as [[a2|e2] v2]; simpl in *; try done.
  injection Ho as <-. by apply Hk.
Qed.

Lemma alike_update (fault : option Js.Thrown) (id : string) (data : Order.t -> Order.t) :
  alike (Prisma.update fault id data) (Prisma.update fault id data).
Proof.
  intros w1 w2 (Hdb & Hq). unfold Prisma.update. destruct fault; [by split|].
  rewrite Hdb. destruct (World.db w2 !! id); simpl; [|by split].
  split; [done|]. split; simpl; done.
Qed.

Lemma alike_updateOrderStatus (fault : option Js.Thrown) (id : string)
    (status : OrderStatus) :
  alike (OrderProcessor.updateOrderStatus fault id status)
        (OrderProcessor.updateOrderStatus fault id status).
Proof.
  unfold OrderProcessor.updateOrderStatus.
  apply alike_try_catch; [|intros e; apply alike_throw].
  apply alike_bind; [apply alike_update|intros a; apply alike_ret].
Qed.

Lemma alike_findUnique (fault : option Js.Thrown) (id : string) :
  alike (Prisma.findUnique fault id) (Prisma.findUnique fault id).
Proof.
  intros w1 w2 (Hdb & Hq). unfold Prisma.findUnique. destruct fault; [by split|].
  simpl. by rewrite Hdb.
Qed.

Lemma alike_deleted (id : string) : alike (Prisma.deleted id) (Prisma.deleted id).
Proof.
  intros w1 w2 (Hdb & Hq). unfold Prisma.deleted, modify. simpl.
  split; [done|]. split; simpl; [by rewrite Hdb|done].
Qed.

Lemma alike_executeBestRoute (env : RouteEnv.t) (order : Order.t) :
  alike (MockDexRouter.executeBestRoute env order)
        (MockDexRouter.executeBestRoute env order).
Proof.
  intros w1 w2 Hs.
  pose proof (executeBestRoute_same_state env order w1) as H1.
  pose proof (executeBestRoute_same_state env order w2) as H2.
  rewrite H1, H2. split; [|done].
  unfold MockDexRouter.executeBestRoute, MockDexRouter.bothQuotes, try_catch, bind,
    ret, throw.
  by destruct (RouteEnv.raydium_fault env), (RouteEnv.meteora_fault env).
Qed.

Lemma alike_emit (o : SendOutcome) (orderId : string) (status : OrderStatus)
    (extra : Extra.t) :
  alike (OrderProcessor.emitWebSocketUpdate None o orderId status extra)
        (OrderProcessor.emitWebSocketUpdate (Some serverEmitter) o orderId status extra).
Proof.
  intros w1 w2 (Hdb & Hq). simpl. unfold serverEmitter.
  destruct (sendStatusUpdate_store o orderId status extra w2) as (w' & -> & Hdb' & Hq').
  simpl. split; [done|]. split; congruence.
Qed.

Lemma alike_processOrder (env : RunEnv.t) (orderData : OrderJobData.t) :
  alike (OrderProcessor.processOrder None env orderData)
        (OrderProcessor.processOrder (Some serverEmitter) env orderData).
Proof.
  unfold OrderProcessor.processOrder. apply alike_try_catch.
  - unfold OrderProcessor.processOrder_try. cbv zeta.
    apply alike_bind; [apply alike_updateOrderStatus|intros _].
    apply alike_bind; [apply alike_emit|intros _].
    apply alike_bind; [|intros _].
    { destruct (RunEnv.vanished env); [apply alike_deleted|apply alike_ret]. }
    apply alike_bind; [apply alike_findUnique|intros [order|]; [|apply alike_throw]].
    apply alike_bind; [apply alike_updateOrderStatus|intros _].
    apply alike_bind; [apply alike_emit|intros _].
    apply alike_bind; [apply alike_executeBestRoute|intros x].
    apply alike_bind; [apply alike_update|intros _].
    apply alike_bind; [apply alike_emit|intros _].
    apply alike_bind; [apply alike_updateOrderStatus|intros _].
    apply alike_emit.
  - intros e. unfold OrderProcessor.processOrder_catch. cbv zeta.
    apply alike_bind; [apply alike_updateOrderStatus|intros _].
    apply alike_bind; [apply alike_emit|intros _].
    apply alike_throw.
Qed.

End Alike.

Lemma same_sockets_refl (w : World.t) : same_sockets w w.
Proof. by split. Qed.

Lemma same_sockets_trans (a b c : World.t) :
  same_sockets a b -> same_sockets b c -> same_sockets a c.
Proof. intros (H1 & H2) (G1 & G2). split; congruence. Qed.

Lemma update_same_sockets (fault : option Js.Thrown) (id : string)
    (data : Order.t -> Order.t) :
  keeps same_sockets (Prisma.update fault id data).
Proof.
  intros w. unfold Prisma.update. destruct fault; [apply same_sockets_refl|].
  destruct (World.db w !! id); by split.
Qed.

Lemma updateOrderStatus_same_sockets (fault : option Js.Thrown) (id : string)
    (status : OrderStatus) :
  keeps same_sockets (OrderProcessor.updateOrderStatus fault id status).
Proof.
  unfold OrderProcessor.updateOrderStatus.
  apply keeps_try_catch;
    [apply same_sockets_trans| |intros e; apply keeps_throw, same_sockets_refl].
  apply keeps_bind;
    [apply same_sockets_trans|apply update_same_sockets|
     intros a; apply keeps_ret, same_sockets_refl].
Qed.

Lemma processOrder_without_emitter_same_sockets (env : RunEnv.t)
    (orderData : OrderJobData.t) :
  keeps same_sockets (OrderProcessor.processOrder None env orderData).
Proof.
  pose proof same_sockets_trans as Ht. pose proof same_sockets_refl as Hr.
  unfold OrderProcessor.processOrder.
  apply keeps_try_catch; [exact Ht| |].
  - unfold OrderProcessor.processOrder_try. cbv zeta.
    apply keeps_bind; [exact Ht|apply updateOrderStatus_same_sockets|intros _].
    apply keeps_bind; [exact Ht|by apply keeps_ret|intros _].
    apply keeps_bind; [exact Ht| |intros _].
    { destruct (RunEnv.vanished env); [by intros w|by apply keeps_ret]. }
    apply keeps_bind; [exact Ht| |intros [order|]; [|by apply keeps_throw]].
    { intros w. rewrite findUnique_same_state. apply Hr. }
    apply keeps_bind; [exact Ht|apply updateOrderStatus_same_sockets|intros _].
    apply keeps_bind; [exact Ht|by apply keeps_ret|intros _].
    apply keeps_bind; [exact Ht| |intros x].
    { intros w. rewrite executeBestRoute_same_state. apply Hr. }
    apply keeps_bind; [exact Ht|apply update_same_sockets|intros _].
    apply keeps_bind; [exact Ht|by apply keeps_ret|intros _].
    apply keeps_bind; [exact Ht|apply updateOrderStatus_same_sockets|intros _].
    by apply keeps_ret.
  - intros e. unfold OrderProcessor.processOrder_catch. cbv zeta.
    apply keeps_bind; [exact Ht|apply updateOrderStatus_same_sockets|intros _].
    apply keeps_bind; [exact Ht|by apply keeps_ret|intros _].
    by apply keeps_throw.
Qed.

(** X15.  Publishing has no influence on processing: with the server's
    emitter installed, one run of [processOrder] returns or raises the same
    thing and leaves the same store and the same queue as without an emitter,
    whatever the registry and the sockets do; and without an emitter the run
    leaves the registry and the sockets as they were. *)
Theorem publishing_does_not_influence_processing :
  forall (env : RunEnv.t) (orderData : OrderJobData.t) (w : World.t),
    let silent := OrderProcessor.processOrder None env orderData w in
    let loud := OrderProcessor.processOrder (Some serverEmitter) env orderData w in
    outcome loud = outcome silent /\
    World.db (after loud) = World.db (after silent) /\
    World.queue (after loud) = World.queue (after silent) /\
    World.connections (after silent) = World.connections w /\
    World.sockets (after silent) = World.sockets w.
Proof.
  intros env orderData w silent loud. subst silent loud. unfold outcome, after.
  destruct (alike_processOrder env orderData w w (same_store_refl w))
    as (Hout & Hdb & Hq).
  destruct (processOrder_without_emitter_same_sockets env orderData w) as (Hc & Hs).
  by repeat split.
Qed.

(** ** From the request to the confirmed order *)

Lemma getOrder_found (orderId : string) (w : World.t) (o : Order.t) :
  World.db w !! orderId = Some o ->
  OrderReads.getOrder None orderId w = (Return (Reply.mk 200 (Reply.Success o)), w).
Proof.
  intros Ho. unfold OrderReads.getOrder, Prisma.findUnique, try_catch, bind, ret.
  by rewrite Ho.
Qed.

(** X16.  A well-formed request on an open socket, for which the store and
    the queue answer, followed by a run of the queued job that meets no fault
    and whose writes on the socket go out: the queue has received exactly one
    job, keyed by the order id; the run returns; the client has received, on
    top of what its socket held, PENDING, ROUTING, BUILDING, SUBMITTED and
    CONFIRMED in this order; and the query route then answers 200 with a
    CONFIRMED record that holds the tokens and the amount of the request and
    the hash, the price and the venue of the execution. *)
Theorem accepted_order_runs_to_confirmed_and_is_readable :
  forall (ienv : IntakeEnv.t) (h : nat) (q : Query.t) (w : World.t) (env : RunEnv.t),
    OrderRoutes.rejects q = false ->
    Socket.readyState (World.socketAt w h) = OPEN ->
    IntakeEnv.create_fault ienv = None ->
    IntakeEnv.enqueue_fault ienv = None ->
    World.db w !! IntakeEnv.uuid ienv = None ->
    World.connections w !! IntakeEnv.uuid ienv = None ->
    ~ In (IntakeEnv.uuid ienv) (job_ids (World.queue w)) ->
    fault_free env ->
    all_delivered env ->
    let orderId := IntakeEnv.uuid ienv in
    let w1 := after (OrderRoutes.execute ienv h q w) in
    exists job : Job.t,
      World.queue w1 = (World.queue w ++ [job])%list /\
      Job.id job = orderId /\
      let r := OrderProcessor.processOrder (Some serverEmitter) env (Job.data job) w1 in
      outcome r = Return tt /\
      published (after r) h = (published w h ++ pipeline)%list /\
      exists rec : Order.t,
        outcome (OrderReads.getOrder None orderId (after r))
        = Return (Reply.mk 200 (Reply.Success rec)) /\
        Order.status rec = CONFIRMED /\
        Order.tokenIn rec = OrderRoutes.param (Query.tokenIn q) /\
        Order.tokenOut rec = OrderRoutes.param (Query.tokenOut q) /\
        Order.amount rec = Query.amount q /\
        Order.orderType rec = OrderRoutes.param (Query.orderType q) /\
        is_Some (Order.txHash rec) /\
        is_Some (Order.executedPrice rec) /\
        (Order.dex rec = Some "Raydium" \/ Order.dex rec = Some "Meteora").
Proof.
  intros ienv h q w env Hrej Hopen Hcreate Henq Hdb Hconn Hfresh Hfree Hsend orderId w1.
  destruct (execute_accepted ienv h q w Hrej Hopen Hcreate Henq Hdb Hconn Hfresh)
    as (_ & Hdb1 & Hq1 & Hconn1 & Hsock1).
  fold w1 in Hdb1, Hq1, Hconn1, Hsock1. fold orderId in Hdb1, Hq1, Hconn1, Hsock1.
  eexists. split; [exact Hq1|]. split; [reflexivity|]. cbv zeta.
  set (pending := Order.mk orderId (OrderRoutes.param (Query.tokenIn q))
                    (OrderRoutes.param (Query.tokenOut q)) (Query.amount q)
                    (OrderRoutes.param (Query.orderType q)) PENDING None None None)
    in *.
  set (orderData := Job.data _).
  assert (World.db w1 !! OrderJobData.id orderData = Some pending) as Ho1
    by (subst orderData; simpl; by rewrite Hdb1, lookup_insert_eq).
  destruct (processOrder_fault_free_run env orderData w1 pending Hfree Ho1)
    as (Hret & Hdb2 & Hsock2).
  destruct (Hsock2 h) as (_ & Hsent); [| |exact Hsend|].
  { subst orderData. simpl. by rewrite Hconn1, lookup_insert_eq. }
  { by rewrite Hsock1. }
  split; [exact Hret|]. split.
  - unfold published, after. rewrite Hsent, Hsock1. simpl.
    rewrite !omap_app. simpl. by rewrite <- app_assoc.
  - exists (confirmed_record env pending). unfold after, outcome.
    rewrite (getOrder_found orderId _ (confirmed_record env pending))
      by (rewrite Hdb2; subst orderData; simpl; by rewrite lookup_insert_eq).
    split; [reflexivity|]. repeat (split; [reflexivity || by eexists|]).
    simpl. unfold MockDexRouter.selectBestRoute. destruct (Js.gt _ _); simpl; auto.
Qed.

Lemma accepted_order_runs_to_confirmed_and_is_readable_witness :
  exists job : Job.t,
    World.queue accepted_order = [job] /\
    published (after (OrderProcessor.processOrder (Some serverEmitter) calm
                        (Job.data job) accepted_order)) 1
    = pipeline.
Proof.
  destruct (accepted_order_runs_to_confirmed_and_is_readable
              quiet_intake 1 market_query one_socket calm)
    as (job & Hq & _ & _ & Hpub & _).
  - reflexivity.
  - reflexivity.
  - reflexivity.
  - reflexivity.
  - reflexivity.
  - reflexivity.
  - simpl. tauto.
  - by repeat split.
  - by repeat split.
  - exists job. split; [exact Hq|exact Hpub].
Defined.

(** ** The intake when the store or the queue fails *)

Lemma grows_with_records_refl (w : World.t) : grows_with_records w w.
Proof. split; [done|]. split; [done|]. intros j Hj. by left. Qed.

Lemma grows_with_records_trans (a b c : World.t) :
  grows_with_records a b -> grows_with_records b c -> grows_with_records a c.
Proof.
  intros (Hd1 & Hm1 & Hq1) (Hd2 & Hm2 & Hq2). split; [|split].
  - intros id Hid. by apply Hd2, Hd1.
  - intros j Hj. by apply Hm2, Hm1.
  - intros j Hj. destruct (Hq2 j Hj) as [Hj'|Hrec]; [|by right].
    destruct (Hq1 j Hj') as [Hj''|Hrec]; [by left|]. right. by apply Hd2.
Qed.

Lemma grows_with_records_same_store (w w' : World.t) :
  World.db w' = World.db w -> World.queue w' = World.queue w ->
  grows_with_records w w'.
Proof.
  intros Hdb Hq. split; [|split].
  - intros id. by rewrite Hdb.
  - intros j. by rewrite Hq.
  - intros j. rewrite Hq. by left.
Qed.

Lemma send_grows (o : SendOutcome) (h : nat) (f : Frame) :
  keeps grows_with_records (Ws.send o h f).
Proof.
  intros w. unfold Ws.send.
  destruct (Socket.readyState (World.socketAt w h)); try apply grows_with_records_refl.
  destruct o; by apply grows_with_records_same_store.
Qed.

Lemma close_grows (h : nat) : keeps grows_with_records (Ws.close h).
Proof.
  intros w. unfold Ws.close, modify. simpl.
  destruct (Socket.readyState (World.socketAt w h)); by apply grows_with_records_same_store.
Qed.

Lemma registerConnection_grows (orderId : string) (socket : nat) :
  keeps grows_with_records (WebSocketManager.registerConnection orderId socket).
Proof.
  intros w. rewrite registerConnection_cases. unfold after.
  rewrite closeConnection_cases. simpl.
  destruct (World.connections w !! orderId) as [h|];
    [|by apply grows_with_records_same_store].
  destruct (bool_decide _); by apply grows_with_records_same_store.
Qed.

Lemma create_then_enqueue_grows (create_fault enqueue_fault : option Js.Thrown)
    (o : Order.t) (orderData : OrderJobData.t) :
  Order.id o = OrderJobData.id orderData ->
  keeps grows_with_records
    (_ <- Prisma.create create_fault o ;;
     _ <- OrderQueueService.addOrder enqueue_fault orderData ;;
     ret tt).
Proof.
  intros Hid w.
  unfold Prisma.create, OrderQueueService.addOrder, OrderQueueService.Queue_add,
    try_catch, bind, ret, throw.
  destruct create_fault; [apply grows_with_records_refl|].
  destruct (World.db w !! Order.id o) eqn:Hdb; [apply grows_with_records_refl|].
  assert (forall id, is_Some (World.db w !! id) ->
                     is_Some (<[Order.id o := o]> (World.db w) !! id)) as Hmono.
  { intros id Hsome. destruct (decide (id = Order.id o)) as [->|Hne].
    - rewrite lookup_insert_eq. by eexists.
    - by rewrite lookup_insert_ne. }
  destruct enqueue_fault; simpl.
  { split; [exact Hmono|]. split; [done|]. intros j Hj. by left. }
  destruct (find _ (World.queue w)); simpl.
  { split; [exact Hmono|]. split; [done|]. intros j Hj. by left. }
  split; [exact Hmono|]. split.
  { intros j Hj. simpl. apply in_or_app. by left. }
  intros j Hj. simpl in *.
  apply in_app_or in Hj as [Hj|[<-|[]]]; [by left|].
  right. simpl. rewrite <- Hid, lookup_insert_eq. by eexists.
Qed.

Lemma execute_grows (env : IntakeEnv.t) (socket : nat) (query : Query.t) :
  keeps grows_with_records (OrderRoutes.execute env socket query).
Proof.
  pose proof grows_with_records_trans as Ht. pose proof grows_with_records_refl as Hr.
  unfold OrderRoutes.execute. cbv zeta.
  apply keeps_try_catch; [exact Ht| |].
  - destruct (OrderRoutes.rejects query).
    + apply keeps_bind; [exact Ht|apply send_grows|intros _; apply close_grows].
    + apply keeps_bind; [exact Ht|apply registerConnection_grows|intros _].
      apply keeps_bind; [exact Ht|apply send_grows|intros _].
      unfold OrderRoutes.detached.
      apply keeps_try_catch; [exact Ht| |intros e; by apply keeps_ret].
      apply keeps_try_catch; [exact Ht| |].
      * by apply create_then_enqueue_grows.
      * intros e. apply keeps_bind; [exact Ht|apply send_grows|intros _].
        by apply keeps_ret.
  - intros e. apply keeps_bind; [exact Ht|apply send_grows|intros _; apply close_grows].
Qed.

(** X17.  The route creates the record before it enqueues the job, so no
    request, accepted or not, whatever fails and whatever the socket does,
    leaves a job in the queue whose order has no record: if every job had
    its record before the request, every job has its record after it.  No
    request removes a record or a job. *)
Theorem execute_queues_no_job_without_a_record :
  forall (env : IntakeEnv.t) (socket : nat) (query : Query.t) (w : World.t),
    let w' := after (OrderRoutes.execute env socket query w) in
    (jobs_have_records w -> jobs_have_records w') /\
    (forall id : string, is_Some (World.db w !! id) -> is_Some (World.db w' !! id)) /\
    (forall j : Job.t, In j (World.queue w) -> In j (World.queue w')).
Proof.
  intros env socket query w w'. subst w'. unfold after.
  destruct (execute_grows env socket query w) as (Hdb & Hmono & Hq).
  split; [|split; [exact Hdb|exact Hmono]].
  intros Hinv j Hj. destruct (Hq j Hj) as [Hold|Hrec]; [|exact Hrec].
  by apply Hdb, Hinv.
Qed.

Lemma execute_queues_no_job_without_a_record_witness :
  jobs_have_records accepted_order.
Proof.
  apply (proj1 (execute_queues_no_job_without_a_record quiet_intake 1 market_query
                  one_socket)).
  intros j Hj. destruct Hj.
Defined.

(** X18.  When the store refuses to create the record of a well-formed
    request, the client, whose socket is open, has already been told PENDING
    and is then sent the error 'Failed to create order' with the message of
    the failure; nothing is stored and nothing is queued; the route does not
    raise, does not close the socket and leaves it registered for the order
    id. *)
Theorem failed_create_tells_the_client_and_stores_nothing :
  forall (env : IntakeEnv.t) (h : nat) (q : Query.t) (w : World.t) (e : Js.Thrown),
    OrderRoutes.rejects q = false ->
    Socket.readyState (World.socketAt w h) = OPEN ->
    World.connections w !! IntakeEnv.uuid env = None ->
    IntakeEnv.create_fault env = Some e ->
    let r := OrderRoutes.execute env h q w in
    let orderId := IntakeEnv.uuid env in
    outcome r = Return tt /\
    World.db (after r) = World.db w /\
    World.queue (after r) = World.queue w /\
    World.connections (after r) = <[orderId := h]> (World.connections w) /\
    World.socketAt (after r) h
    = Socket.mk OPEN
        (Socket.sent (World.socketAt w h) ++
         [OrderRoutes.pending_frame orderId;
          ErrorFrame "Failed to create order" (Some (Js.message_or_unknown e))])%list.
Proof.
  intros env h q w e Hrej Hopen Hconn Hcreate r orderId. subst r orderId.
  unfold outcome, after, OrderRoutes.execute, OrderRoutes.detached,
    WebSocketManager.registerConnection, OrderQueueService.addOrder,
    OrderQueueService.Queue_add, Prisma.create, Ws.send,
    try_catch, bind, gets, modify, ret, throw.
  rewrite Hrej, Hcreate. simpl. rewrite Hconn.
  rewrite bool_decide_eq_false_2 by (intros [? ?]; discriminate).
  simpl.
  unfold World.socketAt in *. simpl. rewrite Hopen. simpl.
  rewrite lookup_insert_eq. simpl. rewrite lookup_insert_eq. simpl.
  rewrite <- app_assoc. repeat split.
Qed.

Lemma failed_create_tells_the_client_and_stores_nothing_witness :
  World.db (after (OrderRoutes.execute store_down_intake 1 market_query one_socket)) = ∅ /\
  Socket.sent (World.socketAt
                 (after (OrderRoutes.execute store_down_intake 1 market_query one_socket)) 1)
  = [OrderRoutes.pending_frame "o-1";
     ErrorFrame "Failed to create order" (Some "Can't reach database server")].
Proof.
  destruct (failed_create_tells_the_client_and_stores_nothing
              store_down_intake 1 market_query one_socket
              (Js.ErrorObj "Can't reach database server"))
    as (_ & Hdb & _ & _ & Hsock); try reflexivity.
  split; [exact Hdb|]. rewrite Hsock. reflexivity.
Defined.

(** X19.  When the record of a well-formed request has been created and the
    queue then refuses the job, the record stays in the store, PENDING, and
    no job is added for it; the client, whose socket is open, has been told
    PENDING and is then sent the error 'Failed to create order' whose message
    is 'Failed to add order to queue: ' followed by the failure as a template
    literal renders it (for an error, its name and its message); the route
    does not raise and does not close the socket. *)
Theorem failed_enqueue_leaves_a_pending_record_without_a_job :
  forall (env : IntakeEnv.t) (h : nat) (q : Query.t) (w : World.t) (e : Js.Thrown),
    OrderRoutes.rejects q = false ->
    Socket.readyState (World.socketAt w h) = OPEN ->
    World.connections w !! IntakeEnv.uuid env = None ->
    World.db w !! IntakeEnv.uuid env = None ->
    IntakeEnv.create_fault env = None ->
    IntakeEnv.enqueue_fault env = Some e ->
    let r := OrderRoutes.execute env h q w in
    let orderId := IntakeEnv.uuid env in
    outcome r = Return tt /\
    World.db (after r)
    = <[orderId := Order.mk orderId (OrderRoutes.param (Query.tokenIn q))
                     (OrderRoutes.param (Query.tokenOut q)) (Query.amount q)
                     (OrderRoutes.param (Query.orderType q)) PENDING None None None]>
        (World.db w) /\
    World.queue (after r) = World.queue w /\
    World.connections (after r) = <[orderId := h]> (World.connections w) /\
    World.socketAt (after r) h
    = Socket.mk OPEN
        (Socket.sent (World.socketAt w h) ++
         [OrderRoutes.pending_frame orderId;
          ErrorFrame "Failed to create order"
            (Some ("Failed to add order to queue: " ++ Js.to_display e)%string)])%list.
Proof.
  intros env h q w e Hrej Hopen Hconn Hdb Hcreate Henq r orderId. subst r orderId.
  unfold outcome, after, OrderRoutes.execute, OrderRoutes.detached,
    WebSocketManager.registerConnection, OrderQueueService.addOrder,
    OrderQueueService.Queue_add, Prisma.create, Ws.send,
    try_catch, bind, gets, modify, ret, throw.
  rewrite Hrej, Hcreate, Henq. simpl. rewrite Hconn.
  rewrite bool_decide_eq_false_2 by (intros [? ?]; discriminate).
  simpl.
  unfold World.socketAt in *. simpl. rewrite Hopen. simpl. rewrite Hdb. simpl.
  rewrite lookup_insert_eq. simpl. rewrite lookup_insert_eq. simpl.
  rewrite <- app_assoc. repeat split.
Qed.

Lemma failed_enqueue_leaves_a_pending_record_without_a_job_witness :
  World.db (after (OrderRoutes.execute queue_down_intake 1 market_query one_socket)) !! "o-1"
  = Some pending_record /\
  World.queue (after (OrderRoutes.execute queue_down_intake 1 market_query one_socket)) = [] /\
  Socket.sent (World.socketAt
                 (after (OrderRoutes.execute queue_down_intake 1 market_query one_socket)) 1)
  = [OrderRoutes.pending_frame "o-1";
     ErrorFrame "Failed to create order"
       (Some ("Failed to add order to queue: ReplyError: "
              ++ "READONLY You can't write against a read only replica."))].
Proof.
  destruct (failed_enqueue_leaves_a_pending_record_without_a_job
              queue_down_intake 1 market_query one_socket
              (Js.NamedError "ReplyError"
                 "READONLY You can't write against a read only replica."))
    as (_ & Hdb & Hq & _ & Hsock); try reflexivity.
  split; [|split; [exact Hq|]].
  - rewrite Hdb. apply lookup_insert_eq.
  - rewrite Hsock. reflexivity.
Defined.

(** ** Reading the queue and the health of the service *)

Lemma find_key_app_fresh (q : list Job.t) (key : string) (j : Job.t) :
  find (fun j => String.eqb (Job.id j) key) q = None ->
  find (fun j => String.eqb (Job.id j) key) (q ++ [j])
  = if String.eqb (Job.id j) key then Some j else None.
Proof.
  induction q as [|x q IH]; simpl; [done|].
  destruct (String.eqb (Job.id x) key); [done|exact IH].
Qed.

(** X20.  A job added with [addOrder] is found again by [getJob] under the
    order id.  If the queue held no job with that key, the job found carries
    the payload just added, the options of the queue, and is waiting; if it
    held one, that earlier job is what is found and the payload just added is
    nowhere.  A key the queue does not hold gives no job and no error, and
    looking up changes nothing. *)
Theorem addOrder_then_getJob_finds_the_job :
  forall (orderData : OrderJobData.t) (w : World.t),
    let orderId := OrderJobData.id orderData in
    let w' := after (OrderQueueService.addOrder None orderData w) in
    (~ In orderId (job_ids (World.queue w)) ->
     OrderQueueReads.getJob None None orderId w'
     = (Return (Some (Job.mk orderId "process-order" orderData
                             OrderQueueService.defaultJobOptions waiting 0)), w')) /\
    (In orderId (job_ids (World.queue w)) ->
     w' = w /\
     exists old : Job.t,
       In old (World.queue w) /\ Job.id old = orderId /\
       OrderQueueReads.getJob None None orderId w' = (Return (Some old), w')) /\
    (forall key : string,
        ~ In key (job_ids (World.queue w')) ->
        OrderQueueReads.getJob None None key w' = (Return None, w')).
Proof.
  intros orderData w orderId w'. subst w'.
  unfold after, OrderQueueService.addOrder, OrderQueueService.Queue_add,
    OrderQueueReads.getJob, OrderQueueReads.Queue_getJob, try_catch, bind, ret, throw.
  simpl. fold orderId. split; [|split].
  - intros Hfresh. apply find_key_fresh in Hfresh. rewrite Hfresh. simpl.
    rewrite (find_key_app_fresh _ _ _ Hfresh). simpl. by rewrite String.eqb_refl.
  - intros Hin. apply in_map_iff in Hin as (j & Hid & Hin).
    destruct (find_key_present _ _ _ Hin Hid) as (old & Hfind).
    rewrite Hfind. simpl. split; [reflexivity|]. exists old.
    pose proof Hfind as Hfound. apply find_some in Hfound as (Hold & Heq).
    apply String.eqb_eq in Heq. by rewrite Hfind.
  - intros key Hkey. apply find_key_fresh in Hkey.
    destruct (find _ (World.queue w)) as [old|]; simpl in *; by rewrite Hkey.
Qed.

Lemma addOrder_then_getJob_finds_the_job_witness :
  outcome (OrderQueueReads.getJob None None "o-1" queued_once)
  = Return (Some accepted_job) /\
  outcome (OrderQueueReads.getJob None None "o-2" queued_once) = Return None.
Proof.
  pose proof (addOrder_then_getJob_finds_the_job sample_order World.empty)
    as (Hnew & _ & Hnone).
  split.
  - refine (f_equal fst (Hnew _)). simpl. tauto.
  - refine (f_equal fst (Hnone "o-2" _)). simpl. intros [H|[]]. discriminate H.
Defined.

Lemma countOf_app (s : JobState) (q : list Job.t) (j : Job.t) :
  OrderQueueReads.countOf s (q ++ [j])
  = OrderQueueReads.countOf s q + (if bool_decide (Job.state j = s) then 1 else 0).
Proof.
  unfold OrderQueueReads.countOf. rewrite List.filter_app, length_app. simpl.
  by destruct (bool_decide (Job.state j = s)).
Qed.

Lemma health_cases (db_fault queue_fault : option Js.Thrown) (w : World.t) :
  OrderReads.health db_fault queue_fault w
  = (Return
       match db_fault, queue_fault with
       | Some e, _ => Reply.mk 503 (Reply.Unhealthy (Js.message_or_unknown e))
       | None, Some e =>
           Reply.mk 503
             (Reply.Unhealthy ("Failed to get queue metrics: " ++ Js.to_display e))
       | None, None =>
           Reply.mk 200
             (Reply.Healthy (OrderQueueReads.countOf waiting (World.queue w))
                            (OrderQueueReads.countOf active (World.queue w))
                            (OrderQueueReads.countOf completed (World.queue w))
                            (OrderQueueReads.countOf failed (World.queue w))
                            (size (World.connections w)))
       end, w).
Proof.
  unfold OrderReads.health, OrderReads.queryRaw, OrderQueueReads.getQueueMetrics,
    WebSocketManager.getConnectionCount, try_catch, bind, gets, ret, throw.
  by destruct db_fault, queue_fault.
Qed.

(** X21.  The health route never raises and changes nothing.  It answers 200
    exactly when the store and the queue both answer, and 503 otherwise, with
    the message of the store's error or, for the queue, 'Failed to get queue
    metrics: ' followed by the error as a template literal renders it (its
    name and its message).  After a well-formed request has been
    accepted it reports one more waiting job and one more active connection
    than before, and the other counts as before. *)
Theorem health_reports_faults_and_counts_an_accepted_order :
  forall (db_fault queue_fault : option Js.Thrown) (w : World.t),
    let r := OrderReads.health db_fault queue_fault w in
    after r = w /\
    (exists reply : Reply.t,
        outcome r = Return reply /\
        (Reply.code reply = 200 <-> db_fault = None /\ queue_fault = None) /\
        (Reply.code reply = 200 \/ Reply.code reply = 503) /\
        (forall e : Js.Thrown,
            db_fault = None -> queue_fault = Some e ->
            Reply.body reply
            = Reply.Unhealthy ("Failed to get queue metrics: " ++ Js.to_display e))) /\
    (forall (env : IntakeEnv.t) (h : nat) (q : Query.t) (nw na nc nf n : nat),
        OrderRoutes.rejects q = false ->
        Socket.readyState (World.socketAt w h) = OPEN ->
        IntakeEnv.create_fault env = None ->
        IntakeEnv.enqueue_fault env = None ->
        World.db w !! IntakeEnv.uuid env = None ->
        World.connections w !! IntakeEnv.uuid env = None ->
        ~ In (IntakeEnv.uuid env) (job_ids (World.queue w)) ->
        outcome (OrderReads.health None None w)
        = Return (Reply.mk 200 (Reply.Healthy nw na nc nf n)) ->
        outcome (OrderReads.health None None (after (OrderRoutes.execute env h q w)))
        = Return (Reply.mk 200 (Reply.Healthy (S nw) na nc nf (S n)))).
Proof.
  intros db_fault queue_fault w r. subst r. unfold outcome, after.
  rewrite !health_cases. split; [reflexivity|]. split.
  - eexists. split; [reflexivity|].
    destruct db_fault as [e1|], queue_fault as [e2|]; simpl;
      (split; [split; [discriminate || done | by intros [? ?]]|]);
      (split; [by (left + right)|]); intros e ? ?; by simplify_eq.
  - intros env h q nw na nc nf n Hrej Hopen Hcreate Henq Hdb Hconn Hfresh.
    rewrite !health_cases. cbn [fst].
    destruct (execute_accepted env h q w Hrej Hopen Hcreate Henq Hdb Hconn Hfresh)
      as (_ & _ & Hq & Hreg & _).
    unfold after in Hq, Hreg. rewrite Hq, Hreg.
    intros [= <- <- <- <- <-].
    rewrite !countOf_app. simpl.
    rewrite map_size_insert_None by exact Hconn.
    do 3 f_equal; lia.
Qed.

Lemma health_reports_faults_and_counts_an_accepted_order_witness :
  outcome (OrderReads.health None None accepted_order)
  = Return (Reply.mk 200 (Reply.Healthy 1 0 0 0 1)) /\
  exists reply : Reply.t,
    outcome (OrderReads.health None (Some (Js.NamedError "ReplyError" "LOADING"))
               one_socket) = Return reply /\
    Reply.body reply = Reply.Unhealthy "Failed to get queue metrics: ReplyError: LOADING".
Proof.
  split.
  - apply (proj2 (proj2 (health_reports_faults_and_counts_an_accepted_order
                           None None one_socket))
             quiet_intake 1 market_query 0 0 0 0 0); try reflexivity.
    simpl. tauto.
  - destruct (health_reports_faults_and_counts_an_accepted_order
                None (Some (Js.NamedError "ReplyError" "LOADING")) one_socket)
      as (_ & (reply & Hreply & _ & _ & Hbody) & _).
    exists reply. split; [exact Hreply|].
    apply (Hbody (Js.NamedError "ReplyError" "LOADING")); reflexivity.
Defined.

(** ** Further edge cases of the driver *)

Lemma one_run_publishes_in_order_witness :
  in_pipeline_order
    (published (after (OrderProcessor.processOrder (Some serverEmitter) store_outage
                         sample_order accepted_order)) 1) = true.
Proof.
  apply (proj2 (one_run_publishes_in_order store_outage sample_order accepted_order 1)).
  reflexivity.
Defined.

Lemma processOrder_handler_write_fails_witness :
  outcome (OrderProcessor.processOrder (Some serverEmitter) store_outage sample_order
             accepted_order)
  = Throw (Js.ErrorObj "Timed out fetching a new connection from the pool").
Proof.
  pose proof (processOrder_handler_write_fails store_outage sample_order accepted_order
                (snd (OrderProcessor.processOrder_try (Some serverEmitter) store_outage
                        sample_order accepted_order))
                (Js.ErrorObj "Can't reach database server") eq_refl) as (Hfault & _).
  unfold outcome. by rewrite (Hfault _ eq_refl).
Defined.

(** X24.  A job whose order has no record in the store fails at its first
    write: when the store itself answers, the run raises 'Record to update
    not found.', the handler's write of FAILED fails in the same way, so
    that nothing is stored and nothing is published, not even FAILED: the
    whole state is as before. *)
Theorem processOrder_for_a_missing_record_fails_silently :
  forall (env : RunEnv.t) (orderData : OrderJobData.t) (w : World.t),
    World.db w !! OrderJobData.id orderData = None ->
    RunEnv.routing_write env = None ->
    RunEnv.failed_write env = None ->
    OrderProcessor.processOrder (Some serverEmitter) env orderData w
    = (Throw (Js.ErrorObj "Record to update not found."), w).
Proof.
  intros env orderData w Hdb Hrouting Hfailed.
  unfold OrderProcessor.processOrder, OrderProcessor.processOrder_try,
    OrderProcessor.processOrder_catch, try_catch. cbv zeta.
  unfold bind at 1. unfold OrderProcessor.updateOrderStatus at 1.
  unfold Prisma.update, try_catch, bind at 1. rewrite Hrouting, Hdb.
  unfold throw at 1. unfold bind at 1.
  unfold OrderProcessor.updateOrderStatus, Prisma.update, try_catch, bind, throw.
  by rewrite Hfailed, Hdb.
Qed.

Lemma processOrder_for_a_missing_record_fails_silently_witness :
  OrderProcessor.processOrder (Some serverEmitter) calm sample_order record_gone
  = (Throw (Js.ErrorObj "Record to update not found."), record_gone).
Proof.
  apply (processOrder_for_a_missing_record_fails_silently calm sample_order record_gone);
    reflexivity.
Defined.

